(** * ThreadPool.h: an interleaving model of the worker pool

    The class [ThreadPool] of [src/ThreadPool.h] owns a vector of worker
    threads, a FIFO queue of [std::function<void()>] tasks, one mutex, one
    condition variable and a [stop] flag.  The model below gives every
    thread a program position and lets a schedule pick which thread performs
    its next statement.  Each statement is written in a small monad that
    carries the shared state, may block (a held mutex, a [join] on a running
    thread, a wait on the condition variable) and records what it did.

    A statement is atomic and statements of different threads interleave in
    any order.  An access that C++ would call a data race therefore has a
    defined outcome here; the trace shows it as an access made by a thread
    that does not own the mutex.  Line numbers are those of
    [src/ThreadPool.h]. *)

From Stdlib Require Import String List Bool Arith Lia.
Import ListNotations.
Local Open Scope string_scope.
Local Open Scope list_scope.

(** ** Data *)

(** What a C++ call can throw: something derived from [std::exception]
    (with its [what()] text), or anything else. *)
Inductive exn :=
| StdException (what : string)
| NonStdException.

(** The bound callable [std::bind(f, args...)] of line 40, given by what its
    call produces: a value of [return_type] (an opaque payload here) or an
    exception. *)
Inductive outcome :=
| Returns (v : nat)
| Throws (e : exn).

(** The shared state behind a [std::future] / [std::packaged_task] pair.
    [Abandoned] is the state left by destroying a packaged task that was
    never invoked (the library stores [broken_promise]). *)
Inductive shared_state :=
| Pending
| Ready (r : outcome)
| Abandoned.

Definition handle := nat.

(** An element of [tasks].  [Packaged h f] is the lambda of lines 49-51: it
    calls the packaged task whose future is [h].  [Plain r] is any other
    [void()] callable, given by what calling it does; the handlers of lines
    84-90 are written for those. *)
Inductive task :=
| Packaged (h : handle) (f : outcome)
| Plain (r : option exn).

Inductive tid :=
| Worker (w : nat)
| Caller (c : nat).

Definition tid_eqb (a b : tid) : bool :=
  match a, b with
  | Worker x, Worker y => Nat.eqb x y
  | Caller x, Caller y => Nat.eqb x y
  | _, _ => false
  end.

(** Position of a worker thread inside the lambda of lines 68-92 (the lambda
    of lines 137-158 is the same text). *)
Inductive wstate :=
| WNotStarted
| WLock                (* l.72: constructing the unique_lock *)
| WPred                (* l.75: lock held, evaluating the wait predicate *)
| WEnterWait           (* l.75: predicate false, lock held, about to block *)
| WWaiting             (* l.75: blocked in condition.wait, lock released *)
| WWoken               (* l.75: unblocked, taking the lock again *)
| WExitCheck           (* l.76: lock held *)
| WFront               (* l.79-80: lock held *)
| WPopped (t : task)   (* l.81: task moved out, lock still held *)
| WInvoke (t : task)   (* l.82-90: lock released *)
| WReturned            (* l.76: the thread function returned *)
| WUndefined.          (* l.79 reached with an empty queue *)

(** Position of a calling thread inside a member function. *)
Inductive cstate :=
| Idle
| EnqCheckWorkers (f : outcome)          (* l.34 *)
| EnqMakeTask (f : outcome)              (* l.40-42 *)
| EnqLock (h : handle) (f : outcome)     (* l.44 *)
| EnqLocked (h : handle) (f : outcome)   (* l.46-51 *)
| EnqUnlock (h : handle)                 (* l.52 *)
| EnqNotify (h : handle)                 (* l.54-55 *)
| ClrSwap                                (* l.61-63 *)
| DtorSetStop                            (* l.97 *)
| DtorNotifyAll                          (* l.99 *)
| DtorJoin (i : nat)                     (* l.100-105 *)
| RszLock (n : nat)                      (* l.109 *)
| RszBranch (n : nat)                    (* l.110, 112, 132 *)
| RszSetStop (n sz : nat)                (* l.114 *)
| RszNotify (n sz i : nat)               (* l.115-117 *)
| RszClearStop (n : nat)                 (* l.119 *)
| RszJoin (n j : nat)                    (* l.121-126 *)
| RszErase (n : nat)                     (* l.128-129 *)
| RszGrow (n sz : nat)                   (* l.134 *)
| RszSpawn (n i : nat)                   (* l.135-159 *)
| RszReturn (n : nat).                   (* l.161 *)

(** The member functions a caller can invoke. *)
Inductive op :=
| OpEnqueue (f : outcome)
| OpClear
| OpResize (n : nat)
| OpDestroy.

Inductive var := VStop | VTasks.
Inductive mode := Rd | Wr.

(** What a statement leaves in the trace. *)
Inductive event :=
| EvAccess (t : tid) (x : var) (m : mode) (locked : bool)
| EvPush (c : nat) (t : task)
| EvPop (w : nat) (t : task)
| EvThrow (c : nat) (what : string)
| EvFuture (c : nat) (h : handle)
| EvReturn (c : nat) (line : nat).   (* a void member function returned *)

Record state := mkState {
  workers : list (option nat);   (* std::vector<std::thread>; None: not joinable *)
  tasks : list task;             (* std::queue, front first *)
  stop : bool;
  queue_mutex : option tid;      (* owner *)
  wpc : nat -> wstate;
  spawned : nat;                 (* worker threads created so far *)
  cpc : nat -> cstate;
  store : list shared_state;     (* shared states of the futures handed out *)
  cerr : list string
}.

(** ** The statement monad *)

Definition M (A : Type) : Type := state -> option (A * state * list event).

Definition ret {A} (a : A) : M A := fun s => Some (a, s, []).

Definition bind {A B} (m : M A) (k : A -> M B) : M B := fun s =>
  match m s with
  | Some (a, s1, e1) =>
      match k a s1 with
      | Some (b, s2, e2) => Some (b, s2, e1 ++ e2)
      | None => None
      end
  | None => None
  end.

Notation "x <- m ;; k" := (bind m (fun x => k))
  (at level 61, m at next level, right associativity).
Notation "m ;; k" := (bind m (fun _ => k))
  (at level 61, right associativity).

Definition blocked {A} : M A := fun _ => None.
Definition emit (e : event) : M unit := fun s => Some (tt, s, [e]).
Definition gets {A} (f : state -> A) : M A := fun s => Some (f s, s, []).
Definition modify (f : state -> state) : M unit := fun s => Some (tt, f s, []).

Definition upd {A} (f : nat -> A) (i : nat) (v : A) : nat -> A :=
  fun x => if Nat.eqb x i then v else f x.

Definition set_workers v s :=
  mkState v (tasks s) (stop s) (queue_mutex s) (wpc s) (spawned s) (cpc s) (store s) (cerr s).
Definition set_tasks v s :=
  mkState (workers s) v (stop s) (queue_mutex s) (wpc s) (spawned s) (cpc s) (store s) (cerr s).
Definition set_stop v s :=
  mkState (workers s) (tasks s) v (queue_mutex s) (wpc s) (spawned s) (cpc s) (store s) (cerr s).
Definition set_mutex v s :=
  mkState (workers s) (tasks s) (stop s) v (wpc s) (spawned s) (cpc s) (store s) (cerr s).
Definition set_wpc v s :=
  mkState (workers s) (tasks s) (stop s) (queue_mutex s) v (spawned s) (cpc s) (store s) (cerr s).
Definition set_spawned v s :=
  mkState (workers s) (tasks s) (stop s) (queue_mutex s) (wpc s) v (cpc s) (store s) (cerr s).
Definition set_cpc v s :=
  mkState (workers s) (tasks s) (stop s) (queue_mutex s) (wpc s) (spawned s) v (store s) (cerr s).
Definition set_store v s :=
  mkState (workers s) (tasks s) (stop s) (queue_mutex s) (wpc s) (spawned s) (cpc s) v (cerr s).
Definition set_cerr v s :=
  mkState (workers s) (tasks s) (stop s) (queue_mutex s) (wpc s) (spawned s) (cpc s) (store s) v.

(** Does thread [me] own [queue_mutex]? *)
Definition holds (me : tid) (s : state) : bool :=
  match queue_mutex s with
  | Some t => tid_eqb t me
  | None => false
  end.

(** Every use of [stop] or [tasks] is recorded with whether the acting
    thread owned the mutex at that moment. *)
Definition access (me : tid) (x : var) (m : mode) : M unit :=
  fun s => Some (tt, s, [EvAccess me x m (holds me s)]).

Definition read_stop (me : tid) : M bool :=
  access me VStop Rd ;; gets stop.
Definition write_stop (me : tid) (b : bool) : M unit :=
  access me VStop Wr ;; modify (set_stop b).
Definition tasks_empty (me : tid) : M bool :=
  access me VTasks Rd ;; gets (fun s => match tasks s with [] => true | _ => false end).
Definition tasks_emplace (me : tid) (t : task) : M unit :=
  access me VTasks Wr ;; modify (fun s => set_tasks (tasks s ++ [t]) s).
(** [task = std::move(tasks.front()); tasks.pop();] *)
Definition tasks_front_pop (me : tid) : M (option task) :=
  access me VTasks Wr ;;
  q <- gets tasks ;;
  match q with
  | t :: q' => modify (set_tasks q') ;; ret (Some t)
  | [] => ret None
  end.
(** [tasks.swap(swapQ)] with an empty [swapQ]: returns the old contents. *)
Definition tasks_swap_empty (me : tid) : M (list task) :=
  access me VTasks Wr ;;
  q <- gets tasks ;;
  modify (set_tasks []) ;;
  ret q.

(** [std::mutex::lock] blocks while another thread owns the mutex. *)
Definition lock (me : tid) : M unit := fun s =>
  match queue_mutex s with
  | None => Some (tt, set_mutex (Some me) s, [])
  | Some _ => None
  end.
Definition unlock (me : tid) : M unit := modify (set_mutex None).

Definition goto_w (w : nat) (p : wstate) : M unit :=
  modify (fun s => set_wpc (upd (wpc s) w p) s).
Definition goto_c (c : nat) (p : cstate) : M unit :=
  modify (fun s => set_cpc (upd (cpc s) c p) s).

(** ** Futures *)

Fixpoint set_nth {A} (i : nat) (v : A) (l : list A) : list A :=
  match l, i with
  | [], _ => []
  | _ :: l', 0 => v :: l'
  | x :: l', S i' => x :: set_nth i' v l'
  end.

(** [make_shared<packaged_task>] and [get_future], lines 40-42. *)
Definition new_shared_state : M handle :=
  h <- gets (fun s => length (store s)) ;;
  modify (fun s => set_store (store s ++ [Pending]) s) ;;
  ret h.

(** Destroying a task: a packaged task that was never run abandons its
    shared state. *)
Definition abandon1 (t : task) (st : list shared_state) : list shared_state :=
  match t with
  | Packaged h _ =>
      match nth_error st h with
      | Some Pending => set_nth h Abandoned st
      | _ => st
      end
  | Plain _ => st
  end.
Definition abandon (q : list task) : M unit :=
  modify (fun s => set_store (fold_right abandon1 (store s) q) s).

(** Calling a task.  A packaged task runs the bound callable and stores its
    value or its exception in the shared state, once; the call itself then
    returns normally.  A second call would throw [std::future_error] (the
    text of its [what()] is the library's; a placeholder stands for it). *)
Definition invoke (t : task) : M (option exn) :=
  match t with
  | Packaged h f =>
      st <- gets store ;;
      match nth_error st h with
      | Some Pending => modify (set_store (set_nth h (Ready f) st)) ;; ret None
      | _ => ret (Some (StdException "std::future_error"))
      end
  | Plain r => ret r
  end.

Definition print_cerr (msg : string) : M unit :=
  modify (fun s => set_cerr (cerr s ++ [msg]) s).

(** ** The condition variable *)

Definition is_waiting (p : wstate) : bool :=
  match p with WWaiting => true | _ => false end.

(** [notify_one] unblocks one thread blocked in [wait], if there is one;
    [pick] is the choice the library makes when there are several. *)
Definition notify_one (pick : nat) : M unit := fun s =>
  if is_waiting (wpc s pick) then goto_w pick WWoken s
  else
    match find (fun w => is_waiting (wpc s w)) (seq 0 (spawned s)) with
    | Some w => goto_w w WWoken s
    | None => Some (tt, s, [])
    end.

Definition notify_all : M unit :=
  modify (fun s => set_wpc (fun w => if is_waiting (wpc s w) then WWoken else wpc s w) s).

(** [std::thread::join] blocks until the thread function has returned. *)
Definition join (w : nat) : M unit := fun s =>
  match wpc s w with
  | WReturned => Some (tt, s, [])
  | _ => None
  end.

(** ** The consume-loop, lines 68-92 and 137-158 *)

Definition worker_step (w : nat) : M unit :=
  let me := Worker w in
  p <- gets (fun s => wpc s w) ;;
  match p with
  | WLock => lock me ;; goto_w w WPred
  | WWoken => lock me ;; goto_w w WPred
  | WPred =>
      b <- read_stop me ;;
      e <- tasks_empty me ;;
      if b || negb e then goto_w w WExitCheck
      else goto_w w WEnterWait
  | WEnterWait => unlock me ;; goto_w w WWaiting
  | WExitCheck =>
      b <- read_stop me ;;
      e <- tasks_empty me ;;
      if b && e then unlock me ;; goto_w w WReturned
      else goto_w w WFront
  | WFront =>
      t <- tasks_front_pop me ;;
      match t with
      | Some t => emit (EvPop w t) ;; goto_w w (WPopped t)
      | None => goto_w w WUndefined
      end
  | WPopped t => unlock me ;; goto_w w (WInvoke t)
  | WInvoke t =>
      r <- invoke t ;;
      match r with
      | None => ret tt
      | Some (StdException what) =>
          print_cerr (String.append "Caught exception in thread pool task: " what)
      | Some NonStdException =>
          print_cerr "Caught non-standard exception in thread pool task"
      end ;;
      goto_w w WLock
  | WNotStarted | WWaiting | WReturned | WUndefined => blocked
  end.

(** Starting one more worker thread in slot [i] of [workers]. *)
Definition spawn_into (i : nat) : M unit :=
  w <- gets spawned ;;
  modify (fun s => set_spawned (S w) s) ;;
  goto_w w WLock ;;
  modify (fun s => set_workers (set_nth i (Some w) (workers s)) s).

(** ** The member functions *)

Definition throw (c : nat) (what : string) : M unit :=
  emit (EvThrow c what) ;; goto_c c Idle.

Definition caller_step (c : nat) (pick : nat) : M unit :=
  let me := Caller c in
  p <- gets (fun s => cpc s c) ;;
  match p with
  | Idle => blocked
  (* enqueue, lines 33-56 *)
  | EnqCheckWorkers f =>
      n <- gets (fun s => length (workers s)) ;;
      if Nat.eqb n 0 then throw c "enqueue called on empty ThreadPool"
      else goto_c c (EnqMakeTask f)
  | EnqMakeTask f =>
      h <- new_shared_state ;;
      goto_c c (EnqLock h f)
  | EnqLock h f => lock me ;; goto_c c (EnqLocked h f)
  | EnqLocked h f =>
      b <- read_stop me ;;
      if b then
        unlock me ;;
        abandon [Packaged h f] ;;
        throw c "enqueue called on stopped ThreadPool"
      else
        tasks_emplace me (Packaged h f) ;;
        emit (EvPush c (Packaged h f)) ;;
        goto_c c (EnqUnlock h)
  | EnqUnlock h => unlock me ;; goto_c c (EnqNotify h)
  | EnqNotify h =>
      notify_one pick ;;
      emit (EvFuture c h) ;;
      goto_c c Idle
  (* clear, lines 60-63 *)
  | ClrSwap =>
      swapQ <- tasks_swap_empty me ;;
      abandon swapQ ;;
      emit (EvReturn c 63) ;;
      goto_c c Idle
  (* ~ThreadPool, lines 96-105 *)
  | DtorSetStop => write_stop me true ;; goto_c c DtorNotifyAll
  | DtorNotifyAll => notify_all ;; goto_c c (DtorJoin 0)
  | DtorJoin i =>
      ws <- gets workers ;;
      match nth_error ws i with
      | Some (Some w) =>
          (* joinable: join it; a joined thread is not joinable any more *)
          join w ;;
          modify (fun s => set_workers (set_nth i None (workers s)) s) ;;
          goto_c c (DtorJoin (S i))
      | Some None => goto_c c (DtorJoin (S i))
      | None =>
          (* end of the loop: the members are destroyed, [tasks] with them *)
          q <- gets tasks ;;
          modify (set_tasks []) ;;
          abandon q ;;
          emit (EvReturn c 105) ;;
          goto_c c Idle
      end
  (* resize, lines 107-161 *)
  | RszLock n => lock me ;; goto_c c (RszBranch n)
  | RszBranch n =>
      sz <- gets (fun s => length (workers s)) ;;
      if Nat.ltb n sz then goto_c c (RszSetStop n sz)
      else if Nat.ltb sz n then goto_c c (RszGrow n sz)
      else goto_c c (RszReturn n)
  | RszSetStop n sz => write_stop me true ;; goto_c c (RszNotify n sz n)
  | RszNotify n sz i =>
      if Nat.ltb i sz then notify_one pick ;; goto_c c (RszNotify n sz (S i))
      else goto_c c (RszClearStop n)
  | RszClearStop n => write_stop me false ;; goto_c c (RszJoin n n)
  | RszJoin n j =>
      ws <- gets workers ;;
      match nth_error ws j with
      | Some (Some w) =>
          join w ;;
          modify (fun s => set_workers (set_nth j None (workers s)) s) ;;
          goto_c c (RszJoin n (S j))
      | Some None => goto_c c (RszJoin n (S j))
      | None => goto_c c (RszErase n)
      end
  | RszErase n =>
      modify (fun s => set_workers (firstn n (workers s)) s) ;;
      unlock me ;;
      emit (EvReturn c 129) ;;
      goto_c c Idle
  | RszGrow n sz =>
      (* workers.resize(threads): default-constructed, not joinable threads *)
      modify (fun s => set_workers (workers s ++ repeat None (n - sz)) s) ;;
      goto_c c (RszSpawn n sz)
  | RszSpawn n i =>
      ws <- gets workers ;;
      if Nat.ltb i (length ws) then spawn_into i ;; goto_c c (RszSpawn n (S i))
      else goto_c c (RszReturn n)
  | RszReturn n =>
      unlock me ;;
      emit (EvReturn c 161) ;;
      goto_c c Idle
  end.

Definition entry (o : op) : cstate :=
  match o with
  | OpEnqueue f => EnqCheckWorkers f
  | OpClear => ClrSwap
  | OpResize n => RszLock n
  | OpDestroy => DtorSetStop
  end.

(** ** Schedules *)

Inductive action :=
| Invoke (c : nat) (o : op)      (* an idle caller enters a member function *)
| Step (t : tid) (pick : nat)    (* a thread performs its next statement *)
| Spurious (w : nat).            (* a spurious wake-up from condition.wait *)

Definition step (a : action) (s : state) : option (state * list event) :=
  match a with
  | Invoke c o =>
      match cpc s c with
      | Idle => Some (set_cpc (upd (cpc s) c (entry o)) s, [])
      | _ => None
      end
  | Step (Worker w) _ =>
      match worker_step w s with
      | Some (_, s', ev) => Some (s', ev)
      | None => None
      end
  | Step (Caller c) pick =>
      match caller_step c pick s with
      | Some (_, s', ev) => Some (s', ev)
      | None => None
      end
  | Spurious w =>
      if is_waiting (wpc s w) then Some (set_wpc (upd (wpc s) w WWoken) s, [])
      else None
  end.

Fixpoint run (sched : list action) (s : state) : option (state * list event) :=
  match sched with
  | [] => Some (s, [])
  | a :: rest =>
      match step a s with
      | Some (s1, e1) =>
          match run rest s1 with
          | Some (s2, e2) => Some (s2, e1 ++ e2)
          | None => None
          end
      | None => None
      end
  end.

(** The state left by the constructor, lines 65-94: [threads] workers, each
    about to take the lock for the first time. *)
Definition construct (threads : nat) : state :=
  {| workers := map Some (seq 0 threads);
     tasks := [];
     stop := false;
     queue_mutex := None;
     wpc := fun w => if Nat.ltb w threads then WLock else WNotStarted;
     spawned := threads;
     cpc := fun _ => Idle;
     store := [];
     cerr := [] |}.

(** A caller running a member function with nobody else scheduled, for at
    most [fuel] statements. *)
Fixpoint finish (fuel : nat) (c : nat) (s : state) : option (state * list event) :=
  match fuel with
  | 0 => Some (s, [])
  | S fuel' =>
      match cpc s c with
      | Idle => Some (s, [])
      | _ =>
          match step (Step (Caller c) 0) s with
          | Some (s1, e1) =>
              match finish fuel' c s1 with
              | Some (s2, e2) => Some (s2, e1 ++ e2)
              | None => None
              end
          | None => None
          end
      end
  end.

Definition call (fuel : nat) (c : nat) (o : op) (s : state) : option (state * list event) :=
  match step (Invoke c o) s with
  | Some (s1, e1) =>
      match finish fuel c s1 with
      | Some (s2, e2) => Some (s2, e1 ++ e2)
      | None => None
      end
  | None => None
  end.



(** * Reading runs, invariants and scenarios *)

(** ** Reading runs *)

(** The state and the trace a schedule leads to (the start state and the
    empty trace if some scheduled thread was blocked). *)
Definition after (sched : list action) (s : state) : state :=
  match run sched s with
  | Some (s', _) => s'
  | None => s
  end.

Definition trace (sched : list action) (s : state) : list event :=
  match run sched s with
  | Some (_, ev) => ev
  | None => []
  end.

(** [enqueue] left through one of its two [throw] statements. *)
Definition threw (c : nat) (ev : list event) : Prop :=
  exists what, In (EvThrow c what) ev.

(** The exception a call of [t] ends with in state [s], if any. *)
Definition raises (t : task) (s : state) : option exn :=
  match invoke t s with
  | Some (r, _, _) => r
  | None => None
  end.

(** What the handlers of lines 84-90 print. *)
Definition diagnostic (e : exn) : string :=
  match e with
  | StdException what => String.append "Caught exception in thread pool task: " what
  | NonStdException => "Caught non-standard exception in thread pool task"
  end.

(** What a thread that waits on a future gets.  [std::future::get] blocks
    while the shared state is pending; it returns the value or rethrows the
    exception of the callable once the task has been called; and it throws
    [std::future_error] with [broken_promise] once the task has been
    destroyed without having been called.  In the last two cases the future
    is ready: [wait] returns at once. *)
Inductive get_result :=
| Blocks
| Gets (r : outcome)
| BrokenPromise.

Definition future_get (st : shared_state) : get_result :=
  match st with
  | Pending => Blocks
  | Ready r => Gets r
  | Abandoned => BrokenPromise
  end.


(** [x] occurs in [l] at an earlier position than [y]. *)
Definition before {A} (x y : A) (l : list A) : Prop :=
  exists l1 l2 l3, l = l1 ++ x :: l2 ++ y :: l3.

(** The tasks pushed along a trace, in the order of the pushes. *)
Definition pushes (ev : list event) : list task :=
  flat_map (fun e => match e with EvPush _ t => [t] | _ => [] end) ev.

(** ** Mutual exclusion *)

Definition w_locked (p : wstate) : bool :=
  match p with
  | WPred | WEnterWait | WExitCheck | WFront | WPopped _ | WUndefined => true
  | _ => false
  end.

Definition c_locked (p : cstate) : bool :=
  match p with
  | EnqLocked _ _ | EnqUnlock _
  | RszBranch _ | RszSetStop _ _ | RszNotify _ _ _ | RszClearStop _
  | RszJoin _ _ | RszErase _ | RszGrow _ _ | RszSpawn _ _ | RszReturn _ => true
  | _ => false
  end.

Definition in_locked_region (t : tid) (s : state) : bool :=
  match t with
  | Worker w => w_locked (wpc s w)
  | Caller c => c_locked (cpc s c)
  end.

(** The owner of the mutex is exactly the thread between a lock and the
    matching unlock. *)
Definition mutex_ok (s : state) : Prop :=
  forall t, queue_mutex s = Some t <-> in_locked_region t s = true.

(** ** Runs in which the pool is not destroyed *)

Definition is_destroy (a : action) : bool :=
  match a with
  | Invoke _ OpDestroy => true
  | _ => false
  end.

Definition no_destroy (sched : list action) : Prop :=
  forallb (fun a => negb (is_destroy a)) sched = true.

Definition in_destructor (p : cstate) : bool :=
  match p with
  | DtorSetStop | DtorNotifyAll | DtorJoin _ => true
  | _ => false
  end.

(** Between line 114 and line 119 of [resize]. *)
Definition in_stop_window (p : cstate) : bool :=
  match p with
  | RszNotify _ _ _ | RszClearStop _ => true
  | _ => false
  end.

(** What [resize] knows about [workers] at each of its positions. *)
Definition resize_shape (p : cstate) (ws : list (option nat)) : Prop :=
  match p with
  | RszSetStop n sz | RszNotify n sz _ => sz = length ws /\ n < sz
  | RszClearStop n => n < length ws
  | RszJoin n j => j = n /\ n < length ws
  | RszErase _ => False
  | RszGrow n sz => sz = length ws /\ sz < n
  | RszSpawn n i => length ws = n /\ i <= n
  | _ => True
  end.

Definition spawning_from (p : cstate) (i : nat) : Prop :=
  match p with
  | RszSpawn _ j => j <= i
  | _ => False
  end.

(** The facts that hold of every state of a run without the destructor:
    [stop] is set only inside [resize], under the mutex; no worker has
    returned; every slot of [workers] holds a joinable thread unless a
    [resize] is filling it. *)
Record alive (s : state) : Prop := {
  alive_mutex : mutex_ok s;
  alive_no_dtor : forall c, in_destructor (cpc s c) = false;
  alive_stop : stop s = true -> exists c, in_stop_window (cpc s c) = true;
  alive_running : forall w, wpc s w <> WReturned;
  alive_shape : forall c, resize_shape (cpc s c) (workers s);
  alive_joinable : forall i, nth_error (workers s) i = Some None ->
                             exists c, spawning_from (cpc s c) i
}.

(** ** Who holds which future *)

Definition handles (q : list task) : list handle :=
  flat_map (fun t => match t with Packaged h _ => [h] | Plain _ => [] end) q.

(** The task a worker has moved out of the queue and not yet called. *)
Definition w_task (p : wstate) : option task :=
  match p with
  | WPopped t | WInvoke t => Some t
  | _ => None
  end.

Definition w_handle (p : wstate) : option handle :=
  match w_task p with
  | Some (Packaged h _) => Some h
  | _ => None
  end.

(** The packaged task a caller has created and not yet pushed. *)
Definition c_handle (p : cstate) : option handle :=
  match p with
  | EnqLock h _ | EnqLocked h _ => Some h
  | _ => None
  end.

(** Every packaged task that is still to be called is in exactly one place
    (the queue, one worker, or one caller inside [enqueue]) and its shared
    state is still pending. *)
Record owned_ok (s : state) : Prop := {
  own_packaged : forall t, In t (tasks s) -> exists h f, t = Packaged h f;
  own_w_packaged : forall w t, w_task (wpc s w) = Some t -> exists h f, t = Packaged h f;
  own_nodup : NoDup (handles (tasks s));
  own_q_pending : forall h, In h (handles (tasks s)) -> nth_error (store s) h = Some Pending;
  own_w_pending : forall w h, w_handle (wpc s w) = Some h -> nth_error (store s) h = Some Pending;
  own_c_pending : forall c h, c_handle (cpc s c) = Some h -> nth_error (store s) h = Some Pending;
  own_w_q : forall w h, w_handle (wpc s w) = Some h -> ~ In h (handles (tasks s));
  own_c_q : forall c h, c_handle (cpc s c) = Some h -> ~ In h (handles (tasks s));
  own_w_w : forall w w' h, w_handle (wpc s w) = Some h -> w_handle (wpc s w') = Some h -> w = w';
  own_c_c : forall c c' h, c_handle (cpc s c) = Some h -> c_handle (cpc s c') = Some h -> c = c';
  own_w_c : forall w c h, w_handle (wpc s w) = Some h -> c_handle (cpc s c) = Some h -> False
}.

(** Nobody holds the future [h] any more, and its shared state is [v]. *)
Record dropped (h : handle) (v : shared_state) (s : state) : Prop := {
  drop_store : nth_error (store s) h = Some v;
  drop_q : ~ In h (handles (tasks s));
  drop_w : forall w, w_handle (wpc s w) <> Some h;
  drop_c : forall c, c_handle (cpc s c) <> Some h
}.

(** The queue is what is left of the pushes, every push created a new
    future, and a task still in a caller's hands has not been pushed. *)
Record history_ok (s : state) (ev : list event) : Prop := {
  hist_suffix : exists gone, pushes ev = gone ++ tasks s;
  hist_nodup : NoDup (handles (pushes ev));
  hist_fresh : forall c h, c_handle (cpc s c) = Some h -> ~ In h (handles (pushes ev));
  hist_allocated : forall h, In h (handles (pushes ev)) -> h < length (store s)
}.

(** ** Scenarios *)

(** Caller 0 calls [enqueue] and runs it to its end. *)
Definition enqueue_sched (f : outcome) : list action :=
  Invoke 0 (OpEnqueue f) :: repeat (Step (Caller 0) 0) 6.

(** Shutdown: one worker; a caller enqueues a task returning 7 before the
    worker has taken the lock for the first time; a second caller then
    enters the destructor and executes lines 97 and 99.  After that the
    worker runs. *)
Definition shutdown_sched : list action :=
  enqueue_sched (Returns 7) ++
  [Invoke 1 OpDestroy; Step (Caller 1) 0; Step (Caller 1) 0].

Definition shutdown_begun : state := after shutdown_sched (construct 1).

Definition drain_sched : list action := repeat (Step (Worker 0) 0) 6.

(** Shrink: [ThreadPool pool(2); pool.resize(1);] up to the first [join] of
    line 124. *)
Definition shrink_sched : list action :=
  Invoke 0 (OpResize 1) :: repeat (Step (Caller 0) 0) 6.

Definition shrink_joining : state := after shrink_sched (construct 2).

(** Queue: one worker, two tasks enqueued one after the other before the
    worker has run; then either the worker runs until it has popped both,
    or a second caller clears the queue. *)
Definition two_queued_sched : list action :=
  enqueue_sched (Returns 1) ++ enqueue_sched (Returns 2).

Definition two_queued : state := after two_queued_sched (construct 1).

Definition pop_both_sched : list action := repeat (Step (Worker 0) 0) 10.

(** Races: a [clear] that runs between a worker's test of line 76 and its
    [front] of line 79; and a destructor that executes lines 97 and 99
    between a worker's evaluation of the wait predicate and its blocking. *)
Definition clear_race_sched : list action :=
  enqueue_sched (Returns 1) ++ repeat (Step (Worker 0) 0) 3 ++
  [Invoke 1 OpClear; Step (Caller 1) 0; Step (Worker 0) 0].

Definition lost_wakeup_sched : list action :=
  repeat (Step (Worker 0) 0) 2 ++
  [Invoke 0 OpDestroy; Step (Caller 0) 0; Step (Caller 0) 0; Step (Worker 0) 0].

(** Clear: the worker has moved the first of two queued tasks out of the
    queue (lines 79-80) when a second caller clears the queue; the worker
    then goes on for five statements. *)
Definition one_popped_sched : list action :=
  two_queued_sched ++ repeat (Step (Worker 0) 0) 4.


Definition clear_sched : list action := [Invoke 1 OpClear; Step (Caller 1) 0].

Definition after_clear_sched : list action := repeat (Step (Worker 0) 0) 5.


(** ** Traces and futures *)

(** The tasks popped along a trace, in the order of the pops. *)
Definition pops (ev : list event) : list task :=
  flat_map (fun e => match e with EvPop _ t => [t] | _ => [] end) ev.

(** The future [h] exists and its task is neither queued nor in the hands
    of a caller that has still to push it. *)
Record spent (h : handle) (s : state) : Prop := {
  spent_allocated : h < length (store s);
  spent_q : ~ In h (handles (tasks s));
  spent_c : forall c, c_handle (cpc s c) <> Some h
}.

(** ** What the implementation can provide *)

(** Growing the pool needs room in the vector and new threads.  [max_slots]
    is the largest size [workers.resize] can give ([max_size()], and the
    memory at hand): beyond it [resize] throws [std::length_error] or
    [std::bad_alloc].  [max_threads] is the number of threads the system
    will start: beyond it the constructor of [std::thread] throws
    [std::system_error].  The constructor and [resize] of [ThreadPool] are
    declared [noexcept] (lines 22 and 24): an exception that leaves them
    ends the program through [std::terminate]. *)
Record limits := {
  max_slots : nat;
  max_threads : nat
}.

(** [std::vector::resize]: cut to [n] elements, or fill up to [n] with
    default-constructed (not joinable) threads; [None] when it throws. *)
Definition vector_resize (lim : limits) (n : nat) (ws : list (option nat))
  : option (list (option nat)) :=
  if Nat.leb n (length ws) then Some (firstn n ws)
  else if Nat.leb n (max_slots lim) then Some (ws ++ repeat None (n - length ws))
  else None.

(** ** The constructor, statement by statement *)

(** The members before the body of the constructor runs: [stop(false)] from
    the initialiser list of line 65, everything else default-constructed. *)
Definition members_initialised : state :=
  {| workers := [];
     tasks := [];
     stop := false;
     queue_mutex := None;
     wpc := fun _ => WNotStarted;
     spawned := 0;
     cpc := fun _ => Idle;
     store := [];
     cerr := [] |}.

(** The loop of lines 67-93 over the slots of [workers]; [None] when a
    thread cannot be started. *)
Fixpoint spawn_each (lim : limits) (slots : list nat) (s : state) : option state :=
  match slots with
  | [] => Some s
  | i :: rest =>
      if Nat.ltb (spawned s) (max_threads lim) then
        match spawn_into i s with
        | Some (_, s', _) => spawn_each lim rest s'
        | None => None
        end
      else None
  end.

Inductive constructed :=
| Constructed (s : state)
| CtorTerminates.          (* an exception left the noexcept constructor *)

(** The body of the constructor, lines 66-93. *)
Definition ThreadPool_ctor (lim : limits) (threads : nat) (s : state) : constructed :=
  match vector_resize lim threads (workers s) with
  | Some ws =>
      match spawn_each lim (seq 0 (length ws)) (set_workers ws s) with
      | Some s' => Constructed s'
      | None => CtorTerminates
      end
  | None => CtorTerminates
  end.

(** ** resize within the limits *)

(** Does the next statement of caller [c] throw?  Of the statements of
    [resize] only two can: [workers.resize(threads)] of line 134 and the
    thread creation of line 137. *)
Definition throws (lim : limits) (c : nat) (s : state) : bool :=
  match cpc s c with
  | RszGrow n _ => negb (Nat.leb n (max_slots lim))
  | RszSpawn _ i =>
      Nat.ltb i (length (workers s)) && negb (Nat.ltb (spawned s) (max_threads lim))
  | _ => false
  end.

Inductive completion :=
| Terminates                                   (* std::terminate *)
| Blocked
| Completes (s : state) (ev : list event).

(** [finish] and [call] with the limits taken into account. *)
Fixpoint finish_within (lim : limits) (fuel : nat) (c : nat) (s : state) : completion :=
  match fuel with
  | 0 => Completes s []
  | S fuel' =>
      match cpc s c with
      | Idle => Completes s []
      | _ =>
          if throws lim c s then Terminates
          else
            match step (Step (Caller c) 0) s with
            | Some (s1, e1) =>
                match finish_within lim fuel' c s1 with
                | Completes s2 e2 => Completes s2 (e1 ++ e2)
                | r => r
                end
            | None => Blocked
            end
      end
  end.

Definition call_within (lim : limits) (fuel : nat) (c : nat) (o : op) (s : state)
  : completion :=
  match step (Invoke c o) s with
  | Some (s1, e1) =>
      match finish_within lim fuel c s1 with
      | Completes s2 e2 => Completes s2 (e1 ++ e2)
      | r => r
      end
  | None => Blocked
  end.

(** ** Schedules for the destructor *)

(** The destructor called by [c] on a pool whose worker threads are [ids]:
    lines 97 and 99, then every worker runs until it returns, then the join
    loop of lines 100-104. *)
Definition destroy_sched (c : nat) (ids : list nat) : list action :=
  [Invoke c OpDestroy; Step (Caller c) 0; Step (Caller c) 0] ++
  flat_map (fun w => repeat (Step (Worker w) 0) 3) ids ++
  repeat (Step (Caller c) 0) (S (length ids)).

(** ** Runs that only enqueue and destroy *)

Definition is_resize_or_clear (a : action) : bool :=
  match a with
  | Invoke _ (OpResize _) | Invoke _ OpClear => true
  | _ => false
  end.

Definition enqueue_and_destroy_only (sched : list action) : Prop :=
  forallb (fun a => negb (is_resize_or_clear a)) sched = true.

Definition in_resize_or_clear (p : cstate) : bool :=
  match p with
  | ClrSwap | RszLock _ | RszBranch _ | RszSetStop _ _ | RszNotify _ _ _
  | RszClearStop _ | RszJoin _ _ | RszErase _ | RszGrow _ _ | RszSpawn _ _
  | RszReturn _ => true
  | _ => false
  end.

(** Inside [enqueue], past the test of line 34. *)
Definition past_worker_check (p : cstate) : bool :=
  match p with
  | EnqMakeTask _ | EnqLock _ _ | EnqLocked _ _ | EnqUnlock _ | EnqNotify _ => true
  | _ => false
  end.

(** Between the push of line 49 and the [notify_one] of line 54. *)
Definition about_to_notify (p : cstate) : bool :=
  match p with
  | EnqUnlock _ | EnqNotify _ => true
  | _ => false
  end.

(** Every pushed task is still queued, or in the hands of a worker, or has
    been called. *)
Definition accounted (s : state) (t : task) : Prop :=
  In t (tasks s) \/
  (exists w, w_task (wpc s w) = Some t) \/
  (exists h f, t = Packaged h f /\ nth_error (store s) h = Some (Ready f)).

(** What holds of every state of a run from [construct threads] in which
    callers only enqueue and destroy. *)
Record orderly (threads : nat) (s : state) (ev : list event) : Prop := {
  ord_no_rc : forall c, in_resize_or_clear (cpc s c) = false;
  ord_len : length (workers s) = threads;
  ord_slots : forall i, i < threads ->
      nth_error (workers s) i = Some (Some i) \/
      (nth_error (workers s) i = Some None /\ wpc s i = WReturned);
  ord_unstarted : forall w, threads <= w -> wpc s w = WNotStarted;
  ord_returned : forall w, wpc s w = WReturned -> stop s = true /\ tasks s = [];
  ord_enq : forall c, past_worker_check (cpc s c) = true -> threads <> 0;
  ord_queue : tasks s <> [] -> threads <> 0;
  ord_join : forall c i j, cpc s c = DtorJoin i -> j < i -> j < threads ->
      wpc s j = WReturned;
  ord_done : forall c j, In (EvReturn c 105) ev -> j < threads -> wpc s j = WReturned;
  ord_accounted : forall t, In t (pushes ev) -> accounted s t
}.

(** What holds, besides [alive], of every state of a run without the
    destructor: who is awake when the queue is not empty. *)
Record awake_ok (s : state) : Prop := {
  aw_some : tasks s <> [] ->
      (exists w, w < spawned s /\ is_waiting (wpc s w) = false) \/
      (exists c, about_to_notify (cpc s c) = true);
  aw_enter : forall w, wpc s w = WEnterWait -> tasks s = [];
  aw_started : forall w, w < spawned s <-> wpc s w <> WNotStarted;
  aw_spawned : tasks s <> [] \/ (exists c, about_to_notify (cpc s c) = true) ->
      0 < spawned s;
  aw_enq : forall c, past_worker_check (cpc s c) = true -> 0 < length (workers s);
  aw_ids : forall i w, nth_error (workers s) i = Some (Some w) -> w < spawned s
}.

(** The destructor called by [c] while [n] tasks are queued: lines 97 and
    99, then worker [w] runs the [n] tasks, then every worker runs until it
    returns, then the join loop of lines 100-104. *)
Definition destroy_busy_sched (c w : nat) (ids : list nat) (n : nat) : list action :=
  [Invoke c OpDestroy; Step (Caller c) 0; Step (Caller c) 0] ++
  repeat (Step (Worker w) 0) (6 * n) ++
  flat_map (fun w => repeat (Step (Worker w) 0) 3) ids ++
  repeat (Step (Caller c) 0) (S (length ids)).

(** ** Shutdown under every interleaving *)

Definition is_invoke (a : action) : bool :=
  match a with
  | Invoke _ _ => true
  | _ => false
  end.

(** Schedules in which no member function is entered. *)
Definition no_new_calls (sched : list action) : Prop :=
  forallb (fun a => negb (is_invoke a)) sched = true.

(** Lines 97 and 99 of the destructor called by [c], one after the other. *)
Definition stop_and_notify (c : nat) : list action :=
  [Invoke c OpDestroy; Step (Caller c) 0; Step (Caller c) 0].

(** An upper bound on the statements a worker at position [p] executes
    before it is back at the top of the loop or has returned; a popped task
    counts for the six statements of one turn of the loop. *)
Definition wrank (p : wstate) : nat :=
  match p with
  | WFront => 1
  | WExitCheck => 2
  | WPred => 3
  | WLock | WWoken => 4
  | WInvoke _ => 5
  | WPopped _ => 6
  | WNotStarted | WEnterWait | WWaiting | WReturned | WUndefined => 0
  end.

Fixpoint total_rank (f : nat -> wstate) (n : nat) : nat :=
  match n with
  | 0 => 0
  | S k => total_rank f k + wrank (f k)
  end.

Definition crank (threads : nat) (p : cstate) : nat :=
  match p with
  | DtorJoin i => S (threads - i)
  | _ => 0
  end.

(** The statements that are left, at most, once [stop] is set and every
    worker is awake. *)
Definition shutdown_budget (threads c : nat) (s : state) : nat :=
  6 * length (tasks s) + total_rank (wpc s) threads + crank threads (cpc s c).

(** The pool once lines 97 and 99 have run and no worker is blocked in
    [wait] or about to block. *)
Record closing (threads c : nat) (s : state) : Prop := {
  cl_stop : stop s = true;
  cl_caller : (exists i, cpc s c = DtorJoin i) \/ cpc s c = Idle;
  cl_others : forall c', c' <> c -> cpc s c' = Idle;
  cl_awake : forall w, wpc s w <> WWaiting /\ wpc s w <> WEnterWait;
  cl_started : forall w, w < threads -> wpc s w <> WNotStarted
}.

(** Without [clear] and [resize], what the predicate of [wait] found
    (line 75) still holds at line 76, and the worker that reaches line 78
    finds a task at the front of the queue. *)
Definition front_ok (s : state) : Prop :=
  forall w, wpc s w <> WUndefined /\
            (wpc s w = WFront -> tasks s <> []) /\
            (wpc s w = WExitCheck -> stop s = true \/ tasks s <> []).


(** What holds of every state of a run from the constructor in which
    callers only enqueue and destroy. *)
Definition steady (threads : nat) (s : state) (ev : list event) : Prop :=
  (mutex_ok s /\ owned_ok s /\ history_ok s ev /\ orderly threads s ev) /\
  front_ok s /\
  (forall w, w < threads -> wpc s w <> WNotStarted) /\
  (forall c, cpc s c = DtorNotifyAll -> stop s = true).
(** * Proof tools *)

#[local] Arguments step : simpl never.

Create HintDb stmt.
#[local] Hint Unfold worker_step caller_step spawn_into throw read_stop write_stop
  tasks_empty tasks_emplace tasks_front_pop tasks_swap_empty
  new_shared_state abandon invoke print_cerr notify_all unlock lock join
  goto_w goto_c access bind ret blocked emit gets modify : stmt.

Ltac break_inner H :=
  match type of H with
  | context [match ?x with _ => _ end] =>
      lazymatch x with
      | context [match _ with _ => _ end] => fail
      | _ => let E := fresh "E" in destruct x eqn:E; try discriminate H
      end
  end.

Ltac upd_cases :=
  unfold upd in *;
  repeat match goal with
  | |- context [Nat.eqb ?a ?b] => destruct (Nat.eqb_spec a b); subst
  | H : context [Nat.eqb ?a ?b] |- _ => destruct (Nat.eqb_spec a b); subst
  end.

Ltac rewrite_pcs :=
  repeat match goal with
  | E : wpc ?s ?w = _, H : context [wpc ?s ?w] |- _ => rewrite E in H
  | E : cpc ?s ?c = _, H : context [cpc ?s ?c] |- _ => rewrite E in H
  | E : queue_mutex ?s = _, H : context [queue_mutex ?s] |- _ => rewrite E in H
  | E : wpc ?s ?w = _ |- context [wpc ?s ?w] => rewrite E
  | E : cpc ?s ?c = _ |- context [cpc ?s ?c] => rewrite E
  | E : queue_mutex ?s = _ |- context [queue_mutex ?s] => rewrite E
  end.

Lemma tid_eqb_eq a b : tid_eqb a b = true <-> a = b.
Proof.
  destruct a, b; simpl; rewrite ?Nat.eqb_eq; split; intros H;
    try discriminate; try (injection H as ->); subst; auto.
Qed.

Lemma tid_eqb_refl a : tid_eqb a a = true.
Proof. now apply tid_eqb_eq. Qed.

(** [notify_one] does nothing, or moves one waiting worker out of [wait]. *)
Lemma notify_one_spec pick s u s' ev :
  notify_one pick s = Some (u, s', ev) ->
  ev = [] /\
  (s' = s \/ exists w, wpc s w = WWaiting /\ s' = set_wpc (upd (wpc s) w WWoken) s).
Proof.
  unfold notify_one, goto_w, modify. intros H.
  destruct (is_waiting (wpc s pick)) eqn:E.
  - injection H as <- <- <-. split; auto. right. exists pick. split; auto.
    destruct (wpc s pick); try discriminate; reflexivity.
  - destruct (find _ _) as [w|] eqn:F.
    + injection H as <- <- <-. split; auto. right. exists w. split; auto.
      apply find_some in F. destruct F as [_ F].
      destruct (wpc s w); try discriminate; reflexivity.
    + injection H as <- <- <-. auto.
Qed.

Lemma notify_one_total pick s : exists s', notify_one pick s = Some (tt, s', []).
Proof.
  unfold notify_one, goto_w, modify.
  destruct (is_waiting (wpc s pick)); eauto.
  destruct (find _ _); eauto.
Qed.

(** Case analysis on one statement: every way [step] can succeed. *)
Ltac step_inv H :=
  unfold step in H; autounfold with stmt in H; cbn in H;
  repeat (break_inner H; cbn in H);
  try (injection H as <- <-);
  try match goal with
  | E : _ :: _ = [] |- _ => discriminate E
  | E : [] = _ :: _ |- _ => discriminate E
  end;
  repeat match goal with
  | E : notify_one _ _ = Some (_, _, _) |- _ =>
      apply notify_one_spec in E;
      let w := fresh "w" in let Hw := fresh "Hw" in
      destruct E as [-> [-> | (w & Hw & ->)]]
  end.

(** Invariants are carried along a run. *)
Lemma run_invariant (P : state -> Prop) :
  (forall a s s' ev, P s -> step a s = Some (s', ev) -> P s') ->
  forall sched s s' ev, P s -> run sched s = Some (s', ev) -> P s'.
Proof.
  intros Hstep. induction sched as [|a rest IH]; simpl; intros s s' ev Hs H.
  - now injection H as <- <-.
  - destruct (step a s) as [[s1 e1]|] eqn:E; try discriminate.
    destruct (run rest s1) as [[s2 e2]|] eqn:R; try discriminate.
    injection H as <- <-. eapply IH; [|exact R]. eapply Hstep; eauto.
Qed.

(** ** Mutual exclusion *)

Lemma mutex_ok_construct threads : mutex_ok (construct threads).
Proof.
  intros [w|c]; simpl; split; try discriminate.
  destruct (Nat.ltb w threads); discriminate.
Qed.

Ltac mutex_tac Hinv me :=
  let t := fresh "t" in
  intros t; pose proof (Hinv t) as ?; pose proof (Hinv me) as ?;
  destruct t as [?|?]; cbn in *; upd_cases; cbn in *;
  repeat match goal with
  | H : context [is_waiting ?x] |- _ => destruct x eqn:?; cbn in H
  | |- context [is_waiting ?x] => destruct x eqn:?; cbn
  end;
  rewrite_pcs; cbn in *;
  try tauto; try (intuition congruence).

Lemma mutex_ok_step a s s' ev : mutex_ok s -> step a s = Some (s', ev) -> mutex_ok s'.
Proof.
  intros Hinv H. destruct a as [c o|[w|c] pick|w].
  - step_inv H. destruct o; mutex_tac Hinv (Caller c).
  - step_inv H. all: try solve [mutex_tac Hinv (Worker w)].
  - step_inv H. all: try solve [mutex_tac Hinv (Caller c)].
  - step_inv H. mutex_tac Hinv (Worker w).
Qed.

Lemma mutex_ok_run threads sched s ev :
  run sched (construct threads) = Some (s, ev) -> mutex_ok s.
Proof.
  apply (run_invariant mutex_ok).
  - intros; eapply mutex_ok_step; eauto.
  - apply mutex_ok_construct.
Qed.

(** * enqueue *)

Lemma finish_idle n c s : cpc s c = Idle -> finish n c s = Some (s, []).
Proof. intros H. destruct n; simpl; auto. now rewrite H. Qed.

Lemma finish_step n c s s1 e1 :
  cpc s c <> Idle ->
  step (Step (Caller c) 0) s = Some (s1, e1) ->
  finish (S n) c s =
  match finish n c s1 with
  | Some (s2, e2) => Some (s2, e1 ++ e2)
  | None => None
  end.
Proof.
  intros Hc H. cbn [finish]. rewrite H.
  destruct (cpc s c); try congruence; reflexivity.
Qed.

Lemma upd_same {A} (f : nat -> A) i v : upd f i v i = v.
Proof. unfold upd. now rewrite Nat.eqb_refl. Qed.

Lemma upd_other {A} (f : nat -> A) i j v : j <> i -> upd f i v j = f j.
Proof. unfold upd. intros H. now destruct (Nat.eqb_spec j i). Qed.

(** Running one statement forward from a state whose program position is
    known. *)
Ltac run_stmt :=
  unfold step; autounfold with stmt; cbn; rewrite ?upd_same; cbn;
  repeat (match goal with
          | E : _ = _ |- _ => rewrite E
          end; cbn).

Ltac advance :=
  erewrite finish_step;
  [ | cbn; rewrite ?upd_same; discriminate | run_stmt; reflexivity ].

(** C1: [enqueue], run by a caller while the mutex is free, throws exactly
    when [workers] is empty or [stop] is set, and then leaves [tasks] as it
    was; otherwise it appends the new task at the back of [tasks] and
    returns its future. *)
Theorem enqueue_fails_iff_empty_or_stopped s c f k :
  cpc s c = Idle ->
  queue_mutex s = None ->
  exists s' ev,
    call (6 + k) c (OpEnqueue f) s = Some (s', ev) /\
    cpc s' c = Idle /\
    (threw c ev <-> length (workers s) = 0 \/ stop s = true) /\
    (threw c ev -> tasks s' = tasks s) /\
    (~ threw c ev ->
       tasks s' = tasks s ++ [Packaged (length (store s)) f] /\
       In (EvFuture c (length (store s))) ev /\
       nth_error (store s') (length (store s)) = Some Pending).
Proof.
  intros Hc Hm. unfold call.
  change (6 + k) with (S (S (S (S (S (S k)))))).
  assert (H0 : step (Invoke c (OpEnqueue f)) s =
               Some (set_cpc (upd (cpc s) c (EnqCheckWorkers f)) s, []))
    by (unfold step; now rewrite Hc).
  rewrite H0. clear H0.
  destruct (Nat.eqb (length (workers s)) 0) eqn:Hw.
  - (* line 35 *)
    advance. rewrite finish_idle by (cbn; now rewrite upd_same).
    eexists _, _. split; [reflexivity|]. cbn. rewrite upd_same.
    apply Nat.eqb_eq in Hw.
    assert (Ht : threw c [EvThrow c "enqueue called on empty ThreadPool"])
      by (eexists; left; reflexivity).
    refine (conj eq_refl (conj _ (conj _ _))).
    + split; auto.
    + auto.
    + intros Hn. now destruct Hn.
  - advance. advance. advance.
    destruct (stop s) eqn:Hs.
    + (* line 47 *)
      advance. rewrite finish_idle by (cbn; now rewrite upd_same).
      eexists _, _. split; [reflexivity|]. cbn. rewrite upd_same.
      match goal with
      | |- context [threw c ?l] => assert (Ht : threw c l)
      end.
      { eexists. cbn. eauto. }
      refine (conj eq_refl (conj _ (conj _ _))).
      * split; auto.
      * auto.
      * intros Hn. now destruct Hn.
    + (* lines 49-55 *)
      advance. advance.
      match goal with
      | |- context [finish (S k) c ?s5] =>
          destruct (notify_one_total 0 s5) as [s6 H6];
          assert (Hstep : step (Step (Caller c) 0) s5 =
                          Some (set_cpc (upd (cpc s6) c Idle) s6, [EvFuture c (length (store s))]))
      end.
      { run_stmt. reflexivity. }
      erewrite finish_step; [ | cbn; rewrite ?upd_same; discriminate | exact Hstep ].
      rewrite finish_idle by (cbn; now rewrite upd_same).
      apply notify_one_spec in H6. destruct H6 as [_ H6].
      assert (Ht : tasks s6 = tasks s ++ [Packaged (length (store s)) f])
        by (destruct H6 as [->|(w & _ & ->)]; reflexivity).
      assert (Hst : nth_error (store s6) (length (store s)) = Some Pending).
      { replace (store s6) with (store s ++ [Pending])
          by (destruct H6 as [->|(w & _ & ->)]; reflexivity).
        rewrite nth_error_app2, Nat.sub_diag by lia. reflexivity. }
      eexists _, _. split; [reflexivity|]. cbn. rewrite upd_same.
      match goal with
      | |- context [threw c ?l] => assert (Hno : ~ threw c l)
      end.
      { intros [what Hin]. cbn in Hin. intuition discriminate. }
      refine (conj eq_refl (conj _ (conj _ _))).
      * apply Nat.eqb_neq in Hw.
        split; [intros Ht'; now destruct Hno | intros [?|?]; congruence].
      * intros Ht'. now destruct Hno.
      * intros _. split; [exact Ht|]. split; [auto 10|exact Hst].
Qed.

Lemma enqueue_fails_iff_empty_or_stopped_witness :
  cpc (construct 1) 0 = Idle /\
  queue_mutex (construct 1) = None /\
  exists s' ev,
    call 6 0 (OpEnqueue (Returns 7)) (construct 1) = Some (s', ev) /\
    cpc s' 0 = Idle /\
    (threw 0 ev <-> length (workers (construct 1)) = 0 \/ stop (construct 1) = true) /\
    (threw 0 ev -> tasks s' = tasks (construct 1)) /\
    (~ threw 0 ev ->
       tasks s' = tasks (construct 1) ++ [Packaged (length (store (construct 1))) (Returns 7)] /\
       In (EvFuture 0 (length (store (construct 1)))) ev /\
       nth_error (store s') (length (store (construct 1))) = Some Pending).
Proof.
  split; [reflexivity|]. split; [reflexivity|].
  apply (enqueue_fails_iff_empty_or_stopped (construct 1) 0 (Returns 7) 0); reflexivity.
Defined.

(** * clear *)

(** C10: [clear] returns after one statement and leaves [workers], [stop],
    the mutex and every worker thread exactly as they were. *)
Theorem clear_touches_only_the_queue s c k :
  cpc s c = Idle ->
  exists s' ev,
    call (1 + k) c OpClear s = Some (s', ev) /\
    cpc s' c = Idle /\
    workers s' = workers s /\
    stop s' = stop s /\
    wpc s' = wpc s /\
    spawned s' = spawned s /\
    queue_mutex s' = queue_mutex s /\
    (forall c', c' <> c -> cpc s' c' = cpc s c').
Proof.
  intros Hc. unfold call. change (1 + k) with (S k).
  assert (H0 : step (Invoke c OpClear) s = Some (set_cpc (upd (cpc s) c ClrSwap) s, []))
    by (unfold step; now rewrite Hc).
  rewrite H0. clear H0. advance.
  rewrite finish_idle by (cbn; now rewrite upd_same).
  eexists _, _. split; [reflexivity|]. cbn. rewrite upd_same.
  repeat split. intros c' Hne. now rewrite !upd_other.
Qed.

Lemma clear_touches_only_the_queue_witness :
  cpc (construct 2) 0 = Idle /\
  exists s' ev,
    call 1 0 OpClear (construct 2) = Some (s', ev) /\
    cpc s' 0 = Idle /\
    workers s' = workers (construct 2) /\
    stop s' = stop (construct 2) /\
    wpc s' = wpc (construct 2) /\
    spawned s' = spawned (construct 2) /\
    queue_mutex s' = queue_mutex (construct 2) /\
    (forall c', c' <> 0 -> cpc s' c' = cpc (construct 2) c').
Proof.
  split; [reflexivity|].
  apply (clear_touches_only_the_queue (construct 2) 0 0). reflexivity.
Defined.

(** * The consume-loop *)

Lemma nth_error_set_nth_same {A} (l : list A) i v x :
  nth_error l i = Some x -> nth_error (set_nth i v l) i = Some v.
Proof.
  revert i. induction l as [|y l IH]; intros [|i]; simpl; try discriminate; auto.
Qed.

Lemma nth_error_set_nth_other {A} (l : list A) i j v :
  i <> j -> nth_error (set_nth i v l) j = nth_error l j.
Proof.
  revert i j. induction l as [|y l IH]; intros [|i] [|j] H; simpl; auto; try congruence.
Qed.

Lemma length_set_nth {A} (l : list A) i v : length (set_nth i v l) = length l.
Proof. revert i. induction l as [|y l IH]; intros [|i]; simpl; auto. Qed.

(** The statements of the loop, one by one. *)
Lemma worker_lock_step s w pick :
  wpc s w = WLock \/ wpc s w = WWoken ->
  queue_mutex s = None ->
  step (Step (Worker w) pick) s =
  Some (set_wpc (upd (wpc s) w WPred) (set_mutex (Some (Worker w)) s), []).
Proof. intros [H|H] Hm; run_stmt; reflexivity. Qed.

Lemma worker_pred_step s w pick t q :
  wpc s w = WPred ->
  tasks s = t :: q ->
  step (Step (Worker w) pick) s =
  Some (set_wpc (upd (wpc s) w WExitCheck) s,
        [EvAccess (Worker w) VStop Rd (holds (Worker w) s);
         EvAccess (Worker w) VTasks Rd (holds (Worker w) s)]).
Proof. intros H Hq. run_stmt. rewrite orb_true_r. reflexivity. Qed.

Lemma worker_exit_check_step s w pick t q :
  wpc s w = WExitCheck ->
  tasks s = t :: q ->
  step (Step (Worker w) pick) s =
  Some (set_wpc (upd (wpc s) w WFront) s,
        [EvAccess (Worker w) VStop Rd (holds (Worker w) s);
         EvAccess (Worker w) VTasks Rd (holds (Worker w) s)]).
Proof. intros H Hq. run_stmt. rewrite andb_false_r. reflexivity. Qed.

Lemma worker_pop_step s w pick t q :
  wpc s w = WFront ->
  tasks s = t :: q ->
  step (Step (Worker w) pick) s =
  Some (set_wpc (upd (wpc s) w (WPopped t)) (set_tasks q s),
        [EvAccess (Worker w) VTasks Wr (holds (Worker w) s); EvPop w t]).
Proof. intros H Hq. run_stmt. reflexivity. Qed.

Lemma worker_unlock_step s w pick t :
  wpc s w = WPopped t ->
  step (Step (Worker w) pick) s =
  Some (set_wpc (upd (wpc s) w (WInvoke t)) (set_mutex None s), []).
Proof. intros H. run_stmt. reflexivity. Qed.

Lemma worker_invoke_step s w pick h f :
  wpc s w = WInvoke (Packaged h f) ->
  nth_error (store s) h = Some Pending ->
  step (Step (Worker w) pick) s =
  Some (set_wpc (upd (wpc s) w WLock) (set_store (set_nth h (Ready f) (store s)) s), []).
Proof. intros Hw Hp. run_stmt. reflexivity. Qed.

(** C3 as stated fails: with [stop] set by the destructor and the worker
    woken, the task that was still queued is popped, run, and its future
    made ready. *)
Lemma queued_task_runs_after_shutdown_began :
  stop shutdown_begun = true /\
  cpc shutdown_begun 1 = DtorJoin 0 /\
  tasks shutdown_begun = [Packaged 0 (Returns 7)] /\
  nth_error (store shutdown_begun) 0 = Some Pending /\
  In (EvPop 0 (Packaged 0 (Returns 7))) (trace drain_sched shutdown_begun) /\
  wpc (after drain_sched shutdown_begun) 0 = WLock /\
  nth_error (store (after drain_sched shutdown_begun)) 0 = Some (Ready (Returns 7)).
Proof. vm_compute. intuition. Qed.

(** C3, amended: a worker that reaches line 76 with [stop] set returns only
    if [tasks] is empty, and then does not touch the queue; if a task is
    queued its next three statements pop the front task and release the
    lock, and the call that follows makes the future of a packaged task
    ready. *)
Theorem worker_exits_only_when_queue_empty s w pick :
  wpc s w = WExitCheck ->
  stop s = true ->
  (forall s' ev, step (Step (Worker w) pick) s = Some (s', ev) ->
     wpc s' w = WReturned -> tasks s = []) /\
  (tasks s = [] ->
     exists s' ev, step (Step (Worker w) pick) s = Some (s', ev) /\
       wpc s' w = WReturned /\ tasks s' = [] /\ store s' = store s) /\
  (forall t q, tasks s = t :: q ->
     exists s' ev,
       run (repeat (Step (Worker w) pick) 3) s = Some (s', ev) /\
       wpc s' w = WInvoke t /\ tasks s' = q /\ In (EvPop w t) ev /\
       forall h f, t = Packaged h f -> nth_error (store s) h = Some Pending ->
         exists s'' ev', step (Step (Worker w) pick) s' = Some (s'', ev') /\
           wpc s'' w = WLock /\
           nth_error (store s'') h = Some (Ready f)).
Proof.
  intros Hw Hs. split; [|split].
  - intros s' ev H Hr. destruct (tasks s) as [|t q] eqn:Hq; [reflexivity|].
    rewrite (worker_exit_check_step s w pick t q Hw Hq) in H. injection H as <- <-.
    cbn in Hr. rewrite upd_same in Hr. discriminate.
  - intros Hq. eexists _, _. split; [run_stmt; reflexivity|].
    cbn. rewrite upd_same. auto.
  - intros t q Hq. cbn [run repeat].
    rewrite (worker_exit_check_step s w pick t q Hw Hq).
    erewrite worker_pop_step; [|cbn; now rewrite upd_same|exact Hq].
    erewrite worker_unlock_step; [|cbn; now rewrite upd_same].
    eexists _, _. split; [reflexivity|]. cbn. rewrite upd_same.
    repeat split; auto 10.
    intros h f -> Hp.
    eexists _, _. split; [run_stmt; reflexivity|].
    cbn. rewrite upd_same. split; auto.
    eapply nth_error_set_nth_same; eauto.
Qed.

Lemma worker_exits_only_when_queue_empty_witness :
  wpc (after (repeat (Step (Worker 0) 0) 2) shutdown_begun) 0 = WExitCheck /\
  stop (after (repeat (Step (Worker 0) 0) 2) shutdown_begun) = true /\
  exists s' ev,
    run (repeat (Step (Worker 0) 0) 3)
        (after (repeat (Step (Worker 0) 0) 2) shutdown_begun) = Some (s', ev) /\
    wpc s' 0 = WInvoke (Packaged 0 (Returns 7)) /\ tasks s' = [] /\
    In (EvPop 0 (Packaged 0 (Returns 7))) ev.
Proof.
  split; [reflexivity|]. split; [reflexivity|].
  destruct (worker_exits_only_when_queue_empty
              (after (repeat (Step (Worker 0) 0) 2) shutdown_begun) 0 0
              eq_refl eq_refl) as (_ & _ & H).
  destruct (H (Packaged 0 (Returns 7)) [] eq_refl) as (s' & ev & H1 & H2 & H3 & H4 & _).
  exists s', ev. auto.
Defined.

(** C8: the call of line 83 always brings the worker back to the top of
    the loop and leaves [stop], [tasks], [workers], the mutex and all other
    threads as they were.  When the call ends with an exception, the
    matching handler of lines 84-90 prints its diagnostic and nothing else
    changes.  When the callable of a packaged task throws, the packaged task
    has stored the exception in the future and the call returns normally.
    Either way the worker goes on to pop and call the next queued task. *)
Theorem worker_survives_task_failure s w t pick :
  wpc s w = WInvoke t ->
  exists s',
    step (Step (Worker w) pick) s = Some (s', []) /\
    wpc s' w = WLock /\
    stop s' = stop s /\ tasks s' = tasks s /\ workers s' = workers s /\
    queue_mutex s' = queue_mutex s /\ cpc s' = cpc s /\
    (forall w', w' <> w -> wpc s' w' = wpc s w') /\
    (forall e, raises t s = Some e ->
       cerr s' = cerr s ++ [diagnostic e] /\ store s' = store s) /\
    (forall h e, t = Packaged h (Throws e) -> nth_error (store s) h = Some Pending ->
       raises t s = None /\ cerr s' = cerr s /\
       nth_error (store s') h = Some (Ready (Throws e))) /\
    (forall t' q, queue_mutex s = None -> tasks s = t' :: q ->
       exists s'' ev,
         run (repeat (Step (Worker w) pick) 5) s' = Some (s'', ev) /\
         wpc s'' w = WInvoke t' /\ tasks s'' = q /\ In (EvPop w t') ev).
Proof.
  intros Hw.
  assert (Hstep : exists st ce,
            step (Step (Worker w) pick) s =
              Some (set_wpc (upd (wpc s) w WLock) (set_cerr ce (set_store st s)), []) /\
            (forall e, raises t s = Some e -> ce = cerr s ++ [diagnostic e] /\ st = store s) /\
            (forall h e, t = Packaged h (Throws e) -> nth_error (store s) h = Some Pending ->
               raises t s = None /\ ce = cerr s /\
               nth_error st h = Some (Ready (Throws e)))).
  { unfold raises, step. autounfold with stmt. cbn. rewrite Hw.
    destruct t as [h f|[[what|]|]]; cbn.
    - destruct (nth_error (store s) h) as [[| |]|] eqn:En; cbn;
        eexists _, _; (split; [reflexivity|]); split;
        try (intros e [= <-]; auto); try discriminate;
        intros h' e' [= <- ->]; rewrite En; try discriminate.
      intros _. repeat split. eapply nth_error_set_nth_same; eauto.
    - eexists _, _; (split; [reflexivity|]); split; [intros e [= <-]; auto|discriminate].
    - eexists _, _; (split; [reflexivity|]); split; [intros e [= <-]; auto|discriminate].
    - eexists _, _; (split; [reflexivity|]); split; discriminate. }
  destruct Hstep as (st & ce & Hstep & Hraise & Hpack).
  eexists. split; [exact Hstep|]. cbn. rewrite upd_same.
  split; [reflexivity|]. do 5 (split; [reflexivity|]).
  split; [intros w' Hne; now rewrite upd_other|].
  split; [exact Hraise|]. split; [exact Hpack|].
  intros t' q Hm Hq. cbn [repeat run].
  rewrite worker_lock_step by (cbn; rewrite ?upd_same; auto).
  erewrite worker_pred_step by (cbn; rewrite ?upd_same; eauto).
  erewrite worker_exit_check_step by (cbn; rewrite ?upd_same; eauto).
  erewrite worker_pop_step by (cbn; rewrite ?upd_same; eauto).
  erewrite worker_unlock_step by (cbn; rewrite ?upd_same; eauto).
  eexists _, _. split; [reflexivity|]. cbn. rewrite upd_same.
  repeat split; auto 10.
Qed.

Lemma worker_survives_task_failure_witness :
  wpc (after (enqueue_sched (Throws (StdException "boom")) ++ repeat (Step (Worker 0) 0) 5)
         (construct 1)) 0 = WInvoke (Packaged 0 (Throws (StdException "boom"))) /\
  exists s',
    step (Step (Worker 0) 0)
      (after (enqueue_sched (Throws (StdException "boom")) ++ repeat (Step (Worker 0) 0) 5)
         (construct 1)) = Some (s', []) /\
    wpc s' 0 = WLock /\
    cerr s' = [] /\
    nth_error (store s') 0 = Some (Ready (Throws (StdException "boom"))).
Proof.
  assert (H : wpc (after (enqueue_sched (Throws (StdException "boom"))
                          ++ repeat (Step (Worker 0) 0) 5) (construct 1)) 0 =
              WInvoke (Packaged 0 (Throws (StdException "boom"))))
    by (vm_compute; reflexivity).
  split; [exact H|].
  destruct (worker_survives_task_failure _ 0 _ 0 H)
    as (s' & H1 & H2 & _ & _ & _ & _ & _ & _ & _ & H3 & _).
  destruct (H3 0 (StdException "boom") eq_refl) as (_ & H4 & H5);
    [vm_compute; reflexivity|].
  exists s'. split; [exact H1|]. split; [exact H2|]. split; [|exact H5].
  rewrite H4. vm_compute. reflexivity.
Defined.

(** The two handlers, on a worker that is about to call a plain callable
    that throws. *)
Example handlers_print_diagnostics :
  let about_to_call r := set_wpc (upd (wpc (construct 1)) 0 (WInvoke (Plain (Some r))))
                           (construct 1) in
  cerr (after [Step (Worker 0) 0] (about_to_call (StdException "boom"))) =
    ["Caught exception in thread pool task: boom"] /\
  cerr (after [Step (Worker 0) 0] (about_to_call NonStdException)) =
    ["Caught non-standard exception in thread pool task"] /\
  wpc (after [Step (Worker 0) 0] (about_to_call NonStdException)) 0 = WLock.
Proof. vm_compute. auto. Qed.

(** A batch of three tasks whose second one throws: one worker pops and
    calls all three, and every future is made ready. *)
Example failing_task_in_a_batch :
  let enq f := Invoke 0 (OpEnqueue f) :: repeat (Step (Caller 0) 0) 6 in
  let s := after (enq (Returns 1) ++ enq (Throws (StdException "boom")) ++ enq (Returns 3)
                  ++ repeat (Step (Worker 0) 0) 18) (construct 1) in
  tasks s = [] /\
  store s = [Ready (Returns 1); Ready (Throws (StdException "boom")); Ready (Returns 3)] /\
  wpc s 0 = WLock.
Proof. vm_compute. auto. Qed.

(** C9: a worker that is calling a task does not own the mutex; the only
    statement that leads to the call is the unlock at the end of the block
    of lines 71-81, executed after the pop, which itself happens with the
    mutex owned; and the call is never blocked by the mutex. *)
Theorem task_is_invoked_without_the_lock threads sched s ev w :
  run sched (construct threads) = Some (s, ev) ->
  (forall t, wpc s w = WInvoke t ->
     holds (Worker w) s = false /\
     forall pick, exists s' ev', step (Step (Worker w) pick) s = Some (s', ev')) /\
  (forall pick s' ev' t,
     step (Step (Worker w) pick) s = Some (s', ev') ->
     wpc s' w = WInvoke t ->
     wpc s w = WPopped t /\ holds (Worker w) s = true /\ queue_mutex s' = None) /\
  (forall pick s' ev' t,
     step (Step (Worker w) pick) s = Some (s', ev') ->
     wpc s' w = WPopped t ->
     wpc s w = WFront /\ tasks s = t :: tasks s' /\
     holds (Worker w) s = true /\ holds (Worker w) s' = true).
Proof.
  intros Hrun. pose proof (mutex_ok_run _ _ _ _ Hrun (Worker w)) as Hm. cbn in Hm.
  assert (Hholds : w_locked (wpc s w) = true -> holds (Worker w) s = true).
  { intros H. apply Hm in H. unfold holds. rewrite H. apply tid_eqb_refl. }
  split; [|split].
  - intros t Ht. split.
    + unfold holds. destruct (queue_mutex s) as [o|] eqn:E; auto.
      destruct (tid_eqb o (Worker w)) eqn:Eo; auto.
      apply tid_eqb_eq in Eo. subst o. rewrite Ht in Hm. cbn in Hm.
      destruct Hm as [Hm _]. discriminate (Hm eq_refl).
    + intros pick. unfold step. autounfold with stmt. cbn. rewrite Ht.
      destruct t as [h f|[[what|]|]]; cbn; eauto.
      destruct (nth_error (store s) h) as [[| |]|]; cbn; eauto.
  - intros pick s' ev' t H Hs'. step_inv H; cbn in Hs'; rewrite upd_same in Hs';
      try discriminate.
    injection Hs' as <-. repeat split; auto; apply Hholds; now rewrite E.
  - intros pick s' ev' t H Hs'. step_inv H; cbn in Hs'; rewrite upd_same in Hs';
      try discriminate.
    all: injection Hs' as <-; cbn; repeat split; auto.
    all: try (apply Hholds; now rewrite E).
    all: unfold holds; cbn; rewrite (proj2 Hm) by (now rewrite E); apply tid_eqb_refl.
Qed.

Lemma task_is_invoked_without_the_lock_witness :
  run (shutdown_sched ++ repeat (Step (Worker 0) 0) 5) (construct 1) =
    Some (after (shutdown_sched ++ repeat (Step (Worker 0) 0) 5) (construct 1),
          trace (shutdown_sched ++ repeat (Step (Worker 0) 0) 5) (construct 1)) /\
  wpc (after (shutdown_sched ++ repeat (Step (Worker 0) 0) 5) (construct 1)) 0 =
    WInvoke (Packaged 0 (Returns 7)) /\
  holds (Worker 0) (after (shutdown_sched ++ repeat (Step (Worker 0) 0) 5) (construct 1)) = false.
Proof.
  assert (H : run (shutdown_sched ++ repeat (Step (Worker 0) 0) 5) (construct 1) =
    Some (after (shutdown_sched ++ repeat (Step (Worker 0) 0) 5) (construct 1),
          trace (shutdown_sched ++ repeat (Step (Worker 0) 0) 5) (construct 1)))
    by (vm_compute; reflexivity).
  split; [exact H|].
  assert (H' : wpc (after (shutdown_sched ++ repeat (Step (Worker 0) 0) 5) (construct 1)) 0 =
    WInvoke (Packaged 0 (Returns 7))) by (vm_compute; reflexivity).
  split; [exact H'|].
  exact (proj1 (proj1 (task_is_invoked_without_the_lock 1
                  (shutdown_sched ++ repeat (Step (Worker 0) 0) 5) _ _ 0 H)
               (Packaged 0 (Returns 7)) H')).
Defined.

(** * The lock discipline *)

Lemma holds_true_iff t s : holds t s = true <-> queue_mutex s = Some t.
Proof.
  unfold holds. destruct (queue_mutex s) as [o|]; split; intros H; try discriminate.
  - apply tid_eqb_eq in H. now subst.
  - injection H as ->. apply tid_eqb_refl.
Qed.

Lemma holds_in_region s t : mutex_ok s -> holds t s = in_locked_region t s.
Proof.
  intros Hm. destruct (in_locked_region t s) eqn:E.
  - apply holds_true_iff. now apply Hm.
  - destruct (holds t s) eqn:Eh; auto.
    apply holds_true_iff in Eh. apply Hm in Eh. congruence.
Qed.

Lemma locked_unique s t1 t2 :
  mutex_ok s -> in_locked_region t1 s = true -> in_locked_region t2 s = true -> t1 = t2.
Proof.
  intros Hm H1 H2. apply Hm in H1, H2. congruence.
Qed.

(** Every use of [stop] and [tasks] along a run is made by a thread that
    owns the mutex, except two: the swap in [clear] and the write of line 97
    in the destructor, which are made by a thread that does not. *)
Lemma access_discipline threads sched s ev a s' ev' t x m b :
  run sched (construct threads) = Some (s, ev) ->
  step a s = Some (s', ev') ->
  In (EvAccess t x m b) ev' ->
  (b = true /\ in_locked_region t s = true) \/
  (b = false /\ exists c, t = Caller c /\
     ((cpc s c = ClrSwap /\ x = VTasks /\ m = Wr) \/
      (cpc s c = DtorSetStop /\ x = VStop /\ m = Wr))).
Proof.
  intros Hrun H Hin. pose proof (mutex_ok_run _ _ _ _ Hrun) as Hm.
  destruct a as [c o|[w|c] pick|w]; step_inv H; cbn in Hin;
    try contradiction.
  all: repeat match goal with
       | H : _ \/ _ |- _ => destruct H
       | H : False |- _ => destruct H
       | H : EvAccess _ _ _ _ = EvAccess _ _ _ _ |- _ => injection H as <- <- <- <-
       | H : _ = EvAccess _ _ _ _ |- _ => discriminate H
       end.
  all: rewrite (holds_in_region _ _ Hm); cbn; rewrite_pcs; cbn; clear Hm Hrun.
  all: try (left; split; reflexivity).
  all: right; split; [reflexivity|]; eexists; split; [reflexivity|]; auto.
Qed.

(** C4: in every state of a run, the swap of [clear] (line 62) and the
    write [stop = true] of the destructor (line 97) are executed, and are
    executed by a thread that does not own [queue_mutex]; every other use
    of [stop] or [tasks], by [enqueue], [resize] or a worker, is made by the
    owner of the mutex. *)
Theorem clear_and_destructor_bypass_the_lock threads sched s ev c pick :
  run sched (construct threads) = Some (s, ev) ->
  (cpc s c = ClrSwap ->
     exists s' ev', step (Step (Caller c) pick) s = Some (s', ev') /\
       tasks s' = [] /\ In (EvAccess (Caller c) VTasks Wr false) ev') /\
  (cpc s c = DtorSetStop ->
     exists s' ev', step (Step (Caller c) pick) s = Some (s', ev') /\
       stop s' = true /\ In (EvAccess (Caller c) VStop Wr false) ev') /\
  (forall a s' ev' t x m b,
     step a s = Some (s', ev') -> In (EvAccess t x m b) ev' ->
     b = true \/
     exists c', t = Caller c' /\ (cpc s c' = ClrSwap \/ cpc s c' = DtorSetStop)).
Proof.
  intros Hrun. pose proof (mutex_ok_run _ _ _ _ Hrun) as Hm.
  pose proof (holds_in_region s (Caller c) Hm) as Hh. cbn in Hh.
  split; [|split].
  - intros Hc; rewrite Hc in Hh; cbn in Hh;
      eexists _, _; (split; [run_stmt; reflexivity|]); cbn; auto.
  - intros Hc; rewrite Hc in Hh; cbn in Hh;
      eexists _, _; (split; [run_stmt; reflexivity|]); cbn; auto.
  - intros a s' ev' t x m b H Hin.
    destruct (access_discipline _ _ _ _ _ _ _ _ _ _ _ Hrun H Hin)
      as [[-> _]|[_ (c' & -> & [(Hc' & _)|(Hc' & _)])]]; eauto.
Qed.

Lemma clear_and_destructor_bypass_the_lock_witness :
  run [Invoke 0 OpClear] (construct 1) =
    Some (after [Invoke 0 OpClear] (construct 1), []) /\
  cpc (after [Invoke 0 OpClear] (construct 1)) 0 = ClrSwap /\
  exists s' ev', step (Step (Caller 0) 0) (after [Invoke 0 OpClear] (construct 1)) = Some (s', ev') /\
       tasks s' = [] /\ In (EvAccess (Caller 0) VTasks Wr false) ev'.
Proof.
  assert (H : run [Invoke 0 OpClear] (construct 1) =
              Some (after [Invoke 0 OpClear] (construct 1), []))
    by (vm_compute; reflexivity).
  split; [exact H|]. split; [reflexivity|].
  exact (proj1 (clear_and_destructor_bypass_the_lock 1 [Invoke 0 OpClear] _ _ 0 0 H)
               eq_refl).
Defined.

(** What the two unlocked accesses can lead to.  A [clear] between the
    test of line 76 and line 79 empties the queue under the worker, which
    then calls [front] on an empty queue. *)
Example clear_races_with_pop :
  run clear_race_sched (construct 1) =
    Some (after clear_race_sched (construct 1), trace clear_race_sched (construct 1)) /\
  wpc (after clear_race_sched (construct 1)) 0 = WUndefined.
Proof. vm_compute. auto. Qed.

(** A destructor that sets [stop] and notifies between the worker's
    evaluation of the wait predicate and its blocking wakes nobody: the
    worker then waits with [stop] set, and the [join] of line 102 waits for
    the worker. *)
Example destructor_loses_wakeup :
  let s := after lost_wakeup_sched (construct 1) in
  run lost_wakeup_sched (construct 1) = Some (s, trace lost_wakeup_sched (construct 1)) /\
  stop s = true /\ wpc s 0 = WWaiting /\ cpc s 0 = DtorJoin 0 /\
  step (Step (Worker 0) 0) s = None /\
  step (Step (Caller 0) 0) s = None.
Proof. vm_compute. auto 10. Qed.

(** * resize *)

(** C5: while [resize] is in the join loop of lines 121-126 it owns
    [queue_mutex]; a worker that has to take the mutex (at the top of the
    loop or when leaving [wait]) cannot move, and the join of a worker that
    has not returned cannot move either. *)
Theorem resize_joins_with_the_lock_held threads sched s ev c n j :
  run sched (construct threads) = Some (s, ev) ->
  cpc s c = RszJoin n j ->
  holds (Caller c) s = true /\
  (forall w pick, wpc s w = WLock \/ wpc s w = WWoken ->
     step (Step (Worker w) pick) s = None) /\
  (forall w pick, nth_error (workers s) j = Some (Some w) -> wpc s w <> WReturned ->
     step (Step (Caller c) pick) s = None).
Proof.
  intros Hrun Hc. pose proof (mutex_ok_run _ _ _ _ Hrun) as Hm.
  assert (Hq : queue_mutex s = Some (Caller c)) by (apply Hm; cbn; now rewrite Hc).
  split; [now apply holds_true_iff|]. split.
  - intros w pick [H|H]; run_stmt; reflexivity.
  - intros w pick Hw Hr. unfold step. autounfold with stmt. cbn. rewrite Hc, Hw. cbn.
    destruct (wpc s w); try reflexivity. now destruct Hr.
Qed.

Lemma resize_joins_with_the_lock_held_witness :
  run shrink_sched (construct 2) = Some (shrink_joining, trace shrink_sched (construct 2)) /\
  cpc shrink_joining 0 = RszJoin 1 1 /\
  holds (Caller 0) shrink_joining = true /\
  step (Step (Worker 1) 0) shrink_joining = None /\
  step (Step (Caller 0) 0) shrink_joining = None.
Proof.
  assert (H : run shrink_sched (construct 2) =
              Some (shrink_joining, trace shrink_sched (construct 2)))
    by (vm_compute; reflexivity).
  split; [exact H|]. split; [reflexivity|].
  destruct (resize_joins_with_the_lock_held 2 shrink_sched _ _ 0 1 1 H eq_refl)
    as (H1 & H2 & H3).
  split; [exact H1|]. split.
  - apply H2. left. reflexivity.
  - apply (H3 1). + reflexivity. + discriminate.
Defined.

(** ** Runs without the destructor *)

Lemma alive_construct threads : alive (construct threads).
Proof.
  constructor.
  - apply mutex_ok_construct.
  - reflexivity.
  - discriminate.
  - intros w H.
    change (wpc (construct threads) w)
      with (if Nat.ltb w threads then WLock else WNotStarted) in H.
    destruct (Nat.ltb w threads); discriminate H.
  - intros c. exact I.
  - intros i H. unfold construct in H. cbn in H.
    apply nth_error_In in H. apply in_map_iff in H.
    destruct H as (x & Hx & _). discriminate.
Qed.

(** Instantiate a fact about all callers (workers) at the one whose
    position is known. *)
Ltac at_caller H :=
  match goal with
  | E : cpc _ ?c = _ |- _ =>
      let X := fresh "X" in pose proof (H c) as X; rewrite E in X; cbn in X
  end.

Ltac at_worker H :=
  match goal with
  | E : wpc _ ?w = _ |- _ =>
      let X := fresh "X" in pose proof (H w) as X; rewrite E in X; cbn in X
  end.

Lemma alive_step_no_dtor a s s' ev :
  (forall c, in_destructor (cpc s c) = false) ->
  is_destroy a = false ->
  step a s = Some (s', ev) ->
  forall c, in_destructor (cpc s' c) = false.
Proof.
  intros Hd Ha H c0. destruct a as [c o|[w|c] pick|w].
  - step_inv H; cbn in *; upd_cases; try apply Hd.
    destruct o; try reflexivity; discriminate Ha.
  - step_inv H; cbn; apply Hd.
  - step_inv H; cbn.
    all: upd_cases; cbn; try reflexivity; try apply Hd.
    all: at_caller Hd; discriminate.
  - step_inv H; cbn; apply Hd.
Qed.

Lemma alive_step_stop a s s' ev :
  alive s ->
  is_destroy a = false ->
  step a s = Some (s', ev) ->
  stop s' = true -> exists c, in_stop_window (cpc s' c) = true.
Proof.
  intros [Hm Hd Hs _ _ _] Ha H Hs'.
  assert (Hs2 : stop s = false \/ exists c, in_stop_window (cpc s c) = true)
    by (destruct (stop s); auto).
  clear Hs.
  destruct a as [c o|[w|c] pick|w]; step_inv H; cbn in Hs'.
  all: try discriminate Hs'.
  all: try (at_caller Hd; discriminate).
  all: try (exists c; cbn; rewrite upd_same; reflexivity).
  all: destruct Hs2 as [Hf|[c0 Hc0]]; [congruence|].
  all: exists c0; cbn; auto.
  all: upd_cases; auto; rewrite_pcs; cbn in *; try discriminate.
Qed.

Lemma stop_window_locked p : in_stop_window p = true -> c_locked p = true.
Proof. destruct p; simpl; auto. Qed.

Lemma alive_step_running a s s' ev :
  alive s ->
  is_destroy a = false ->
  step a s = Some (s', ev) ->
  forall w, wpc s' w <> WReturned.
Proof.
  intros [Hm Hd Hs Hr _ _] Ha H w0 Hw0.
  destruct a as [c o|[w|c] pick|w]; step_inv H; cbn in Hw0.
  all: try (at_caller Hd; discriminate).
  all: try (eapply Hr; eassumption).
  all: upd_cases; try discriminate; try (eapply Hr; eassumption).
  all: rewrite ?andb_true_r, ?andb_false_r in *; try discriminate.
  all: match goal with
       | E : stop ?s = true, Ew : wpc ?s ?w = WExitCheck |- _ =>
           destruct (Hs E) as [c0 Hc0]; apply stop_window_locked in Hc0;
           assert (X : Worker w = Caller c0)
             by (apply (locked_unique s);
                 [exact Hm | cbn; rewrite Ew; reflexivity | exact Hc0]);
           discriminate X
       end.
Qed.

Lemma resize_shape_locked p ws : c_locked p = false -> resize_shape p ws.
Proof. destruct p; simpl; auto; discriminate. Qed.

(** Two callers cannot both be between a lock and its unlock. *)
Ltac two_lockers Hm :=
  match goal with
  | E1 : cpc ?s ?c1 = _, E2 : cpc ?s ?c2 = _, Hne : ?c2 <> ?c1 |- _ =>
      assert (Caller c1 = Caller c2)
        by (apply (locked_unique s);
            [exact Hm | cbn; rewrite E1; reflexivity | cbn; rewrite E2; reflexivity]);
      congruence
  end.

Ltac arith :=
  repeat match goal with
  | H : Nat.leb _ _ = true |- _ => apply Nat.leb_le in H
  | H : Nat.leb _ _ = false |- _ => apply Nat.leb_gt in H
  | H : Nat.ltb _ _ = true |- _ => apply Nat.ltb_lt in H
  | H : Nat.ltb _ _ = false |- _ => apply Nat.ltb_ge in H
  | H : Nat.eqb _ _ = true |- _ => apply Nat.eqb_eq in H
  | H : Nat.eqb _ _ = false |- _ => apply Nat.eqb_neq in H
  | H : _ /\ _ |- _ => destruct H
  end.

(** A non-joinable slot of [workers] means a [resize] is growing the
    vector; that caller owns the mutex. *)
Lemma spawning_from_locked p i : spawning_from p i -> c_locked p = true.
Proof. destruct p; simpl; auto; contradiction. Qed.

Lemma spawner_is_owner s c i p :
  mutex_ok s ->
  (forall i, nth_error (workers s) i = Some None -> exists c, spawning_from (cpc s c) i) ->
  nth_error (workers s) i = Some None ->
  cpc s c = p -> c_locked p = true ->
  spawning_from p i.
Proof.
  intros Hm Hj Hi Hc Hl. destruct (Hj i Hi) as [c1 H1].
  assert (Caller c1 = Caller c).
  { apply (locked_unique s); auto; cbn.
    - eapply spawning_from_locked; eauto.
    - now rewrite Hc. }
  congruence.
Qed.

Lemma alive_step_shape a s s' ev :
  alive s ->
  is_destroy a = false ->
  step a s = Some (s', ev) ->
  forall c, resize_shape (cpc s' c) (workers s').
Proof.
  intros [Hm Hd Hs Hr Hsh Hj] Ha H c0.
  destruct a as [c o|[w|c] pick|w]; step_inv H; cbn.
  all: try apply Hsh.
  all: try (at_caller Hd; discriminate).
  all: try (at_worker Hr; congruence).
  all: upd_cases; cbn; try apply Hsh; auto.
  all: try (at_caller Hsh; cbn in *; intuition (try lia; try congruence); fail).
  - destruct o; exact I.
  - arith. lia.
  - arith. lia.
  - exfalso. eapply (spawner_is_owner s c j) in E0; eauto. exact E0.
  - at_caller Hsh. destruct X as [-> X]. apply nth_error_None in E0. lia.
  - at_caller Hsh. rewrite length_app, repeat_length. lia.
  - destruct (cpc s c0) eqn:Ec0; cbn; auto; two_lockers Hm.
  - at_caller Hsh. rewrite length_set_nth. arith. lia.
  - destruct (cpc s c0) eqn:Ec0; cbn; auto; two_lockers Hm.
Qed.

Lemma alive_step_joinable a s s' ev :
  alive s ->
  is_destroy a = false ->
  step a s = Some (s', ev) ->
  forall i, nth_error (workers s') i = Some None ->
            exists c, spawning_from (cpc s' c) i.
Proof.
  intros [Hm Hd Hs Hr Hsh Hj] Ha H i0 Hi0.
  destruct a as [c o|[w|c] pick|w]; step_inv H; cbn in Hi0 |- *.
  all: try (apply Hj; assumption).
  all: try (at_caller Hd; discriminate).
  all: try (at_worker Hr; congruence).
  all: try (destruct (Hj i0 Hi0) as [c1 Hc1]; exists c1; upd_cases; auto;
            rewrite_pcs; cbn in Hc1; contradiction).
  all: clear Hd Hs Hr Ha.
  - at_caller Hsh. contradiction.
  - at_caller Hsh. destruct X as [-> X].
    destruct (Nat.lt_ge_cases i0 (length (workers s))) as [Hlt|Hge].
    + rewrite nth_error_app1 in Hi0 by assumption.
      exfalso. exact (spawner_is_owner s c i0 _ Hm Hj Hi0 E eq_refl).
    + exists c. rewrite upd_same. exact Hge.
  - pose proof (spawner_is_owner s c i0 _ Hm Hj Hi0 E eq_refl) as X. cbn in X.
    assert (i0 < length (workers s)) by (apply nth_error_Some; congruence). lia.
  - arith. destruct (Nat.eq_dec i i0) as [->|Hne].
    + destruct (nth_error (workers s) i0) eqn:En.
      * erewrite nth_error_set_nth_same in Hi0 by eassumption. discriminate.
      * apply nth_error_None in En. lia.
    + rewrite nth_error_set_nth_other in Hi0 by assumption.
      pose proof (spawner_is_owner s c i0 _ Hm Hj Hi0 E eq_refl) as X. cbn in X.
      exists c. rewrite upd_same. cbn. lia.
  - arith.
    pose proof (spawner_is_owner s c i0 _ Hm Hj Hi0 E eq_refl) as X. cbn in X.
    assert (i0 < length (workers s)) by (apply nth_error_Some; congruence). lia.
Qed.

Lemma alive_step a s s' ev :
  alive s -> is_destroy a = false -> step a s = Some (s', ev) -> alive s'.
Proof.
  intros Hal Ha H. constructor.
  - eapply mutex_ok_step; [apply Hal | exact H].
  - eapply alive_step_no_dtor; [apply Hal | exact Ha | exact H].
  - eapply alive_step_stop; eauto.
  - eapply alive_step_running; eauto.
  - eapply alive_step_shape; eauto.
  - eapply alive_step_joinable; eauto.
Qed.

(** The [return] of line 129 needs a caller at line 128. *)
Lemma return_129_needs_erase a s s' ev c :
  step a s = Some (s', ev) -> In (EvReturn c 129) ev -> exists n, cpc s c = RszErase n.
Proof.
  intros H Hin.
  destruct a as [c0 o|[w|c0] pick|w]; step_inv H; cbn in Hin;
    repeat match goal with
    | H : _ \/ _ |- _ => destruct H
    | H : False |- _ => destruct H
    | H : _ = EvReturn _ _ |- _ => try discriminate H; injection H as ->
    end.
  eauto.
Qed.

Lemma alive_step_length a s s' ev :
  alive s -> step a s = Some (s', ev) -> length (workers s) <= length (workers s').
Proof.
  intros Hal H. pose proof (alive_shape _ Hal) as Hsh.
  destruct a as [c o|[w|c] pick|w]; step_inv H; cbn; auto.
  all: rewrite ?length_set_nth, ?length_app; try lia.
  at_caller Hsh. contradiction.
Qed.

Lemma alive_run sched s s' ev :
  alive s -> no_destroy sched -> run sched s = Some (s', ev) ->
  alive s' /\ (forall c, ~ In (EvReturn c 129) ev) /\
  length (workers s) <= length (workers s').
Proof.
  revert s s' ev. induction sched as [|a rest IH]; cbn [run]; intros s s' ev Hal Hnd H.
  - injection H as <- <-. auto.
  - unfold no_destroy in Hnd. cbn in Hnd. apply andb_true_iff in Hnd.
    destruct Hnd as [Ha Hnd]. apply negb_true_iff in Ha.
    destruct (step a s) as [[s1 e1]|] eqn:E; try discriminate.
    destruct (run rest s1) as [[s2 e2]|] eqn:R; try discriminate.
    injection H as <- <-.
    pose proof (alive_step _ _ _ _ Hal Ha E) as Hal1.
    destruct (IH _ _ _ Hal1 Hnd R) as (Hal2 & Hev & Hlen).
    split; [exact Hal2|]. split.
    + intros c Hin. apply in_app_or in Hin. destruct Hin as [Hin|Hin].
      * destruct (return_129_needs_erase _ _ _ _ _ E Hin) as [n Hn].
        pose proof (alive_shape _ Hal c) as X. rewrite Hn in X. exact X.
      * exact (Hev c Hin).
    + pose proof (alive_step_length _ _ _ _ Hal E). lia.
Qed.


(** C7: in a run that does not destroy the pool, the shrinking branch of
    [resize] never reaches its [return] of line 129: [workers] never gets
    shorter, and a caller in the join loop of lines 121-126 is still at its
    first [join], which cannot move. *)
Theorem shrinking_resize_never_returns threads sched s ev :
  no_destroy sched ->
  run sched (construct threads) = Some (s, ev) ->
  (forall c, ~ In (EvReturn c 129) ev) /\
  threads <= length (workers s) /\
  (forall c n j, cpc s c = RszJoin n j ->
     j = n /\ n < length (workers s) /\
     forall pick, step (Step (Caller c) pick) s = None).
Proof.
  intros Hnd Hrun.
  destruct (alive_run _ _ _ _ (alive_construct threads) Hnd Hrun) as (Hal & Hev & Hlen).
  split; [exact Hev|]. split.
  - unfold construct in Hlen. cbn in Hlen. now rewrite length_map, length_seq in Hlen.
  - intros c n j Hc. pose proof (alive_shape _ Hal c) as X. rewrite Hc in X.
    destruct X as [-> Hn]. split; [reflexivity|]. split; [exact Hn|].
    intros pick. unfold step. autounfold with stmt. cbn. rewrite Hc.
    destruct (nth_error (workers s) n) as [[w|]|] eqn:En; cbn.
    + pose proof (alive_running _ Hal w) as Hw.
      destruct (wpc s w); try reflexivity. now destruct Hw.
    + exfalso.
      exact (spawner_is_owner s c n _ (alive_mutex _ Hal) (alive_joinable _ Hal) En Hc eq_refl).
    + apply nth_error_None in En. lia.
Qed.

Lemma shrinking_resize_never_returns_witness :
  no_destroy shrink_sched /\
  run shrink_sched (construct 2) = Some (shrink_joining, trace shrink_sched (construct 2)) /\
  2 <= length (workers shrink_joining) /\
  step (Step (Caller 0) 0) shrink_joining = None.
Proof.
  assert (H : run shrink_sched (construct 2) =
              Some (shrink_joining, trace shrink_sched (construct 2)))
    by (vm_compute; reflexivity).
  split; [reflexivity|]. split; [exact H|].
  destruct (shrinking_resize_never_returns 2 shrink_sched _ _ eq_refl H) as (_ & H1 & H2).
  split; [exact H1|].
  exact (proj2 (proj2 (H2 0 1 1 eq_refl)) 0).
Defined.

(** ** A resize that does not shrink *)

Ltac stmt_eq H :=
  unfold step; autounfold with stmt; cbv beta iota; rewrite H; cbv beta iota.

Lemma resize_branch_step s c n pick :
  cpc s c = RszBranch n ->
  step (Step (Caller c) pick) s =
  Some (set_cpc (upd (cpc s) c
                   (if Nat.ltb n (length (workers s)) then RszSetStop n (length (workers s))
                    else if Nat.ltb (length (workers s)) n then RszGrow n (length (workers s))
                    else RszReturn n)) s, []).
Proof.
  intros H. stmt_eq H.
  destruct (Nat.ltb n (length (workers s))); [reflexivity|].
  destruct (Nat.ltb (length (workers s)) n); reflexivity.
Qed.

Lemma resize_spawn_step s c n i pick :
  cpc s c = RszSpawn n i ->
  step (Step (Caller c) pick) s =
  Some (if Nat.ltb i (length (workers s)) then
          set_cpc (upd (cpc s) c (RszSpawn n (S i)))
            (set_workers (set_nth i (Some (spawned s)) (workers s))
               (set_wpc (upd (wpc s) (spawned s) WLock)
                  (set_spawned (S (spawned s)) s)))
        else set_cpc (upd (cpc s) c (RszReturn n)) s, []).
Proof.
  intros H. stmt_eq H.
  destruct (Nat.ltb i (length (workers s))); reflexivity.
Qed.

(** X1: [resize] to the current size takes and releases the mutex and changes
    nothing else: [workers], the queue, [stop] and every worker thread are
    as they were. *)
Lemma resize_to_same_size s c k :
  cpc s c = Idle ->
  queue_mutex s = None ->
  exists s' ev,
    call (3 + k) c (OpResize (length (workers s))) s = Some (s', ev) /\
    cpc s' c = Idle /\ workers s' = workers s /\ tasks s' = tasks s /\
    stop s' = stop s /\ wpc s' = wpc s /\ spawned s' = spawned s /\
    queue_mutex s' = None.
Proof.
  intros Hc Hm. unfold call. change (3 + k) with (S (S (S k))).
  assert (H0 : step (Invoke c (OpResize (length (workers s)))) s =
               Some (set_cpc (upd (cpc s) c (RszLock (length (workers s)))) s, []))
    by (unfold step; now rewrite Hc).
  rewrite H0. clear H0. advance.
  erewrite finish_step;
    [ | cbn; rewrite ?upd_same; discriminate
      | apply resize_branch_step; cbn; now rewrite upd_same ].
  cbn [workers set_cpc set_mutex]. rewrite Nat.ltb_irrefl.
  advance. rewrite finish_idle by (cbn; now rewrite upd_same).
  eexists _, _. split; [reflexivity|]. cbn. rewrite upd_same. auto 10.
Qed.

(** The loop of lines 135-159, from slot [i] on, followed by the return. *)
Lemma spawn_loop m :
  forall s c n i k,
    cpc s c = RszSpawn n i ->
    length (workers s) = n ->
    i + m = n ->
    exists s' ev,
      finish (m + 2 + k) c s = Some (s', ev) /\
      cpc s' c = Idle /\
      length (workers s') = n /\
      (forall j, j < i -> nth_error (workers s') j = nth_error (workers s) j) /\
      (forall j, i <= j < n ->
         nth_error (workers s') j = Some (Some (spawned s + (j - i))) /\
         wpc s' (spawned s + (j - i)) = WLock) /\
      (forall w, w < spawned s -> wpc s' w = wpc s w) /\
      spawned s' = spawned s + m /\
      tasks s' = tasks s /\ stop s' = stop s /\ queue_mutex s' = None.
Proof.
  induction m as [|m IH]; intros s c n i k Hc Hlen Him.
  - assert (Hlt : Nat.ltb i (length (workers s)) = false) by (apply Nat.ltb_ge; lia).
    change (0 + 2 + k) with (S (S k)).
    erewrite finish_step;
      [ | rewrite Hc; discriminate | apply resize_spawn_step; exact Hc ].
    rewrite Hlt.
    advance. rewrite finish_idle by (cbn; now rewrite !upd_same).
    eexists _, _. split; [reflexivity|]. cbn. rewrite !upd_same.
    repeat split; auto; intros; lia.
  - assert (Hlt : Nat.ltb i (length (workers s)) = true) by (apply Nat.ltb_lt; lia).
    change (S m + 2 + k) with (S (m + 2 + k)).
    set (s1 := set_cpc (upd (cpc s) c (RszSpawn n (S i)))
                 (set_workers (set_nth i (Some (spawned s)) (workers s))
                    (set_wpc (upd (wpc s) (spawned s) WLock)
                       (set_spawned (S (spawned s)) s)))).
    assert (H1 : step (Step (Caller c) 0) s = Some (s1, [])).
    { rewrite (resize_spawn_step _ _ _ _ _ Hc), Hlt. reflexivity. }
    erewrite finish_step; [ | rewrite Hc; discriminate | exact H1 ].
    destruct (IH s1 c n (S i) k) as (s' & ev & Hf & Hidle & Hl & Hold & Hnew & Hw & Hsp & Ht & Hs & Hmx).
    { subst s1. cbn. now rewrite upd_same. }
    { subst s1. cbn. now rewrite length_set_nth. }
    { lia. }
    rewrite Hf. eexists _, _. split; [reflexivity|].
    split; [exact Hidle|]. split; [exact Hl|].
    assert (Hs1 : spawned s1 = S (spawned s)) by reflexivity.
    split; [|split; [|split; [|split]]].
    + intros j Hj. rewrite Hold by lia. subst s1. cbn.
      apply nth_error_set_nth_other. lia.
    + intros j Hj. destruct (Nat.eq_dec j i) as [->|Hne].
      * rewrite Nat.sub_diag, Nat.add_0_r. split.
        -- rewrite Hold by lia. subst s1. cbn.
           destruct (nth_error (workers s) i) eqn:En.
           ++ eapply nth_error_set_nth_same; eauto.
           ++ apply nth_error_None in En. lia.
        -- rewrite Hw by lia. subst s1. cbn. apply upd_same.
      * destruct (Hnew j) as [Ha Hb]; [lia|]. rewrite Hs1 in Ha, Hb.
        replace (spawned s + (j - i)) with (S (spawned s) + (j - S i)) by lia. auto.
    + intros w Hlt'. rewrite Hw by lia. subst s1. cbn. apply upd_other. lia.
    + rewrite Hsp, Hs1. lia.
    + subst s1. cbn in Ht, Hs. auto.
Qed.

(** [resize] to a larger size appends that many new worker threads, each at
    the top of the consume-loop, and leaves the old workers, the queue and
    [stop] alone.  The step relation puts no bound on the size of the vector
    or on the number of threads: this is the run in which line 134 and every
    thread creation of line 137 succeed. *)
Lemma resize_grows s c n k :
  cpc s c = Idle ->
  queue_mutex s = None ->
  length (workers s) < n ->
  exists s' ev,
    call (n - length (workers s) + 5 + k) c (OpResize n) s = Some (s', ev) /\
    cpc s' c = Idle /\
    length (workers s') = n /\
    (forall j, j < length (workers s) -> nth_error (workers s') j = nth_error (workers s) j) /\
    (forall j, length (workers s) <= j < n ->
       nth_error (workers s') j = Some (Some (spawned s + (j - length (workers s)))) /\
       wpc s' (spawned s + (j - length (workers s))) = WLock) /\
    (forall w, w < spawned s -> wpc s' w = wpc s w) /\
    tasks s' = tasks s /\ stop s' = stop s /\ queue_mutex s' = None.
Proof.
  intros Hc Hm Hlt. unfold call.
  replace (n - length (workers s) + 5 + k)
    with (S (S (S (n - length (workers s) + 2 + k)))) by lia.
  assert (H0 : step (Invoke c (OpResize n)) s =
               Some (set_cpc (upd (cpc s) c (RszLock n)) s, []))
    by (unfold step; now rewrite Hc).
  rewrite H0. clear H0. advance.
  assert (Hl1 : Nat.ltb n (length (workers s)) = false) by (apply Nat.ltb_ge; lia).
  assert (Hl2 : Nat.ltb (length (workers s)) n = true) by (apply Nat.ltb_lt; lia).
  erewrite finish_step;
    [ | cbn; rewrite ?upd_same; discriminate
      | apply resize_branch_step; cbn; now rewrite upd_same ].
  cbn [workers set_cpc set_mutex]. rewrite Hl1, Hl2.
  advance.
  match goal with
  | |- context [finish _ c ?s3] =>
      destruct (spawn_loop (n - length (workers s)) s3 c n (length (workers s)) k)
        as (s' & ev & Hf & Hidle & Hl & Hold & Hnew & Hw & Hsp & Ht & Hs & Hmx)
  end.
  { cbn. now rewrite upd_same. }
  { cbn. rewrite length_app, repeat_length. lia. }
  { lia. }
  rewrite Hf. eexists _, _. split; [reflexivity|].
  split; [exact Hidle|]. split; [exact Hl|].
  split; [|split; [|split]].
  - intros j Hj. rewrite Hold by lia. cbn. now apply nth_error_app1.
  - intros j Hj. apply (Hnew j Hj).
  - intros w Hw'. now rewrite Hw.
  - cbn in Ht, Hs. auto.
Qed.

Example grow_then_count :
  let s := after (Invoke 0 (OpResize 3) :: repeat (Step (Caller 0) 0) 7) (construct 1) in
  workers s = [Some 0; Some 1; Some 2] /\ cpc s 0 = Idle /\
  wpc s 1 = WLock /\ wpc s 2 = WLock /\ queue_mutex s = None.
Proof. vm_compute. auto. Qed.

(** [ThreadPool pool(2); pool.resize(1);]: the caller never gets past the
    first [join], however long it is given. *)
Example shrink_blocks : call 100 0 (OpResize 1) (construct 2) = None.
Proof. vm_compute. reflexivity. Qed.

(** * Ownership of the queued tasks *)

Lemma handles_app q1 q2 : handles (q1 ++ q2) = handles q1 ++ handles q2.
Proof. unfold handles. apply flat_map_app. Qed.

Lemma in_handles h q : In h (handles q) <-> exists f, In (Packaged h f) q.
Proof.
  unfold handles. rewrite in_flat_map. split.
  - intros ([h' f|r] & Hin & Hh); cbn in Hh; try contradiction.
    destruct Hh as [->|[]]. eauto.
  - intros (f & Hin). exists (Packaged h f). cbn. auto.
Qed.

Lemma construct_wpc threads w :
  wpc (construct threads) w = WLock \/ wpc (construct threads) w = WNotStarted.
Proof. unfold construct. cbn [wpc]. destruct (Nat.ltb w threads); auto. Qed.

Lemma owned_ok_construct threads : owned_ok (construct threads).
Proof.
  assert (Hw : forall w, w_task (wpc (construct threads) w) = None)
    by (intros w; destruct (construct_wpc threads w) as [-> | ->]; reflexivity).
  assert (Hh : forall w, w_handle (wpc (construct threads) w) = None)
    by (intros w; unfold w_handle; now rewrite Hw).
  constructor; intros *; rewrite ?Hw, ?Hh; try discriminate;
    try contradiction.
  constructor.
Qed.

(** A statement that moves no task and touches no shared state keeps the
    ownership facts; a thread may forget the task it held. *)
Lemma owned_ok_frame s s' :
  owned_ok s ->
  tasks s' = tasks s ->
  store s' = store s ->
  (forall w, w_task (wpc s' w) = w_task (wpc s w) \/ w_task (wpc s' w) = None) ->
  (forall c, c_handle (cpc s' c) = c_handle (cpc s c) \/ c_handle (cpc s' c) = None) ->
  owned_ok s'.
Proof.
  intros [] Ht Hst Hw Hc.
  assert (Hw' : forall w h, w_handle (wpc s' w) = Some h -> w_handle (wpc s w) = Some h).
  { intros w h. unfold w_handle. destruct (Hw w) as [-> | ->]; auto. discriminate. }
  assert (Hc' : forall c h, c_handle (cpc s' c) = Some h -> c_handle (cpc s c) = Some h).
  { intros c h. destruct (Hc c) as [-> | ->]; auto. discriminate. }
  constructor; intros *; rewrite ?Ht, ?Hst; eauto.
  intros H. destruct (Hw w) as [Hx|Hx]; rewrite Hx in H; eauto. discriminate.
Qed.

Ltac frame_tac Hown :=
  apply (owned_ok_frame _ _ Hown); cbn; try reflexivity;
  intros ?; upd_cases; cbn; auto;
  repeat match goal with
  | |- context [is_waiting ?x] => destruct x eqn:?; cbn
  | |- context [entry ?o] => destruct o; cbn
  end; auto; rewrite_pcs; cbn; auto.

Ltac own_intro Hown :=
  destruct Hown as [Hp Hwp Hnd Hqp Hwpe Hcp Hwq Hcq Hww Hcc Hwc];
  constructor; cbn; intros *.

#[local] Arguments handles : simpl never.

Ltac own_easy := try solve [upd_cases; try congruence; eauto].

(** A worker gives up the task it holds and overwrites its shared state
    (the call of line 83). *)
Lemma owned_ok_worker_done s w h v p :
  owned_ok s ->
  w_handle (wpc s w) = Some h ->
  w_task p = None ->
  owned_ok (set_wpc (upd (wpc s) w p) (set_store (set_nth h v (store s)) s)).
Proof.
  intros Hown Hh Hp'.
  assert (Hp'' : w_handle p = None) by (unfold w_handle; now rewrite Hp').
  own_intro Hown; own_easy.
  - intros Hin. rewrite nth_error_set_nth_other; auto.
    intros ->. eapply Hwq; eauto.
  - upd_cases; try congruence. intros H.
    rewrite nth_error_set_nth_other; eauto.
    intros ->. apply n. eapply Hww; eauto.
  - intros H. rewrite nth_error_set_nth_other; eauto.
    intros ->. eapply Hwc; eauto.
Qed.

(** A caller gives up the packaged task it holds and overwrites its shared
    state (the unwinding after line 47). *)
Lemma owned_ok_caller_done s c h v p :
  owned_ok s ->
  c_handle (cpc s c) = Some h ->
  c_handle p = None ->
  owned_ok (set_cpc (upd (cpc s) c p) (set_store (set_nth h v (store s)) s)).
Proof.
  intros Hown Hh Hp'.
  own_intro Hown; own_easy.
  - intros Hin. rewrite nth_error_set_nth_other; auto.
    intros ->. eapply Hcq; eauto.
  - intros H. rewrite nth_error_set_nth_other; eauto.
    intros ->. eapply Hwc; eauto.
  - upd_cases; try congruence. intros H.
    rewrite nth_error_set_nth_other; eauto.
    intros ->. apply n. eapply Hcc; eauto.
Qed.

Lemma pending_allocated s h : nth_error (store s) h = Some Pending -> h < length (store s).
Proof. intros H. apply nth_error_Some. congruence. Qed.

Lemma nth_error_snoc_old {A} (l : list A) x i v :
  nth_error l i = Some v -> nth_error (l ++ [x]) i = Some v.
Proof.
  intros H. rewrite nth_error_app1; auto. apply nth_error_Some. congruence.
Qed.

(** Lines 40-42: a caller that holds nothing creates a packaged task. *)
Lemma owned_ok_alloc s c f :
  owned_ok s ->
  c_handle (cpc s c) = None ->
  owned_ok (set_cpc (upd (cpc s) c (EnqLock (length (store s)) f))
              (set_store (store s ++ [Pending]) s)).
Proof.
  intros Hown Hc.
  assert (Hnew : nth_error (store s ++ [Pending]) (length (store s)) = Some Pending)
    by (rewrite nth_error_app2, Nat.sub_diag by lia; reflexivity).
  assert (Hfresh : forall h, nth_error (store s) h = Some Pending -> h <> length (store s))
    by (intros h H%pending_allocated; lia).
  own_intro Hown; own_easy.
  - intros H. apply nth_error_snoc_old; auto.
  - intros H. apply nth_error_snoc_old; eauto.
  - upd_cases; cbn.
    + intros H. injection H as <-. exact Hnew.
    + intros H. apply nth_error_snoc_old; eauto.
  - upd_cases; cbn; eauto.
    intros H Hin. injection H as <-. eapply Hfresh; eauto.
  - upd_cases; cbn; eauto.
    + intros H H'. injection H as <-. exfalso. eapply Hfresh; eauto.
    + intros H H'. injection H' as <-. exfalso. eapply Hfresh; eauto.
  - upd_cases; cbn; eauto.
    intros H H'. injection H' as <-. eapply Hfresh; eauto.
Qed.

(** Lines 49-51: the caller moves its packaged task to the back of the
    queue. *)
Lemma owned_ok_push s c h f p :
  owned_ok s ->
  cpc s c = EnqLocked h f ->
  c_handle p = None ->
  owned_ok (set_cpc (upd (cpc s) c p) (set_tasks (tasks s ++ [Packaged h f]) s)).
Proof.
  intros Hown Hc Hp'.
  assert (Hh : c_handle (cpc s c) = Some h) by (now rewrite Hc).
  own_intro Hown; rewrite ?handles_app, ?in_app_iff; cbn; own_easy.
  - intros [H|[<-|[]]]; eauto.
  - apply NoDup_app; [exact Hnd | repeat constructor; intros [] |].
    intros x Hx [<-|[]]. eapply Hcq; eauto.
  - intros [H|[<-|[]]]; eauto.
  - intros H Hx. destruct Hx as [Hin|[<-|[]]];
      [eapply Hwq; eauto | eapply Hwc; eauto].
  - upd_cases; try congruence. intros H Hx. destruct Hx as [Hin|[<-|[]]];
      [eapply Hcq; eauto | apply n; eapply Hcc; eauto].
Qed.

(** Lines 79-80: the worker moves the front task out of the queue. *)
Lemma owned_ok_pop s w t q :
  owned_ok s ->
  tasks s = t :: q ->
  w_task (wpc s w) = None ->
  owned_ok (set_wpc (upd (wpc s) w (WPopped t)) (set_tasks q s)).
Proof.
  intros Hown Hq Hw.
  assert (Hw' : w_handle (wpc s w) = None) by (unfold w_handle; now rewrite Hw).
  destruct (own_packaged _ Hown t) as (h & f & ->); [rewrite Hq; now left|].
  assert (Hhs : handles (tasks s) = h :: handles q) by (now rewrite Hq).
  pose proof (own_nodup _ Hown) as Hnd'. rewrite Hhs in Hnd'.
  apply NoDup_cons_iff in Hnd'. destruct Hnd' as [Hnotin Hnd'].
  assert (Hin : forall x, In x (handles q) -> In x (handles (tasks s)))
    by (intros x Hx; rewrite Hhs; now right).
  assert (Hh : In h (handles (tasks s))) by (rewrite Hhs; now left).
  assert (Hsub : forall x, In x q -> In x (tasks s))
    by (intros x Hx; rewrite Hq; now right).
  own_intro Hown; own_easy.
  - upd_cases; cbn; eauto. intros H. injection H as <-. eauto.
  - upd_cases; cbn; eauto. intros H. injection H as <-. eauto.
  - upd_cases; cbn.
    + intros H. injection H as <-. exact Hnotin.
    + intros H Hx. eapply Hwq; eauto.
  - intros H Hx. eapply Hcq; eauto.
  - upd_cases; cbn; eauto.
    + intros H H'. injection H as <-. exfalso. eapply Hwq; eauto.
    + intros H H'. injection H' as <-. exfalso. eapply Hwq; eauto.
  - upd_cases; cbn; eauto.
    intros H H'. injection H as <-. eapply Hcq; eauto.
Qed.

Lemma length_abandon q st : length (fold_right abandon1 st q) = length st.
Proof.
  induction q as [|[h f|r] q IH]; cbn; auto.
  destruct (nth_error _ h) as [[| |]|]; auto. now rewrite length_set_nth.
Qed.

Lemma handles_packaged h f q : handles (Packaged h f :: q) = h :: handles q.
Proof. reflexivity. Qed.

Lemma handles_plain r q : handles (Plain r :: q) = handles q.
Proof. reflexivity. Qed.

(** Destroying tasks leaves the shared states of all other futures alone. *)
Lemma abandon_other q st h :
  ~ In h (handles q) -> nth_error (fold_right abandon1 st q) h = nth_error st h.
Proof.
  induction q as [|[h' f|r] q IH]; cbn; auto.
  rewrite handles_packaged. intros Hn.
  assert (h' <> h /\ ~ In h (handles q)) as [Hne Hn'] by (cbn in Hn; tauto).
  destruct (nth_error _ h') as [[| |]|]; auto.
  rewrite nth_error_set_nth_other; auto.
Qed.

(** ... and turns the pending ones among the destroyed into [Abandoned]. *)
Lemma abandon_pending q st h :
  In h (handles q) -> nth_error st h = Some Pending ->
  nth_error (fold_right abandon1 st q) h = Some Abandoned.
Proof.
  induction q as [|[h' f|r] q IH]; cbn; auto; try contradiction.
  rewrite handles_packaged. intros Hin Hp.
  destruct (Nat.eq_dec h' h) as [->|Hne].
  - destruct (in_dec Nat.eq_dec h (handles q)) as [Hin'|Hn].
    + pose proof (IH Hin' Hp) as X. rewrite X. exact X.
    + rewrite (abandon_other _ _ _ Hn), Hp.
      eapply nth_error_set_nth_same. rewrite abandon_other; eauto.
  - assert (X : nth_error (fold_right abandon1 st q) h = Some Abandoned)
      by (apply IH; auto; destruct Hin; congruence).
    destruct (nth_error _ h') as [[| |]|]; try exact X.
    rewrite nth_error_set_nth_other; auto.
Qed.

(** Lines 61-63 (and the destruction of [tasks] at the end of the
    destructor): the whole queue is destroyed. *)
Lemma owned_ok_clear s c p :
  owned_ok s ->
  c_handle (cpc s c) = None ->
  c_handle p = None ->
  owned_ok (set_cpc (upd (cpc s) c p)
              (set_store (fold_right abandon1 (store s) (tasks s)) (set_tasks [] s))).
Proof.
  intros Hown Hc Hp'.
  own_intro Hown; try contradiction; own_easy.
  - constructor.
  - intros H. rewrite abandon_other; eauto.
  - upd_cases; try congruence. intros H. rewrite abandon_other; eauto.
Qed.

Lemma owned_ok_set_mutex s o : owned_ok s -> owned_ok (set_mutex o s).
Proof. intros H. apply (owned_ok_frame _ _ H); auto. Qed.

Lemma owned_ok_step a s s' ev : owned_ok s -> step a s = Some (s', ev) -> owned_ok s'.
Proof.
  intros Hown H.
  destruct a as [c o|[w|c] pick|w]; step_inv H.
  all: try solve [frame_tac Hown].
  - apply owned_ok_pop; auto. now rewrite E.
  - apply owned_ok_worker_done; auto. unfold w_handle. now rewrite E.
  - apply owned_ok_alloc; auto. now rewrite E.
  - apply (owned_ok_caller_done (set_mutex None s)); auto.
    + now apply owned_ok_set_mutex.
    + cbn. now rewrite E.
  - eapply owned_ok_push; eauto.
  - apply owned_ok_clear; auto. now rewrite E.
  - apply owned_ok_clear; auto. now rewrite E.
Qed.

Lemma owned_ok_run threads sched s ev :
  run sched (construct threads) = Some (s, ev) -> owned_ok s.
Proof.
  apply (run_invariant owned_ok).
  - intros; eapply owned_ok_step; eauto.
  - apply owned_ok_construct.
Qed.

(** ** Futures nobody holds any more *)

Lemma dropped_frame h v s s' :
  dropped h v s ->
  tasks s' = tasks s ->
  store s' = store s ->
  (forall w, w_task (wpc s' w) = w_task (wpc s w) \/ w_task (wpc s' w) = None) ->
  (forall c, c_handle (cpc s' c) = c_handle (cpc s c) \/ c_handle (cpc s' c) = None) ->
  dropped h v s'.
Proof.
  intros [Hs Hq Hdw Hdc] Ht Hst Hw Hc. constructor; rewrite ?Ht, ?Hst; auto.
  - intros w. unfold w_handle. destruct (Hw w) as [-> | ->]; [apply Hdw|discriminate].
  - intros c. destruct (Hc c) as [-> | ->]; [apply Hdc|discriminate].
Qed.

Ltac dropped_frame_tac Hd :=
  apply (dropped_frame _ _ _ _ Hd); cbn; try reflexivity;
  intros ?; upd_cases; cbn; auto;
  repeat match goal with
  | |- context [is_waiting ?x] => destruct x eqn:?; cbn
  | |- context [entry ?o] => destruct o; cbn
  end; auto; rewrite_pcs; cbn; auto.

Lemma dropped_allocated h v s : dropped h v s -> h < length (store s).
Proof. intros []. apply nth_error_Some. congruence. Qed.

Lemma in_handles_cons h t q : In h (handles q) -> In h (handles (t :: q)).
Proof. destruct t; [rewrite handles_packaged; now right | now rewrite handles_plain]. Qed.

Lemma dropped_step a s s' ev h v :
  dropped h v s -> step a s = Some (s', ev) -> dropped h v s'.
Proof.
  intros Hd H. pose proof (dropped_allocated _ _ _ Hd) as Hlt.
  destruct a as [c o|[w|c] pick|w]; step_inv H.
  all: try solve [dropped_frame_tac Hd].
  all: destruct Hd as [Hst Hq Hw Hc]; constructor; cbn; auto.
  all: try (at_worker Hw); try (at_caller Hc).
  all: try solve [intros x; upd_cases; cbn; auto; try discriminate; congruence].
  - intros Hin. apply Hq.
    match goal with E : tasks s = _ :: _ |- _ => rewrite E end.
    now apply in_handles_cons.
  - intros x; upd_cases; cbn; auto.
    match goal with E : tasks s = ?t :: _ |- _ =>
      destruct t as [h' f'|r]; cbn; try discriminate;
      intros [= ->]; apply Hq; rewrite E
    end.
    rewrite handles_packaged. now left.
  - rewrite nth_error_set_nth_other; auto; unfold w_handle in X; cbn in X; congruence.
  - now apply nth_error_snoc_old.
  - intros x; upd_cases; cbn; auto. intros [= Hx]. lia.
  - rewrite nth_error_set_nth_other; auto; congruence.
  - rewrite handles_app, in_app_iff. intros [Hin|[Hx|[]]]; auto; congruence.
  - rewrite abandon_other; auto.
  - rewrite abandon_other; auto.
Qed.

Lemma dropped_run sched s s' ev h v :
  dropped h v s -> run sched s = Some (s', ev) -> dropped h v s'.
Proof.
  intros Hd. revert Hd. apply (run_invariant (dropped h v)).
  intros; eapply dropped_step; eauto.
Qed.

(** A pop event comes from the front of the queue; a push event goes to its
    back. *)
Lemma pop_takes_front a s s' ev w t :
  step a s = Some (s', ev) -> In (EvPop w t) ev ->
  tasks s = t :: tasks s' /\
  forall w' t', In (EvPop w' t') ev -> w' = w /\ t' = t.
Proof.
  intros H Hin.
  destruct a as [c o|[w0|c] pick|w0]; step_inv H; cbn in Hin |- *;
    repeat match goal with
    | H : _ \/ _ |- _ => destruct H
    | H : False |- _ => destruct H
    | H : _ = EvPop _ _ |- _ => try discriminate H; injection H as -> ->
    end.
  all: split; [congruence|].
  all: intros w' t' Hin'; repeat destruct Hin' as [Hin'|Hin']; try discriminate;
    try contradiction; injection Hin' as -> ->; auto.
Qed.

Lemma push_appends_back a s s' ev c t :
  step a s = Some (s', ev) -> In (EvPush c t) ev ->
  tasks s' = tasks s ++ [t] /\ forall w t', ~ In (EvPop w t') ev.
Proof.
  intros H Hin.
  destruct a as [c0 o|[w0|c0] pick|w0]; step_inv H; cbn in Hin |- *;
    repeat match goal with
    | H : _ \/ _ |- _ => destruct H
    | H : False |- _ => destruct H
    | H : _ = EvPush _ _ |- _ => try discriminate H; injection H as -> ->
    end.
  split; auto. intros w t' Hx. repeat destruct Hx as [Hx|Hx]; try discriminate; auto.
Qed.

Lemma pop_or_not a s s' ev :
  step a s = Some (s', ev) ->
  (exists w t, In (EvPop w t) ev) \/ (forall w t, ~ In (EvPop w t) ev).
Proof.
  intros H.
  destruct a as [c0 o|[w0|c0] pick|w0]; step_inv H; cbn.
  all: try (left; eauto 10; fail).
  all: right; intros w' t' Hx; repeat destruct Hx as [Hx|Hx]; try discriminate; auto.
Qed.

(** Destroying the whole queue drops every future that was in it. *)
Lemma clear_drops s c p h :
  owned_ok s ->
  In h (handles (tasks s)) ->
  c_handle p = None ->
  dropped h Abandoned
    (set_cpc (upd (cpc s) c p)
       (set_store (fold_right abandon1 (store s) (tasks s)) (set_tasks [] s))).
Proof.
  intros Hown Hin Hp. constructor; cbn.
  - apply abandon_pending; auto. now apply (own_q_pending _ Hown).
  - intros [].
  - intros w Hw. now apply (own_w_q _ Hown w h).
  - intros c0. upd_cases; [congruence|]. intros Hc0. now apply (own_c_q _ Hown c0 h).
Qed.

(** Without a pop event the queue keeps its contents and may grow at the
    back, or is destroyed as a whole. *)
Lemma no_pop_queue a s s' ev :
  owned_ok s ->
  step a s = Some (s', ev) ->
  (forall w t, ~ In (EvPop w t) ev) ->
  (exists l, tasks s' = tasks s ++ l) \/
  (forall h, In h (handles (tasks s)) -> dropped h Abandoned s').
Proof.
  intros Hown H Hno.
  destruct a as [c0 o|[w0|c0] pick|w0]; step_inv H; cbn in Hno |- *.
  all: try (left; exists []; rewrite app_nil_r; congruence).
  all: try (left; eexists; reflexivity).
  all: try (exfalso; eapply Hno; eauto 10; fail).
  all: right; intros h Hin; apply clear_drops; auto.
Qed.

Lemma dropped_no_pop sched s s' ev h v :
  dropped h v s -> run sched s = Some (s', ev) ->
  forall w f, ~ In (EvPop w (Packaged h f)) ev.
Proof.
  revert s s' ev. induction sched as [|a rest IH]; cbn [run]; intros s s' ev Hd H w f Hin.
  - injection H as <- <-. destruct Hin.
  - destruct (step a s) as [[s1 e1]|] eqn:E; try discriminate.
    destruct (run rest s1) as [[s2 e2]|] eqn:R; try discriminate.
    injection H as <- <-. apply in_app_or in Hin. destruct Hin as [Hin|Hin].
    + destruct (pop_takes_front _ _ _ _ _ _ E Hin) as [Hq _].
      apply (drop_q _ _ _ Hd). rewrite Hq, handles_packaged. now left.
    + eapply (IH s1); [eapply dropped_step; eauto | exact R | exact Hin].
Qed.

(** * clear discards the queue *)




(** The same scenario, evaluated: after [clear] the two futures are
    abandoned and the worker, run for as long as it can move, goes to sleep
    in [wait] without having called anything. *)
Example cleared_tasks_never_run :
  let s := after (two_queued_sched ++ [Invoke 1 OpClear; Step (Caller 1) 0]
                  ++ repeat (Step (Worker 0) 0) 3) (construct 1) in
  tasks s = [] /\ store s = [Abandoned; Abandoned] /\ wpc s 0 = WWaiting /\
  step (Step (Worker 0) 0) s = None.
Proof. vm_compute. auto. Qed.

(** * FIFO *)

Lemma before_app_r {A} (x y : A) l l' : before x y l -> before x y (l ++ l').
Proof.
  intros (l1 & l2 & l3 & ->). exists l1, l2, (l3 ++ l').
  repeat (rewrite <- app_assoc; cbn). reflexivity.
Qed.

Lemma before_app_l {A} (x y : A) l l' : before x y l -> before x y (l' ++ l).
Proof.
  intros (l1 & l2 & l3 & ->). exists (l' ++ l1), l2, l3. now rewrite <- app_assoc.
Qed.

Lemma before_split {A} (x y : A) l l' : In x l -> In y l' -> before x y (l ++ l').
Proof.
  intros Hx Hy. apply in_split in Hx, Hy.
  destruct Hx as (a & b & ->). destruct Hy as (c & d & ->).
  exists a, (b ++ c), d. repeat (rewrite <- app_assoc; cbn). reflexivity.
Qed.

(** In a queue of packaged tasks with distinct futures, a task that comes
    after another one is a different task and does not occur earlier. *)
Lemma before_distinct q l1 A l2 B l3 :
  NoDup (handles q) ->
  (forall t, In t q -> exists h f, t = Packaged h f) ->
  q = l1 ++ A :: l2 ++ B :: l3 ->
  ~ In B (l1 ++ A :: l2).
Proof.
  intros Hnd Hp -> Hin.
  destruct (Hp B) as (h & f & ->).
  { apply in_or_app. right. right. apply in_or_app. right. now left. }
  replace (l1 ++ A :: l2 ++ Packaged h f :: l3)
    with ((l1 ++ A :: l2) ++ Packaged h f :: l3) in Hnd
    by (now rewrite <- app_assoc).
  rewrite handles_app, handles_packaged in Hnd.
  apply NoDup_remove_2 in Hnd. apply Hnd. apply in_or_app. left.
  apply in_handles. eauto.
Qed.

(** Two tasks that are in the queue, one ahead of the other, are popped in
    that order. *)
Lemma fifo_from sched :
  forall s s' ev A B w,
    owned_ok s ->
    before A B (tasks s) ->
    run sched s = Some (s', ev) ->
    In (EvPop w B) ev ->
    exists w', before (EvPop w' A) (EvPop w B) ev.
Proof.
  induction sched as [|a rest IH]; cbn [run]; intros s s' ev A B w Hown Hb H Hin.
  - injection H as <- <-. destruct Hin.
  - destruct (step a s) as [[s1 e1]|] eqn:E; try discriminate.
    destruct (run rest s1) as [[s2 e2]|] eqn:R; try discriminate.
    injection H as <- <-.
    pose proof (owned_ok_step _ _ _ _ Hown E) as Hown1.
    destruct Hb as (l1 & l2 & l3 & Hq).
    pose proof (before_distinct _ _ _ _ _ _ (own_nodup _ Hown) (own_packaged _ Hown) Hq)
      as HB.
    destruct (pop_or_not _ _ _ _ E) as [(w0 & t0 & Hpop)|Hno].
    + destruct (pop_takes_front _ _ _ _ _ _ E Hpop) as [Hfront Honly].
      assert (Hin2 : In (EvPop w B) e2).
      { apply in_app_or in Hin. destruct Hin as [Hin|Hin]; auto.
        destruct (Honly _ _ Hin) as [_ ->]. exfalso. apply HB.
        rewrite Hq in Hfront. destruct l1; injection Hfront as <- _; now left. }
      rewrite Hq in Hfront. destruct l1 as [|x l1]; injection Hfront as <- Hrest.
      * exists w0. now apply before_split.
      * destruct (IH s1 s2 e2 A B w Hown1) as [w' Hw']; auto.
        { exists l1, l2, l3. auto. }
        exists w'. now apply before_app_l.
    + assert (Hin2 : In (EvPop w B) e2).
      { apply in_app_or in Hin. destruct Hin as [Hin|Hin]; auto. now destruct (Hno w B). }
      destruct (no_pop_queue _ _ _ _ Hown E Hno) as [[l Hl]|Hdrop].
      * destruct (IH s1 s2 e2 A B w Hown1) as [w' Hw']; auto.
        { rewrite Hl. apply before_app_r. exists l1, l2, l3. auto. }
        exists w'. now apply before_app_l.
      * exfalso. destruct (own_packaged _ Hown B) as (h & f & ->).
        { rewrite Hq. apply in_or_app. right. right. apply in_or_app. right. now left. }
        eapply (dropped_no_pop rest s1 s2 e2 h); eauto.
        apply Hdrop. rewrite Hq. apply in_handles. exists f.
        apply in_or_app. right. right. apply in_or_app. right. now left.
Qed.

(** ** The queue and the order of the pushes *)

Lemma pushes_app e1 e2 : pushes (e1 ++ e2) = pushes e1 ++ pushes e2.
Proof. unfold pushes. apply flat_map_app. Qed.

Lemma run_invariant_trace (P : state -> list event -> Prop) :
  (forall a s ev s' e, P s ev -> step a s = Some (s', e) -> P s' (ev ++ e)) ->
  forall sched s ev0 s' ev,
    P s ev0 -> run sched s = Some (s', ev) -> P s' (ev0 ++ ev).
Proof.
  intros Hstep. induction sched as [|a rest IH]; cbn [run]; intros s ev0 s' ev Hs H.
  - injection H as <- <-. now rewrite app_nil_r.
  - destruct (step a s) as [[s1 e1]|] eqn:E; try discriminate.
    destruct (run rest s1) as [[s2 e2]|] eqn:R; try discriminate.
    injection H as <- <-. rewrite app_assoc. eapply IH; [|exact R].
    eapply Hstep; eauto.
Qed.

(** What one statement does to the queue and to the pushes of the trace. *)
Lemma queue_step a s s' e :
  step a s = Some (s', e) ->
  (pushes e = [] /\ exists l, tasks s = l ++ tasks s') \/
  (exists c h f, cpc s c = EnqLocked h f /\ pushes e = [Packaged h f] /\
                 tasks s' = tasks s ++ [Packaged h f] /\
                 cpc s' = upd (cpc s) c (EnqUnlock h) /\ store s' = store s).
Proof.
  intros H.
  destruct a as [c0 o|[w0|c0] pick|w0]; step_inv H; cbn.
  all: try (right; eauto 10; fail).
  all: left; split; try reflexivity.
  all: try (exists []; cbn; congruence).
  all: try (rewrite app_nil_r; eauto; fail).
  all: try match goal with
       | E : tasks _ = ?t :: _ |- _ => exists [t]; cbn; congruence
       end.
  all: eexists; rewrite app_nil_r; reflexivity.
Qed.

(** The packaged task a caller holds after a statement is the one it held
    before, or one just created. *)
Lemma caller_handle_step a s s' e c h :
  step a s = Some (s', e) ->
  c_handle (cpc s' c) = Some h ->
  c_handle (cpc s c) = Some h \/ h = length (store s).
Proof.
  intros H Hc.
  destruct a as [c0 o|[w0|c0] pick|w0]; step_inv H; cbn in Hc; auto.
  all: upd_cases; auto; cbn in Hc; try discriminate Hc.
  all: try (destruct o; discriminate Hc).
  all: try (injection Hc as <-; rewrite_pcs; cbn; auto).
Qed.

Lemma store_length_step a s s' e :
  step a s = Some (s', e) -> length (store s) <= length (store s').
Proof.
  intros H.
  destruct a as [c0 o|[w0|c0] pick|w0]; step_inv H; cbn; auto.
  all: rewrite ?length_set_nth, ?length_abandon, ?length_app; cbn; lia.
Qed.

Lemma history_ok_step a s ev s' e :
  owned_ok s /\ history_ok s ev ->
  step a s = Some (s', e) ->
  owned_ok s' /\ history_ok s' (ev ++ e).
Proof.
  intros [Hown [(gone & Hsuf) Hnd Hfresh Halloc]] H.
  split; [eapply owned_ok_step; eauto|].
  pose proof (store_length_step _ _ _ _ H) as Hlen.
  assert (Hnew : forall c h, c_handle (cpc s' c) = Some h ->
                   ~ In h (handles (pushes ev))).
  { intros c h Hc Hin. destruct (caller_handle_step _ _ _ _ _ _ H Hc) as [Hold| ->].
    - eapply Hfresh; eauto.
    - apply Halloc in Hin. lia. }
  pose proof (pushes_app ev e) as Hpe.
  destruct (queue_step _ _ _ _ H) as [[Hp (l & Hl)]|(c & h & f & Hc & Hp & Ht & Hpc & Hst)];
    rewrite Hp in Hpe.
  - rewrite app_nil_r in Hpe. constructor; rewrite Hpe; auto.
    + exists (gone ++ l). now rewrite Hsuf, Hl, app_assoc.
    + intros h Hin. apply Halloc in Hin. lia.
  - assert (Hh : c_handle (cpc s c) = Some h) by (now rewrite Hc).
    constructor; rewrite Hpe.
    + exists gone. now rewrite Hsuf, Ht, app_assoc.
    + rewrite handles_app. apply NoDup_app; auto.
      * repeat constructor. intros [].
      * intros x Hx [<-|[]]. eapply Hfresh; eauto.
    + intros c0 h0 Hc0. rewrite handles_app, in_app_iff.
      intros [Hin|[<-|[]]]; [eapply Hnew; eauto|].
      rewrite Hpc in Hc0. unfold upd in Hc0.
      destruct (Nat.eqb_spec c0 c) as [Heq|Hne]; [discriminate Hc0|].
      apply Hne. eapply own_c_c; eauto.
    + intros h0. rewrite handles_app, in_app_iff. intros [Hin|[<-|[]]].
      * apply Halloc in Hin. lia.
      * rewrite Hst. apply pending_allocated. eapply own_c_pending; eauto.
Qed.

Lemma history_ok_run threads sched s ev :
  run sched (construct threads) = Some (s, ev) -> owned_ok s /\ history_ok s ev.
Proof.
  intros H.
  apply (run_invariant_trace (fun s ev => owned_ok s /\ history_ok s ev)
           history_ok_step sched (construct threads) [] s ev); auto.
  split; [apply owned_ok_construct|].
  constructor; cbn; try contradiction.
  - exists []. reflexivity.
  - constructor.
  - discriminate.
Qed.

(** A task that occurs once among the pushes and is still queued sits in
    the queue together with everything pushed after it. *)
Lemma suffix_keeps_later {A} (x : A) rest :
  ~ In x rest ->
  forall gone p q, p ++ x :: rest = gone ++ q -> In x q ->
  exists p', q = p' ++ x :: rest.
Proof.
  intros Hx. induction gone as [|g gone IH]; intros p q Heq Hin.
  - exists p. auto.
  - destruct p as [|y p]; cbn in Heq; injection Heq as -> Heq.
    + exfalso. apply Hx. rewrite Heq. apply in_or_app. now right.
    + eapply IH; eauto.
Qed.

Lemma before_pushes c1 t1 c2 t2 ev :
  before (EvPush c1 t1) (EvPush c2 t2) ev -> before t1 t2 (pushes ev).
Proof.
  intros (l1 & l2 & l3 & ->). exists (pushes l1), (pushes l2), (pushes l3).
  rewrite pushes_app. cbn. unfold pushes at 2. cbn. fold (pushes (l2 ++ EvPush c2 t2 :: l3)).
  rewrite pushes_app. reflexivity.
Qed.

(** C2: if A was pushed before B and both are in the queue, then in every
    continuation of the run a pop of B is preceded by a pop of A; a push
    puts the task at the back of the queue and a pop takes the task at its
    front. *)
Theorem fifo_dequeue_order threads sched1 s1 ev1 :
  run sched1 (construct threads) = Some (s1, ev1) ->
  (forall cA cB A B,
     before (EvPush cA A) (EvPush cB B) ev1 ->
     In A (tasks s1) -> In B (tasks s1) ->
     forall sched2 s2 ev2 w,
       run sched2 s1 = Some (s2, ev2) ->
       In (EvPop w B) ev2 ->
       exists w', before (EvPop w' A) (EvPop w B) ev2) /\
  (forall a s' e c t,
     step a s1 = Some (s', e) -> In (EvPush c t) e -> tasks s' = tasks s1 ++ [t]) /\
  (forall a s' e w t,
     step a s1 = Some (s', e) -> In (EvPop w t) e -> tasks s1 = t :: tasks s').
Proof.
  intros Hrun1. split; [|split].
  - intros cA cB A B Hpush HA HB sched2 s2 ev2 w Hrun2 Hpop.
    destruct (history_ok_run _ _ _ _ Hrun1) as [Hown [(gone & Hsuf) Hnd _ _]].
    apply (fifo_from sched2 s1 s2 ev2 A B w Hown); auto.
    apply before_pushes in Hpush. destruct Hpush as (p1 & p2 & p3 & Hp).
    destruct (own_packaged _ Hown A HA) as (h & f & ->).
    assert (Hx : ~ In (Packaged h f) (p2 ++ B :: p3)).
    { rewrite Hp, handles_app, handles_packaged in Hnd.
      apply NoDup_remove_2 in Hnd. intros Hin. apply Hnd.
      apply in_or_app. right. apply in_handles. eauto. }
    rewrite Hp in Hsuf.
    destruct (suffix_keeps_later _ _ Hx gone p1 (tasks s1) Hsuf HA) as [p' Hq].
    exists p', p2, p3. exact Hq.
  - intros a s' e c t H Hin. now destruct (push_appends_back _ _ _ _ _ _ H Hin).
  - intros a s' e w t H Hin. now destruct (pop_takes_front _ _ _ _ _ _ H Hin).
Qed.

Lemma fifo_dequeue_order_witness :
  run two_queued_sched (construct 1) =
    Some (two_queued, trace two_queued_sched (construct 1)) /\
  before (EvPush 0 (Packaged 0 (Returns 1))) (EvPush 0 (Packaged 1 (Returns 2)))
    (trace two_queued_sched (construct 1)) /\
  In (Packaged 0 (Returns 1)) (tasks two_queued) /\
  In (Packaged 1 (Returns 2)) (tasks two_queued) /\
  run pop_both_sched two_queued =
    Some (after pop_both_sched two_queued, trace pop_both_sched two_queued) /\
  In (EvPop 0 (Packaged 1 (Returns 2))) (trace pop_both_sched two_queued) /\
  exists w', before (EvPop w' (Packaged 0 (Returns 1))) (EvPop 0 (Packaged 1 (Returns 2)))
               (trace pop_both_sched two_queued).
Proof.
  assert (H1 : run two_queued_sched (construct 1) =
               Some (two_queued, trace two_queued_sched (construct 1)))
    by (vm_compute; reflexivity).
  assert (H2 : before (EvPush 0 (Packaged 0 (Returns 1)))
                 (EvPush 0 (Packaged 1 (Returns 2)))
                 (trace two_queued_sched (construct 1))).
  { exists [EvAccess (Caller 0) VStop Rd true; EvAccess (Caller 0) VTasks Wr true],
           [EvFuture 0 0; EvAccess (Caller 0) VStop Rd true;
            EvAccess (Caller 0) VTasks Wr true],
           [EvFuture 0 1].
    vm_compute. reflexivity. }
  assert (H3 : In (Packaged 0 (Returns 1)) (tasks two_queued))
    by (vm_compute; left; reflexivity).
  assert (H4 : In (Packaged 1 (Returns 2)) (tasks two_queued))
    by (vm_compute; right; left; reflexivity).
  assert (H5 : run pop_both_sched two_queued =
               Some (after pop_both_sched two_queued, trace pop_both_sched two_queued))
    by (vm_compute; reflexivity).
  assert (H6 : In (EvPop 0 (Packaged 1 (Returns 2))) (trace pop_both_sched two_queued))
    by (vm_compute; repeat ((left; reflexivity) || right)).
  split; [exact H1|]. split; [exact H2|]. split; [exact H3|]. split; [exact H4|].
  split; [exact H5|]. split; [exact H6|].
  exact (proj1 (fifo_dequeue_order 1 two_queued_sched _ _ H1) 0 0
           (Packaged 0 (Returns 1)) (Packaged 1 (Returns 2)) H2 H3 H4
           pop_both_sched _ _ 0 H5 H6).
Defined.

(** * Further properties of the member functions *)

(** ** The mutex *)

(** X3: in every state of a run from the constructor, a thread between a
    lock and the matching unlock owns [queue_mutex], no other thread is
    between a lock and an unlock, and every thread that is about to lock
    (a worker at line 72 or leaving [wait] at line 75, [enqueue] at line 44,
    [resize] at line 109) cannot move. *)
Theorem lock_is_exclusive threads sched s ev t :
  run sched (construct threads) = Some (s, ev) ->
  in_locked_region t s = true ->
  queue_mutex s = Some t /\
  (forall t', t' <> t -> in_locked_region t' s = false) /\
  (forall w pick, wpc s w = WLock \/ wpc s w = WWoken ->
     step (Step (Worker w) pick) s = None) /\
  (forall c pick,
     (exists h f, cpc s c = EnqLock h f) \/ (exists n, cpc s c = RszLock n) ->
     step (Step (Caller c) pick) s = None).
Proof.
  intros Hrun Ht. pose proof (mutex_ok_run _ _ _ _ Hrun) as Hm.
  assert (Hq : queue_mutex s = Some t) by now apply Hm.
  split; [exact Hq|]. split; [|split].
  - intros t' Hne. destruct (in_locked_region t' s) eqn:E; [|reflexivity].
    destruct Hne. eapply locked_unique; eauto.
  - intros w pick [H|H]; run_stmt; reflexivity.
  - intros c pick [(h & f & H)|(n & H)]; run_stmt; reflexivity.
Qed.

Lemma lock_is_exclusive_witness :
  run [Step (Worker 0) 0] (construct 2) =
    Some (after [Step (Worker 0) 0] (construct 2), []) /\
  in_locked_region (Worker 0) (after [Step (Worker 0) 0] (construct 2)) = true /\
  queue_mutex (after [Step (Worker 0) 0] (construct 2)) = Some (Worker 0) /\
  step (Step (Worker 1) 0) (after [Step (Worker 0) 0] (construct 2)) = None.
Proof.
  assert (H : run [Step (Worker 0) 0] (construct 2) =
              Some (after [Step (Worker 0) 0] (construct 2), []))
    by (vm_compute; reflexivity).
  split; [exact H|]. split; [reflexivity|].
  destruct (lock_is_exclusive 2 [Step (Worker 0) 0] _ _ (Worker 0) H eq_refl)
    as (H1 & _ & H2 & _).
  split; [exact H1|]. apply H2. left. reflexivity.
Defined.

(** ** A worker with nothing to do *)

Lemma worker_pred_idle_step s w pick :
  wpc s w = WPred ->
  stop s = false ->
  tasks s = [] ->
  step (Step (Worker w) pick) s =
  Some (set_wpc (upd (wpc s) w WEnterWait) s,
        [EvAccess (Worker w) VStop Rd (holds (Worker w) s);
         EvAccess (Worker w) VTasks Rd (holds (Worker w) s)]).
Proof. intros H Hs Hq. run_stmt. reflexivity. Qed.

Lemma worker_enter_wait_step s w pick :
  wpc s w = WEnterWait ->
  step (Step (Worker w) pick) s =
  Some (set_wpc (upd (wpc s) w WWaiting) (set_mutex None s), []).
Proof. intros H. run_stmt. reflexivity. Qed.

(** X4: a worker that takes the lock at the top of the loop (line 72) or
    after any wake-up from [wait], a spurious one included, and finds [stop]
    clear and the queue empty, releases the lock and blocks in [wait]
    (line 75); nothing but its own position has changed, and it cannot move
    until it is woken again. *)
Theorem idle_worker_blocks_in_wait s w pick :
  wpc s w = WLock \/ wpc s w = WWoken ->
  queue_mutex s = None ->
  stop s = false ->
  tasks s = [] ->
  exists s' ev,
    run (repeat (Step (Worker w) pick) 3) s = Some (s', ev) /\
    wpc s' w = WWaiting /\
    (forall w', w' <> w -> wpc s' w' = wpc s w') /\
    queue_mutex s' = None /\ tasks s' = [] /\ stop s' = false /\
    workers s' = workers s /\ store s' = store s /\ cpc s' = cpc s /\
    cerr s' = cerr s /\
    (forall t, ~ In (EvPop w t) ev) /\
    step (Step (Worker w) pick) s' = None /\
    exists s'', step (Spurious w) s' = Some (s'', []) /\ wpc s'' w = WWoken.
Proof.
  intros Hw Hm Hs Hq. cbn [repeat run].
  rewrite (worker_lock_step s w pick Hw Hm).
  erewrite worker_pred_idle_step by (cbn; rewrite ?upd_same; auto).
  erewrite worker_enter_wait_step by (cbn; rewrite ?upd_same; auto).
  eexists _, _. split; [reflexivity|]. cbn. rewrite !upd_same.
  split; [reflexivity|]. split; [intros w' Hne; now rewrite !upd_other|].
  do 7 (split; [assumption || reflexivity|]).
  split; [intros t Hin; cbn in Hin; intuition discriminate|].
  split.
  - unfold step. autounfold with stmt. cbn. rewrite !upd_same. reflexivity.
  - eexists. unfold step. cbn. rewrite !upd_same. cbn.
    split; [reflexivity|]. cbn. now rewrite upd_same.
Qed.

Lemma idle_worker_blocks_in_wait_witness :
  exists s' ev,
    run (repeat (Step (Worker 0) 0) 3) (construct 1) = Some (s', ev) /\
    wpc s' 0 = WWaiting /\ queue_mutex s' = None /\
    step (Step (Worker 0) 0) s' = None.
Proof.
  destruct (idle_worker_blocks_in_wait (construct 1) 0 0
              (or_introl eq_refl) eq_refl eq_refl eq_refl)
    as (s' & ev & H1 & H2 & _ & H3 & _ & _ & _ & _ & _ & _ & _ & H4 & _).
  exists s', ev. auto.
Defined.

(** ** enqueue, statement by statement *)

Lemma enq_check_step s c f pick :
  cpc s c = EnqCheckWorkers f ->
  step (Step (Caller c) pick) s =
  if Nat.eqb (length (workers s)) 0
  then Some (set_cpc (upd (cpc s) c Idle) s, [EvThrow c "enqueue called on empty ThreadPool"])
  else Some (set_cpc (upd (cpc s) c (EnqMakeTask f)) s, []).
Proof.
  intros H. stmt_eq H. destruct (Nat.eqb (length (workers s)) 0); reflexivity.
Qed.

Lemma enq_make_step s c f pick :
  cpc s c = EnqMakeTask f ->
  step (Step (Caller c) pick) s =
  Some (set_cpc (upd (cpc s) c (EnqLock (length (store s)) f))
          (set_store (store s ++ [Pending]) s), []).
Proof. intros H. run_stmt. reflexivity. Qed.

Lemma enq_lock_step s c h f pick :
  cpc s c = EnqLock h f ->
  queue_mutex s = None ->
  step (Step (Caller c) pick) s =
  Some (set_cpc (upd (cpc s) c (EnqLocked h f)) (set_mutex (Some (Caller c)) s), []).
Proof. intros H Hm. run_stmt. reflexivity. Qed.

Lemma enq_push_step s c h f pick :
  cpc s c = EnqLocked h f ->
  stop s = false ->
  step (Step (Caller c) pick) s =
  Some (set_cpc (upd (cpc s) c (EnqUnlock h)) (set_tasks (tasks s ++ [Packaged h f]) s),
        [EvAccess (Caller c) VStop Rd (holds (Caller c) s);
         EvAccess (Caller c) VTasks Wr (holds (Caller c) s);
         EvPush c (Packaged h f)]).
Proof. intros H Hs. run_stmt. reflexivity. Qed.

Lemma enq_stopped_step s c h f pick :
  cpc s c = EnqLocked h f ->
  stop s = true ->
  step (Step (Caller c) pick) s =
  Some (set_cpc (upd (cpc s) c Idle)
          (set_store (abandon1 (Packaged h f) (store s)) (set_mutex None s)),
        [EvAccess (Caller c) VStop Rd (holds (Caller c) s);
         EvThrow c "enqueue called on stopped ThreadPool"]).
Proof. intros H Hs. run_stmt. reflexivity. Qed.

Lemma enq_unlock_step s c h pick :
  cpc s c = EnqUnlock h ->
  step (Step (Caller c) pick) s =
  Some (set_cpc (upd (cpc s) c (EnqNotify h)) (set_mutex None s), []).
Proof. intros H. run_stmt. reflexivity. Qed.

Lemma enq_notify_step s c h w :
  cpc s c = EnqNotify h ->
  wpc s w = WWaiting ->
  step (Step (Caller c) w) s =
  Some (set_cpc (upd (cpc s) c Idle) (set_wpc (upd (wpc s) w WWoken) s),
        [EvFuture c h]).
Proof.
  intros H Hw. unfold step. autounfold with stmt. cbv beta iota. rewrite H.
  cbv beta iota. unfold notify_one. rewrite Hw. reflexivity.
Qed.

Lemma set_nth_snoc {A} (l : list A) x v : set_nth (length l) v (l ++ [x]) = l ++ [v].
Proof. induction l as [|y l IH]; simpl; [reflexivity|now rewrite IH]. Qed.

Lemma nth_error_snoc {A} (l : list A) x : nth_error (l ++ [x]) (length l) = Some x.
Proof. rewrite nth_error_app2, Nat.sub_diag by lia. reflexivity. Qed.

Lemma run_app l1 l2 s :
  run (l1 ++ l2) s =
  match run l1 s with
  | Some (s1, e1) =>
      match run l2 s1 with
      | Some (s2, e2) => Some (s2, e1 ++ e2)
      | None => None
      end
  | None => None
  end.
Proof.
  revert s. induction l1 as [|a l1 IH]; intros s; cbn [app run].
  - destruct (run l2 s) as [[s2 e2]|]; reflexivity.
  - destruct (step a s) as [[s1 e1]|]; [|reflexivity].
    rewrite IH. destruct (run l1 s1) as [[s2 e2]|]; [|reflexivity].
    destruct (run l2 s2) as [[s3 e3]|]; [|reflexivity].
    now rewrite app_assoc.
Qed.

Ltac norm :=
  cbn [set_workers set_tasks set_stop set_mutex set_wpc set_spawned set_cpc
       set_store set_cerr workers tasks stop queue_mutex wpc spawned cpc store cerr].

Ltac side := norm; rewrite ?upd_same; eauto.

(** One turn of the loop, lines 72-83, on a queue whose front is a packaged
    task that has not been run. *)
Lemma worker_runs_one_task s w pick h f q :
  wpc s w = WLock \/ wpc s w = WWoken ->
  queue_mutex s = None ->
  tasks s = Packaged h f :: q ->
  nth_error (store s) h = Some Pending ->
  exists s' ev,
    run (repeat (Step (Worker w) pick) 6) s = Some (s', ev) /\
    tasks s' = q /\
    store s' = set_nth h (Ready f) (store s) /\
    wpc s' w = WLock /\
    (forall w', w' <> w -> wpc s' w' = wpc s w') /\
    queue_mutex s' = None /\ stop s' = stop s /\ cpc s' = cpc s /\
    cerr s' = cerr s /\ workers s' = workers s /\ spawned s' = spawned s /\
    pops ev = [Packaged h f] /\ pushes ev = [].
Proof.
  intros Hw Hm Hq Hp. cbn [repeat run].
  rewrite (worker_lock_step s w pick Hw Hm). norm.
  erewrite worker_pred_step by side. norm.
  erewrite worker_exit_check_step by side. norm.
  erewrite worker_pop_step by side. norm.
  erewrite worker_unlock_step by side. norm.
  erewrite worker_invoke_step by side. norm.
  eexists _, _. split; [reflexivity|]. norm. rewrite !upd_same.
  do 3 (split; [reflexivity|]).
  split; [intros w' Hne; now rewrite !upd_other|].
  do 6 (split; [reflexivity|]).
  split; reflexivity.
Qed.

(** [enqueue] on a running pool, alone, with a [notify_one] that wakes the
    waiting worker [w]. *)
Lemma enqueue_wakes s c w f :
  cpc s c = Idle ->
  queue_mutex s = None ->
  stop s = false ->
  length (workers s) <> 0 ->
  wpc s w = WWaiting ->
  exists s' ev,
    run (Invoke c (OpEnqueue f) :: repeat (Step (Caller c) w) 6) s = Some (s', ev) /\
    tasks s' = tasks s ++ [Packaged (length (store s)) f] /\
    store s' = store s ++ [Pending] /\
    wpc s' w = WWoken /\
    (forall w', w' <> w -> wpc s' w' = wpc s w') /\
    queue_mutex s' = None /\ stop s' = false /\
    cpc s' c = Idle /\ (forall c', c' <> c -> cpc s' c' = cpc s c') /\
    cerr s' = cerr s /\ workers s' = workers s /\ spawned s' = spawned s /\
    In (EvFuture c (length (store s))) ev /\
    pushes ev = [Packaged (length (store s)) f] /\
    (forall w' t, ~ In (EvPop w' t) ev).
Proof.
  intros Hc Hm Hs Hn Hw. cbn [repeat run].
  assert (H0 : step (Invoke c (OpEnqueue f)) s =
               Some (set_cpc (upd (cpc s) c (EnqCheckWorkers f)) s, []))
    by (unfold step; now rewrite Hc).
  rewrite H0. clear H0. norm.
  erewrite enq_check_step by side. norm.
  apply Nat.eqb_neq in Hn. rewrite Hn.
  erewrite enq_make_step by side. norm.
  erewrite enq_lock_step by side. norm.
  erewrite enq_push_step by side. norm.
  erewrite enq_unlock_step by side. norm.
  erewrite enq_notify_step by side. norm.
  eexists _, _. split; [reflexivity|]. norm. rewrite !upd_same.
  do 2 (split; [reflexivity|]). split; [reflexivity|].
  split; [intros w' Hne; now rewrite !upd_other|].
  do 3 (split; [assumption || reflexivity|]).
  split; [intros c' Hne; now rewrite !upd_other|].
  do 3 (split; [reflexivity|]).
  split; [cbn; auto 10|]. split; [reflexivity|].
  intros w' t Hin. cbn in Hin. intuition discriminate.
Qed.

(** X5: from submission to result.  With [stop] clear, the queue empty, the
    mutex free and worker [w] blocked in [wait], a call of [enqueue] whose
    [notify_one] wakes [w], followed by six statements of [w], leaves the
    future that [enqueue] returned ready with the outcome of the callable
    (its value, or the exception it threw); the queue is empty again, the
    mutex is free, nothing was printed and [w] is back at the top of the
    loop. *)
Theorem enqueued_task_is_run_and_its_future_made_ready s c w f :
  cpc s c = Idle ->
  queue_mutex s = None ->
  stop s = false ->
  tasks s = [] ->
  length (workers s) <> 0 ->
  wpc s w = WWaiting ->
  exists s' ev,
    run ((Invoke c (OpEnqueue f) :: repeat (Step (Caller c) w) 6) ++
         repeat (Step (Worker w) 0) 6) s = Some (s', ev) /\
    In (EvFuture c (length (store s))) ev /\
    store s' = store s ++ [Ready f] /\
    tasks s' = [] /\ queue_mutex s' = None /\ stop s' = false /\
    cpc s' c = Idle /\ wpc s' w = WLock /\
    (forall w', w' <> w -> wpc s' w' = wpc s w') /\
    cerr s' = cerr s /\ workers s' = workers s.
Proof.
  intros Hc Hm Hs Hq Hn Hw.
  destruct (enqueue_wakes s c w f Hc Hm Hs Hn Hw)
    as (s1 & e1 & R1 & Ht1 & Hst1 & Hw1 & Ho1 & Hm1 & Hs1 & Hc1 & _ & He1 & Hws1 & _ & Hf1 & _).
  rewrite Hq in Ht1. cbn [app] in Ht1.
  destruct (worker_runs_one_task s1 w 0 (length (store s)) f [] (or_intror Hw1) Hm1 Ht1)
    as (s2 & e2 & R2 & Ht2 & Hst2 & Hw2 & Ho2 & Hm2 & Hs2 & Hc2 & He2 & Hws2 & _).
  { rewrite Hst1. apply nth_error_snoc. }
  rewrite run_app, R1, R2. eexists _, _. split; [reflexivity|].
  split; [apply in_or_app; now left|].
  split; [rewrite Hst2, Hst1; apply set_nth_snoc|].
  split; [exact Ht2|]. split; [exact Hm2|]. split; [congruence|].
  split; [congruence|]. split; [exact Hw2|].
  split; [intros w' Hne; rewrite Ho2, Ho1; auto|].
  split; congruence.
Qed.

Lemma enqueued_task_is_run_and_its_future_made_ready_witness :
  let s := after (repeat (Step (Worker 0) 0) 3) (construct 1) in
  wpc s 0 = WWaiting /\
  exists s' ev,
    run ((Invoke 0 (OpEnqueue (Throws NonStdException)) :: repeat (Step (Caller 0) 0) 6) ++
         repeat (Step (Worker 0) 0) 6) s = Some (s', ev) /\
    store s' = [Ready (Throws NonStdException)] /\ tasks s' = [] /\ wpc s' 0 = WLock.
Proof.
  cbv zeta. split; [reflexivity|].
  destruct (enqueued_task_is_run_and_its_future_made_ready
              (after (repeat (Step (Worker 0) 0) 3) (construct 1)) 0 0
              (Throws NonStdException) eq_refl eq_refl eq_refl eq_refl)
    as (s' & ev & H1 & _ & H2 & H3 & _ & _ & _ & H4 & _).
  - vm_compute. discriminate.
  - reflexivity.
  - exists s', ev. repeat split; assumption.
Defined.

(** ** The two errors of enqueue *)

(** X6: on a pool without workers [enqueue] throws at line 35 as its first
    statement, whoever owns the mutex and whether or not [stop] is set: it
    does not wait for the lock, creates no shared state and changes nothing. *)
Theorem enqueue_on_empty_pool_throws_at_once s c f k :
  cpc s c = Idle ->
  length (workers s) = 0 ->
  exists s',
    call (1 + k) c (OpEnqueue f) s =
      Some (s', [EvThrow c "enqueue called on empty ThreadPool"]) /\
    (forall c', cpc s' c' = cpc s c') /\
    tasks s' = tasks s /\ store s' = store s /\ queue_mutex s' = queue_mutex s /\
    stop s' = stop s /\ wpc s' = wpc s /\ workers s' = workers s.
Proof.
  intros Hc Hn. unfold call. change (1 + k) with (S k).
  assert (H0 : step (Invoke c (OpEnqueue f)) s =
               Some (set_cpc (upd (cpc s) c (EnqCheckWorkers f)) s, []))
    by (unfold step; now rewrite Hc).
  rewrite H0. clear H0.
  assert (H1 : step (Step (Caller c) 0) (set_cpc (upd (cpc s) c (EnqCheckWorkers f)) s) =
               Some (set_cpc (upd (upd (cpc s) c (EnqCheckWorkers f)) c Idle) s,
                     [EvThrow c "enqueue called on empty ThreadPool"])).
  { erewrite enq_check_step by (cbn; now rewrite upd_same).
    cbn [workers set_cpc]. rewrite Hn. reflexivity. }
  erewrite finish_step; [ | cbn; rewrite upd_same; discriminate | exact H1 ].
  rewrite finish_idle by (cbn; now rewrite upd_same).
  eexists. split; [reflexivity|]. cbn.
  split; [|auto 10].
  intros c'. unfold upd. destruct (Nat.eqb c' c) eqn:E; [|reflexivity].
  apply Nat.eqb_eq in E. now subst.
Qed.

Lemma enqueue_on_empty_pool_throws_at_once_witness :
  exists s',
    call 1 0 (OpEnqueue (Returns 1)) (set_mutex (Some (Caller 1)) (construct 0)) =
      Some (s', [EvThrow 0 "enqueue called on empty ThreadPool"]) /\
    queue_mutex s' = Some (Caller 1) /\ store s' = [].
Proof.
  destruct (enqueue_on_empty_pool_throws_at_once
              (set_mutex (Some (Caller 1)) (construct 0)) 0 (Returns 1) 0
              eq_refl eq_refl) as (s' & H1 & _ & _ & H2 & H3 & _).
  exists s'. auto.
Defined.

(** X7: on a stopped pool that has workers, [enqueue] throws at line 47.
    The unwinding releases the lock taken at line 44; the queue is as it
    was, no worker is notified, no future is returned, and the shared state
    created at lines 40-42 is abandoned. *)
Theorem enqueue_on_stopped_pool_releases_the_lock s c f k :
  cpc s c = Idle ->
  queue_mutex s = None ->
  length (workers s) <> 0 ->
  stop s = true ->
  exists s' ev,
    call (4 + k) c (OpEnqueue f) s = Some (s', ev) /\
    In (EvThrow c "enqueue called on stopped ThreadPool") ev /\
    (forall h, ~ In (EvFuture c h) ev) /\
    (forall t, ~ In (EvPush c t) ev) /\
    cpc s' c = Idle /\
    queue_mutex s' = None /\
    tasks s' = tasks s /\ wpc s' = wpc s /\ stop s' = true /\
    workers s' = workers s /\
    store s' = store s ++ [Abandoned].
Proof.
  intros Hc Hm Hn Hs. unfold call. change (4 + k) with (S (S (S (S k)))).
  assert (H0 : step (Invoke c (OpEnqueue f)) s =
               Some (set_cpc (upd (cpc s) c (EnqCheckWorkers f)) s, []))
    by (unfold step; now rewrite Hc).
  rewrite H0. clear H0.
  assert (H1 : step (Step (Caller c) 0) (set_cpc (upd (cpc s) c (EnqCheckWorkers f)) s) =
               Some (set_cpc (upd (upd (cpc s) c (EnqCheckWorkers f)) c (EnqMakeTask f)) s,
                     [])).
  { erewrite enq_check_step by (cbn; now rewrite upd_same).
    cbn [workers set_cpc]. apply Nat.eqb_neq in Hn. rewrite Hn. reflexivity. }
  erewrite finish_step; [ | cbn; rewrite upd_same; discriminate | exact H1 ].
  erewrite finish_step;
    [ | cbn; rewrite upd_same; discriminate
      | apply enq_make_step; cbn; now rewrite upd_same ].
  erewrite finish_step;
    [ | cbn; rewrite upd_same; discriminate
      | apply enq_lock_step; cbn; rewrite ?upd_same; auto ].
  erewrite finish_step;
    [ | cbn; rewrite upd_same; discriminate
      | apply enq_stopped_step; cbn; rewrite ?upd_same; auto ].
  rewrite finish_idle by (cbn; now rewrite upd_same).
  eexists _, _. split; [reflexivity|]. cbn. rewrite !upd_same.
  split; [auto 10|].
  split; [intros h Hin; cbn in Hin; intuition discriminate|].
  split; [intros t Hin; cbn in Hin; intuition discriminate|].
  do 6 (split; [assumption || reflexivity|]).
  rewrite nth_error_snoc. apply set_nth_snoc.
Qed.

Lemma enqueue_on_stopped_pool_releases_the_lock_witness :
  exists s' ev,
    call 4 0 (OpEnqueue (Returns 1)) (set_stop true (construct 1)) = Some (s', ev) /\
    In (EvThrow 0 "enqueue called on stopped ThreadPool") ev /\
    queue_mutex s' = None /\ store s' = [Abandoned].
Proof.
  destruct (enqueue_on_stopped_pool_releases_the_lock
              (set_stop true (construct 1)) 0 (Returns 1) 0 eq_refl eq_refl)
    as (s' & ev & H1 & H2 & _ & _ & _ & H3 & _ & _ & _ & _ & H4).
  - vm_compute. discriminate.
  - reflexivity.
  - exists s', ev. auto.
Defined.

(** ** Exceptions of enqueued callables *)

Lemma cerr_step a s s' ev :
  owned_ok s -> step a s = Some (s', ev) -> cerr s' = cerr s.
Proof.
  intros Hown H. destruct a as [c o|[w|c] pick|w]; step_inv H; try reflexivity.
  all: exfalso.
  all: try (pose proof (own_w_pending _ Hown w h) as X; unfold w_handle in X;
            rewrite E in X; cbn in X; specialize (X eq_refl); congruence).
  all: destruct (own_w_packaged _ Hown w _ ltac:(rewrite E; reflexivity)) as (? & ? & ?);
       discriminate.
Qed.

(** X8: a task submitted through [enqueue] never reaches the handlers of
    lines 84-90.  In every state of a run from the constructor nothing has
    been printed to [cerr], and the task a worker is about to call at line 83
    is a packaged task that has not been called before, so the call stores
    the callable's value or exception in the future and returns normally. *)
Theorem enqueued_exceptions_are_not_printed threads sched s ev :
  run sched (construct threads) = Some (s, ev) ->
  cerr s = [] /\
  forall w t, wpc s w = WInvoke t ->
    raises t s = None /\
    exists h f, t = Packaged h f /\ nth_error (store s) h = Some Pending /\
      forall pick, exists s',
        step (Step (Worker w) pick) s = Some (s', []) /\
        nth_error (store s') h = Some (Ready f) /\ cerr s' = [].
Proof.
  intros Hrun.
  assert (Hinv : owned_ok s /\ cerr s = []).
  { apply (run_invariant (fun s => owned_ok s /\ cerr s = [])
             ltac:(intros a s0 s1 e [Ho Hc] Hs; split;
                   [eapply owned_ok_step; eauto
                   |erewrite cerr_step; eauto])
             sched (construct threads) s ev); auto.
    split; [apply owned_ok_construct|reflexivity]. }
  destruct Hinv as [Hown Hce]. split; [exact Hce|].
  intros w t Hw.
  destruct (own_w_packaged _ Hown w t ltac:(rewrite Hw; reflexivity)) as (h & f & ->).
  assert (Hp : nth_error (store s) h = Some Pending)
    by (apply (own_w_pending _ Hown w); unfold w_handle; now rewrite Hw).
  split.
  - unfold raises, invoke. autounfold with stmt. cbn. now rewrite Hp.
  - exists h, f. split; [reflexivity|]. split; [exact Hp|].
    intros pick. eexists. split; [exact (worker_invoke_step s w pick h f Hw Hp)|].
    cbn. split; [|exact Hce].
    eapply nth_error_set_nth_same; eauto.
Qed.

Lemma enqueued_exceptions_are_not_printed_witness :
  let sched := enqueue_sched (Throws (StdException "boom")) ++ repeat (Step (Worker 0) 0) 6 in
  run sched (construct 1) = Some (after sched (construct 1), trace sched (construct 1)) /\
  cerr (after sched (construct 1)) = [] /\
  nth_error (store (after sched (construct 1))) 0 =
    Some (Ready (Throws (StdException "boom"))).
Proof.
  cbv zeta.
  assert (H : run (enqueue_sched (Throws (StdException "boom")) ++
                   repeat (Step (Worker 0) 0) 6) (construct 1) =
              Some (after (enqueue_sched (Throws (StdException "boom")) ++
                           repeat (Step (Worker 0) 0) 6) (construct 1),
                    trace (enqueue_sched (Throws (StdException "boom")) ++
                           repeat (Step (Worker 0) 0) 6) (construct 1)))
    by (vm_compute; reflexivity).
  split; [exact H|].
  split; [exact (proj1 (enqueued_exceptions_are_not_printed 1 _ _ _ H))|].
  vm_compute. reflexivity.
Defined.

(** ** Only the destructor stops the pool *)

Lemma alive_no_stopped_throw a s s' ev c :
  alive s -> step a s = Some (s', ev) ->
  ~ In (EvThrow c "enqueue called on stopped ThreadPool") ev.
Proof.
  intros Hal H Hin. pose proof (alive_mutex _ Hal) as Hm.
  destruct a as [c0 o|[w|c0] pick|w]; step_inv H; cbn in Hin.
  all: repeat (destruct Hin as [Hin|Hin]; try discriminate Hin); try contradiction.
  all: destruct (alive_stop _ Hal) as [c1 Hc1]; [assumption|].
  all: assert (H : Caller c1 = Caller c0)
         by (apply (locked_unique s); auto; cbn;
             [now apply stop_window_locked | now rewrite E]).
  all: injection H as ->; rewrite E in Hc1; discriminate.
Qed.

(** X9: as long as the destructor has not been entered, [stop] is set only
    between lines 114 and 119 of [resize], which run with the mutex held.
    So whenever the mutex is free or owned by a worker or by [enqueue],
    [stop] is clear, and [enqueue] never throws its stopped-pool error. *)
Theorem only_the_destructor_stops_the_pool threads sched s ev :
  no_destroy sched ->
  run sched (construct threads) = Some (s, ev) ->
  (forall c, ~ In (EvThrow c "enqueue called on stopped ThreadPool") ev) /\
  (stop s = true ->
     exists c n, queue_mutex s = Some (Caller c) /\
       (cpc s c = RszClearStop n \/ exists sz i, cpc s c = RszNotify n sz i)).
Proof.
  intros Hnd Hrun.
  assert (G : forall sched s0 s1 ev1,
             alive s0 -> no_destroy sched -> run sched s0 = Some (s1, ev1) ->
             forall c, ~ In (EvThrow c "enqueue called on stopped ThreadPool") ev1).
  { clear. induction sched as [|a rest IH]; cbn [run]; intros s0 s1 ev1 Hal Hnd H c Hin.
    - injection H as <- <-. destruct Hin.
    - unfold no_destroy in Hnd. cbn in Hnd. apply andb_true_iff in Hnd.
      destruct Hnd as [Ha Hnd]. apply negb_true_iff in Ha.
      destruct (step a s0) as [[s2 e2]|] eqn:E; try discriminate.
      destruct (run rest s2) as [[s3 e3]|] eqn:R; try discriminate.
      injection H as <- <-. apply in_app_or in Hin. destruct Hin as [Hin|Hin].
      + eapply alive_no_stopped_throw; eauto.
      + eapply (IH s2); eauto. eapply alive_step; eauto. }
  split; [eapply G; eauto using alive_construct|].
  destruct (alive_run _ _ _ _ (alive_construct threads) Hnd Hrun) as (Hal & _).
  intros Hs. destruct (alive_stop _ Hal Hs) as [c Hc].
  assert (Hq : queue_mutex s = Some (Caller c)).
  { apply (alive_mutex _ Hal). cbn. now apply stop_window_locked. }
  destruct (cpc s c) eqn:E; try discriminate; eauto 10.
Qed.

Lemma only_the_destructor_stops_the_pool_witness :
  no_destroy shrink_sched /\
  run shrink_sched (construct 2) = Some (shrink_joining, trace shrink_sched (construct 2)) /\
  forall c, ~ In (EvThrow c "enqueue called on stopped ThreadPool")
                 (trace shrink_sched (construct 2)).
Proof.
  assert (H : run shrink_sched (construct 2) =
              Some (shrink_joining, trace shrink_sched (construct 2)))
    by (vm_compute; reflexivity).
  split; [reflexivity|]. split; [exact H|].
  exact (proj1 (only_the_destructor_stops_the_pool 2 shrink_sched _ _ eq_refl H)).
Defined.

(** ** Futures *)

Lemma settled_is_dropped s h v :
  owned_ok s -> nth_error (store s) h = Some v -> v <> Pending -> dropped h v s.
Proof.
  intros Hown Hv Hne. constructor; auto.
  - intros Hin. pose proof (own_q_pending _ Hown h Hin). congruence.
  - intros w Hw. pose proof (own_w_pending _ Hown w h Hw). congruence.
  - intros c Hc. pose proof (own_c_pending _ Hown c h Hc). congruence.
Qed.

(** X10: a future is settled once.  When the shared state of a future has
    left [Pending] (made ready by the call of line 83, or abandoned because
    its task was destroyed without being called), nothing that happens
    later changes it, and no worker pops a task for it again. *)
Theorem settled_future_never_changes threads sched s ev h v sched' s' ev' :
  run sched (construct threads) = Some (s, ev) ->
  nth_error (store s) h = Some v ->
  v <> Pending ->
  run sched' s = Some (s', ev') ->
  nth_error (store s') h = Some v /\
  forall w f, ~ In (EvPop w (Packaged h f)) ev'.
Proof.
  intros Hrun Hv Hne Hrun'.
  pose proof (settled_is_dropped _ _ _ (owned_ok_run _ _ _ _ Hrun) Hv Hne) as Hd.
  split.
  - exact (drop_store _ _ _ (dropped_run _ _ _ _ _ _ Hd Hrun')).
  - eapply dropped_no_pop; eauto.
Qed.

Lemma settled_future_never_changes_witness :
  let sched := enqueue_sched (Returns 7) ++ repeat (Step (Worker 0) 0) 6 in
  let sched' := enqueue_sched (Returns 8) ++ repeat (Step (Worker 0) 0) 6
                ++ [Invoke 1 OpClear; Step (Caller 1) 0] in
  run sched (construct 1) = Some (after sched (construct 1), trace sched (construct 1)) /\
  nth_error (store (after sched (construct 1))) 0 = Some (Ready (Returns 7)) /\
  run sched' (after sched (construct 1)) =
    Some (after sched' (after sched (construct 1)),
          trace sched' (after sched (construct 1))) /\
  nth_error (store (after sched' (after sched (construct 1)))) 0 = Some (Ready (Returns 7)).
Proof.
  cbv zeta.
  set (sched := enqueue_sched (Returns 7) ++ repeat (Step (Worker 0) 0) 6).
  set (sched' := enqueue_sched (Returns 8) ++ repeat (Step (Worker 0) 0) 6
                 ++ [Invoke 1 OpClear; Step (Caller 1) 0]).
  assert (H1 : run sched (construct 1) =
               Some (after sched (construct 1), trace sched (construct 1)))
    by (vm_compute; reflexivity).
  assert (H2 : nth_error (store (after sched (construct 1))) 0 = Some (Ready (Returns 7)))
    by (vm_compute; reflexivity).
  assert (H3 : run sched' (after sched (construct 1)) =
               Some (after sched' (after sched (construct 1)),
                     trace sched' (after sched (construct 1))))
    by (vm_compute; reflexivity).
  split; [exact H1|]. split; [exact H2|]. split; [exact H3|].
  refine (proj1 (settled_future_never_changes 1 sched _ _ 0 _ sched' _ _ H1 H2 _ H3)).
  discriminate.
Defined.

(** ** Every task is taken at most once *)

Lemma pops_app e1 e2 : pops (e1 ++ e2) = pops e1 ++ pops e2.
Proof. apply flat_map_app. Qed.

Lemma in_pops t ev : In t (pops ev) <-> exists w, In (EvPop w t) ev.
Proof.
  unfold pops. rewrite in_flat_map. split.
  - intros (e & He & Ht). destruct e; cbn in Ht; try contradiction.
    destruct Ht as [<-|[]]. eauto.
  - intros (w & Hw). exists (EvPop w t). split; [exact Hw|now left].
Qed.

Lemma in_pushes t ev : In t (pushes ev) <-> exists c, In (EvPush c t) ev.
Proof.
  unfold pushes. rewrite in_flat_map. split.
  - intros (e & He & Ht). destruct e; cbn in Ht; try contradiction.
    destruct Ht as [<-|[]]. eauto.
  - intros (c & Hc). exists (EvPush c t). split; [exact Hc|now left].
Qed.

(** What one statement does to the pops of the trace. *)
Lemma pops_step a s s' e :
  step a s = Some (s', e) ->
  pops e = [] \/
  exists w t, pops e = [t] /\ tasks s = t :: tasks s' /\
              wpc s' w = WPopped t /\ store s' = store s.
Proof.
  intros H. destruct a as [c o|[w|c] pick|w]; step_inv H; cbn; auto.
  right. exists w. eexists. rewrite upd_same. eauto.
Qed.

Lemma spent_step a s s' e h : spent h s -> step a s = Some (s', e) -> spent h s'.
Proof.
  intros [Ha Hq Hc] H. constructor.
  - pose proof (store_length_step _ _ _ _ H). lia.
  - destruct (queue_step _ _ _ _ H) as [[_ [l Hl]]|(c & h' & f & Hc' & _ & Ht & _)].
    + intros Hin. apply Hq. rewrite Hl, handles_app. apply in_or_app. now right.
    + rewrite Ht, handles_app, handles_packaged. intros Hin.
      apply in_app_or in Hin. destruct Hin as [Hin|[<-|[]]]; [auto|].
      apply (Hc c). now rewrite Hc'.
  - intros c Hc'. destruct (caller_handle_step _ _ _ _ _ _ H Hc') as [X|X].
    + now apply (Hc c).
    + lia.
Qed.

Lemma popped_once_step a s ev s' e :
  owned_ok s /\ history_ok s ev /\ NoDup (handles (pops ev)) /\
    (forall t, In t (pops ev) -> In t (pushes ev) /\ exists h f, t = Packaged h f) /\
    (forall h, In h (handles (pops ev)) -> spent h s) ->
  step a s = Some (s', e) ->
  owned_ok s' /\ history_ok s' (ev ++ e) /\ NoDup (handles (pops (ev ++ e))) /\
    (forall t, In t (pops (ev ++ e)) ->
       In t (pushes (ev ++ e)) /\ exists h f, t = Packaged h f) /\
    (forall h, In h (handles (pops (ev ++ e))) -> spent h s').
Proof.
  intros (Hown & Hhist & Hnd & Hsub & Hsp) H.
  destruct (history_ok_step _ _ _ _ _ (conj Hown Hhist) H) as [Hown' Hhist'].
  split; [exact Hown'|]. split; [exact Hhist'|].
  rewrite pops_app, pushes_app, handles_app.
  destruct (pops_step _ _ _ _ H) as [->|(w & t & -> & Hq & Hw & Hst)].
  - rewrite !app_nil_r. split; [exact Hnd|]. split.
    + intros t Ht. destruct (Hsub t Ht). split; [apply in_or_app; now left|assumption].
    + intros h Hh. eapply spent_step; eauto.
  - destruct (own_packaged _ Hown t) as (h & f & ->); [rewrite Hq; now left|].
    rewrite handles_packaged. cbn [handles app].
    assert (Hnew : ~ In h (handles (pops ev))).
    { intros Hin. apply (spent_q _ _ (Hsp h Hin)).
      rewrite Hq, handles_packaged. now left. }
    split; [|split].
    + apply NoDup_app; [exact Hnd | repeat constructor; intros [] |].
      intros x Hx [<-|[]]. contradiction.
    + intros t Ht. apply in_app_or in Ht.
      destruct Ht as [Ht|[<-|[]]].
      * destruct (Hsub t Ht). split; [apply in_or_app; now left|assumption].
      * split; [|eauto]. apply in_or_app. left.
        destruct (hist_suffix _ _ Hhist) as [gone Hg]. rewrite Hg.
        apply in_or_app. right. rewrite Hq. now left.
    + intros h' Hh'. apply in_app_or in Hh'. destruct Hh' as [Hh'|[<-|[]]].
      * eapply spent_step; eauto.
      * assert (Hwh : w_handle (wpc s' w) = Some h)
          by (unfold w_handle; now rewrite Hw).
        constructor.
        -- eapply pending_allocated. eapply own_w_pending; eauto.
        -- eapply own_w_q; eauto.
        -- intros c Hc. eapply own_w_c; eauto.
Qed.

(** X11: no task is taken from the queue twice, and nothing is taken that
    was not put there by [enqueue].  In every run from the constructor the
    tasks popped at lines 79-80 are packaged tasks with pairwise different
    futures, each of them pushed at line 49 earlier in the run. *)
Theorem every_task_is_popped_at_most_once threads sched s ev :
  run sched (construct threads) = Some (s, ev) ->
  NoDup (handles (pops ev)) /\
  (forall w t, In (EvPop w t) ev ->
     (exists h f, t = Packaged h f) /\ exists c, In (EvPush c t) ev).
Proof.
  intros Hrun.
  pose proof (run_invariant_trace
    (fun s ev => owned_ok s /\ history_ok s ev /\ NoDup (handles (pops ev)) /\
       (forall t, In t (pops ev) -> In t (pushes ev) /\ exists h f, t = Packaged h f) /\
       (forall h, In h (handles (pops ev)) -> spent h s))
    popped_once_step sched (construct threads) [] s ev) as X.
  cbn [app] in X. destruct X as (Hown & Hhist & Hnd & Hsub & _); auto.
  { destruct (history_ok_run threads [] (construct threads) [] eq_refl) as [Ho Hh].
    split; [exact Ho|]. split; [exact Hh|]. cbn.
    split; [constructor|]. split; contradiction. }
  split; [exact Hnd|].
  intros w t Hin.
  destruct (Hsub t) as [Hp Hk]; [apply in_pops; eauto|].
  split; [exact Hk|now apply in_pushes].
Qed.

Lemma every_task_is_popped_at_most_once_witness :
  run (two_queued_sched ++ pop_both_sched) (construct 1) =
    Some (after (two_queued_sched ++ pop_both_sched) (construct 1),
          trace (two_queued_sched ++ pop_both_sched) (construct 1)) /\
  pops (trace (two_queued_sched ++ pop_both_sched) (construct 1)) =
    [Packaged 0 (Returns 1); Packaged 1 (Returns 2)] /\
  NoDup (handles (pops (trace (two_queued_sched ++ pop_both_sched) (construct 1)))).
Proof.
  assert (H : run (two_queued_sched ++ pop_both_sched) (construct 1) =
              Some (after (two_queued_sched ++ pop_both_sched) (construct 1),
                    trace (two_queued_sched ++ pop_both_sched) (construct 1)))
    by (vm_compute; reflexivity).
  split; [exact H|]. split; [vm_compute; reflexivity|].
  exact (proj1 (every_task_is_popped_at_most_once 1 _ _ _ H)).
Defined.

(** ** How futures get ready *)

Lemma nth_error_set_nth_cases {A} (l : list A) i j v x :
  nth_error (set_nth i v l) j = Some x ->
  (j = i /\ x = v) \/ (j <> i /\ nth_error l j = Some x).
Proof.
  destruct (Nat.eq_dec j i) as [->|Hne].
  - intros H. left. split; [reflexivity|].
    destruct (nth_error l i) as [y|] eqn:E.
    + rewrite (nth_error_set_nth_same _ _ v _ E) in H. congruence.
    + assert (length (set_nth i v l) <= i)
        by (rewrite length_set_nth; now apply nth_error_None).
      apply nth_error_None in H0. congruence.
  - intros H. right. split; [exact Hne|].
    now rewrite nth_error_set_nth_other in H.
Qed.

Lemma abandon_ready q st h r :
  nth_error (fold_right abandon1 st q) h = Some (Ready r) ->
  nth_error st h = Some (Ready r).
Proof.
  induction q as [|t q IH]; cbn [fold_right]; [auto|].
  destruct t as [h' f|]; cbn [abandon1]; [|exact IH].
  destruct (nth_error (fold_right abandon1 st q) h') as [[| |]|]; try exact IH.
  intros H. apply nth_error_set_nth_cases in H.
  destruct H as [[_ H]|[_ H]]; [discriminate|auto].
Qed.

Lemma w_task_step a s s' e w t :
  step a s = Some (s', e) ->
  w_task (wpc s' w) = Some t ->
  w_task (wpc s w) = Some t \/ exists q, tasks s = t :: q.
Proof.
  intros H Hw.
  destruct a as [c o|[w0|c] pick|w0]; step_inv H; cbn in Hw; auto.
  all: try (upd_cases; cbn in Hw; try discriminate; auto;
            try (rewrite_pcs; cbn; auto; fail)).
  all: try (destruct (wpc s w); cbn in Hw |- *; auto; discriminate).
  injection Hw as <-. eauto.
Qed.

Lemma ready_step a s s' e h r :
  step a s = Some (s', e) ->
  nth_error (store s') h = Some (Ready r) ->
  nth_error (store s) h = Some (Ready r) \/
  exists w, wpc s w = WInvoke (Packaged h r).
Proof.
  intros H Hr.
  destruct a as [c o|[w0|c] pick|w0]; step_inv H; cbn in Hr; auto.
  all: try (apply abandon_ready in Hr; auto; fail).
  all: try (apply nth_error_set_nth_cases in Hr;
            destruct Hr as [[-> Hr]|[_ Hr]]; [|auto];
            try discriminate; injection Hr as <-; eauto; fail).
  left. assert (h < length (store s)).
  { destruct (Nat.lt_ge_cases h (length (store s))) as [|Hge]; [assumption|].
    destruct (Nat.eq_dec h (length (store s))) as [->|Hne].
    - rewrite nth_error_snoc in Hr. discriminate.
    - assert (X : nth_error (store s ++ [Pending]) h = None)
        by (apply nth_error_None; rewrite length_app; cbn; lia).
      congruence. }
  now rewrite nth_error_app1 in Hr.
Qed.

Lemma packaged_inj l h f r :
  NoDup (handles l) -> In (Packaged h f) l -> In (Packaged h r) l -> f = r.
Proof.
  induction l as [|t l IH]; [contradiction|].
  destruct t as [h' f'|r'].
  - rewrite handles_packaged. intros Hnd [Hf|Hf] [Hr|Hr].
    + congruence.
    + injection Hf as -> ->. apply NoDup_cons_iff in Hnd. destruct Hnd as [Hn _].
      destruct Hn. apply in_handles. eauto.
    + injection Hr as -> ->. apply NoDup_cons_iff in Hnd. destruct Hnd as [Hn _].
      destruct Hn. apply in_handles. eauto.
    + apply NoDup_cons_iff in Hnd. destruct Hnd as [_ Hnd]. auto.
  - rewrite handles_plain. intros Hnd [Hf|Hf] [Hr|Hr]; try discriminate. auto.
Qed.

(** * The constructor *)

Lemma set_nth_middle {A} (l : list A) x v r :
  set_nth (length l) v (l ++ x :: r) = l ++ v :: r.
Proof. induction l as [|y l IH]; simpl; [reflexivity|now rewrite IH]. Qed.

Lemma NoDup_map_Some {A} (l : list A) : NoDup l -> NoDup (map Some l).
Proof.
  induction 1 as [|x l Hx Hnd IH]; cbn; constructor; auto.
  rewrite in_map_iff. intros (y & [= ->] & Hy). contradiction.
Qed.

Lemma spawn_each_seq lim m :
  forall i s,
    workers s = map Some (seq 0 i) ++ repeat None m ->
    spawned s = i ->
    i + m <= max_threads lim ->
    (forall w, wpc s w = if Nat.ltb w i then WLock else WNotStarted) ->
    exists s',
      spawn_each lim (seq i m) s = Some s' /\
      workers s' = map Some (seq 0 (i + m)) /\
      spawned s' = i + m /\
      (forall w, wpc s' w = if Nat.ltb w (i + m) then WLock else WNotStarted) /\
      tasks s' = tasks s /\ stop s' = stop s /\ queue_mutex s' = queue_mutex s /\
      cpc s' = cpc s /\ store s' = store s /\ cerr s' = cerr s.
Proof.
  induction m as [|m IH]; intros i s Hws Hsp Hmax Hw.
  - exists s. rewrite Nat.add_0_r. cbn in Hws. rewrite app_nil_r in Hws. auto 10.
  - cbn [seq spawn_each].
    rewrite Hsp, (proj2 (Nat.ltb_lt i (max_threads lim))) by lia.
    set (s1 := set_workers (set_nth i (Some (spawned s)) (workers s))
                 (set_wpc (upd (wpc s) (spawned s) WLock)
                    (set_spawned (S (spawned s)) s))).
    assert (H1 : spawn_into i s = Some (tt, s1, [])) by reflexivity.
    destruct (IH (S i) s1) as (s' & H2 & Hws' & Hsp' & Hw' & Hrest).
    + subst s1. cbn [workers set_workers]. rewrite Hws, Hsp. cbn [repeat].
      replace i with (length (map Some (seq 0 i))) at 1
        by (now rewrite length_map, length_seq).
      rewrite set_nth_middle, seq_S, map_app, <- app_assoc. reflexivity.
    + subst s1. norm. now rewrite Hsp.
    + lia.
    + intros w. subst s1. norm. rewrite Hsp. unfold upd.
      destruct (Nat.eqb_spec w i) as [->|Hne].
      * now rewrite (proj2 (Nat.ltb_lt i (S i))) by lia.
      * rewrite Hw. destruct (Nat.ltb_spec w i), (Nat.ltb_spec w (S i)); auto; lia.
    + exists s'. rewrite H1, H2.
      replace (i + S m) with (S i + m) by lia.
      split; [reflexivity|]. split; [exact Hws'|]. split; [exact Hsp'|].
      split; [exact Hw'|]. exact Hrest.
Qed.

(** The loop stops at the first thread that cannot be started. *)
Lemma spawn_each_fails lim m :
  forall i s,
    spawned s <= max_threads lim ->
    max_threads lim < spawned s + m ->
    spawn_each lim (seq i m) s = None.
Proof.
  induction m as [|m IH]; intros i s Hle Hlt; [lia|].
  cbn [seq spawn_each].
  destruct (Nat.ltb_spec (spawned s) (max_threads lim)) as [Hs|Hs]; [|reflexivity].
  change (spawn_into i s) with
    (Some (tt, set_workers (set_nth i (Some (spawned s)) (workers s))
                 (set_wpc (upd (wpc s) (spawned s) WLock)
                    (set_spawned (S (spawned s)) s)), @nil event)).
  apply IH; cbn [spawned set_workers set_wpc set_spawned]; lia.
Qed.

(** X13: the body of the constructor (lines 66-93), run on the freshly
    initialised members.  When the vector can be given [threads] slots and
    the system starts [threads] threads, it starts exactly [threads] worker
    threads, one in each slot of [workers], all different and each at the
    top of its loop; [stop] is clear, the queue is empty and the mutex is
    free: this is the state [construct threads] in which every run of the
    pool begins.  When [workers.resize] or a thread creation throws, the
    exception leaves the [noexcept] constructor and the program is
    terminated. *)
Theorem constructor_starts_one_worker_per_slot lim threads :
  (threads <= max_slots lim -> threads <= max_threads lim ->
   exists s,
     ThreadPool_ctor lim threads members_initialised = Constructed s /\
     workers s = map Some (seq 0 threads) /\
     length (workers s) = threads /\
     NoDup (workers s) /\
     workers s = workers (construct threads) /\
     (forall w, wpc s w = wpc (construct threads) w) /\
     (forall w, wpc s w = WLock <-> w < threads) /\
     spawned s = threads /\
     tasks s = [] /\ stop s = false /\ queue_mutex s = None /\
     store s = [] /\ cerr s = [] /\ (forall c, cpc s c = Idle)) /\
  (max_slots lim < threads \/ max_threads lim < threads ->
   ThreadPool_ctor lim threads members_initialised = CtorTerminates).
Proof.
  assert (Hres : threads <= max_slots lim ->
                 vector_resize lim threads [] = Some (repeat None threads)).
  { intros Hle. unfold vector_resize. cbn [length].
    destruct (Nat.leb_spec threads 0) as [H0|H0].
    - assert (threads = 0) by lia. subst. reflexivity.
    - destruct (Nat.leb_spec threads (max_slots lim)); [|lia].
      now rewrite Nat.sub_0_r. }
  split.
  - intros Hslots Hthreads.
    destruct (spawn_each_seq lim threads 0
                (set_workers (repeat None threads) members_initialised))
      as (s & H & Hws & Hsp & Hw & Ht & Hs & Hm & Hc & Hst & Hce);
      [reflexivity|reflexivity|exact Hthreads|intros w; reflexivity|].
    exists s. cbn [Nat.add] in *. split.
    + unfold ThreadPool_ctor. cbn [workers members_initialised].
      rewrite (Hres Hslots), repeat_length, H. reflexivity.
    + split; [exact Hws|]. split; [now rewrite Hws, length_map, length_seq|].
      split; [rewrite Hws; apply NoDup_map_Some, seq_NoDup|].
      split; [exact Hws|]. split; [exact Hw|]. split.
      * intros w. rewrite Hw. destruct (Nat.ltb_spec w threads); split; auto;
          try discriminate; lia.
      * rewrite Hc, Ht, Hs, Hm, Hst, Hce. auto 10.
  - intros Hover. unfold ThreadPool_ctor. cbn [workers members_initialised].
    destruct (Nat.le_gt_cases threads (max_slots lim)) as [Hle|Hgt].
    + rewrite (Hres Hle), repeat_length.
      rewrite spawn_each_fails; [reflexivity| |];
        cbn [spawned set_workers members_initialised]; lia.
    + unfold vector_resize. cbn [length].
      destruct (Nat.leb_spec threads 0); [lia|].
      destruct (Nat.leb_spec threads (max_slots lim)); [lia|reflexivity].
Qed.

Lemma constructor_starts_one_worker_per_slot_witness :
  (exists s,
     ThreadPool_ctor {| max_slots := 8; max_threads := 2 |} 2 members_initialised =
       Constructed s /\
     workers s = [Some 0; Some 1] /\ wpc s 1 = WLock /\ wpc s 2 = WNotStarted) /\
  ThreadPool_ctor {| max_slots := 8; max_threads := 2 |} 3 members_initialised =
    CtorTerminates /\
  ThreadPool_ctor {| max_slots := 8; max_threads := 20 |} 9 members_initialised =
    CtorTerminates.
Proof.
  split; [|split].
  - destruct (proj1 (constructor_starts_one_worker_per_slot
                       {| max_slots := 8; max_threads := 2 |} 2))
      as (s & H1 & H2 & _ & _ & _ & H3 & _); [cbn; lia|cbn; lia|].
    exists s. split; [exact H1|]. split; [exact H2|].
    split; rewrite H3; reflexivity.
  - apply (proj2 (constructor_starts_one_worker_per_slot
                    {| max_slots := 8; max_threads := 2 |} 3)).
    right. cbn. lia.
  - apply (proj2 (constructor_starts_one_worker_per_slot
                    {| max_slots := 8; max_threads := 20 |} 9)).
    left. cbn. lia.
Defined.

(** * Shutdown *)

Lemma worker_pred_stop_step s w pick :
  wpc s w = WPred ->
  stop s = true ->
  step (Step (Worker w) pick) s =
  Some (set_wpc (upd (wpc s) w WExitCheck) s,
        [EvAccess (Worker w) VStop Rd (holds (Worker w) s);
         EvAccess (Worker w) VTasks Rd (holds (Worker w) s)]).
Proof. intros H Hs. run_stmt. reflexivity. Qed.

Lemma worker_return_step s w pick :
  wpc s w = WExitCheck ->
  stop s = true ->
  tasks s = [] ->
  step (Step (Worker w) pick) s =
  Some (set_wpc (upd (wpc s) w WReturned) (set_mutex None s),
        [EvAccess (Worker w) VStop Rd (holds (Worker w) s);
         EvAccess (Worker w) VTasks Rd (holds (Worker w) s)]).
Proof. intros H Hs Hq. run_stmt. reflexivity. Qed.

(** A worker that takes the lock with [stop] set and the queue empty
    returns (line 76). *)
Lemma worker_exits s w pick :
  wpc s w = WLock \/ wpc s w = WWoken ->
  queue_mutex s = None ->
  stop s = true ->
  tasks s = [] ->
  exists s' ev,
    run (repeat (Step (Worker w) pick) 3) s = Some (s', ev) /\
    wpc s' w = WReturned /\
    (forall w', w' <> w -> wpc s' w' = wpc s w') /\
    queue_mutex s' = None /\ tasks s' = [] /\ stop s' = true /\
    workers s' = workers s /\ store s' = store s /\ cpc s' = cpc s /\
    cerr s' = cerr s /\ spawned s' = spawned s /\
    pops ev = [] /\ pushes ev = [].
Proof.
  intros Hw Hm Hs Hq. cbn [repeat run].
  rewrite (worker_lock_step s w pick Hw Hm). norm.
  erewrite worker_pred_stop_step by side. norm.
  erewrite worker_return_step by side. norm.
  eexists _, _. split; [reflexivity|]. norm. rewrite !upd_same.
  split; [reflexivity|]. split; [intros w' Hne; now rewrite !upd_other|].
  auto 15.
Qed.

(** A worker that takes the lock with [stop] clear and the queue empty
    blocks in [wait] (line 75). *)
Lemma idle_worker_sleeps s w pick :
  wpc s w = WLock \/ wpc s w = WWoken ->
  queue_mutex s = None ->
  stop s = false ->
  tasks s = [] ->
  exists s' ev,
    run (repeat (Step (Worker w) pick) 3) s = Some (s', ev) /\
    wpc s' w = WWaiting /\
    (forall w', w' <> w -> wpc s' w' = wpc s w') /\
    queue_mutex s' = None /\ tasks s' = [] /\ stop s' = false /\
    workers s' = workers s /\ store s' = store s /\ cpc s' = cpc s /\
    cerr s' = cerr s /\ pops ev = [].
Proof.
  intros Hw Hm Hs Hq. cbn [repeat run].
  rewrite (worker_lock_step s w pick Hw Hm). norm.
  erewrite worker_pred_idle_step by side. norm.
  erewrite worker_enter_wait_step by side. norm.
  eexists _, _. split; [reflexivity|]. norm. rewrite !upd_same.
  split; [reflexivity|]. split; [intros w' Hne; now rewrite !upd_other|].
  auto 15.
Qed.

Lemma repeat_add {A} (x : A) n m : repeat x (n + m) = repeat x n ++ repeat x m.
Proof. induction n; cbn; [reflexivity|now rewrite IHn]. Qed.

(** The loop run by one worker on a queue of packaged tasks that have not
    been called: six statements per task. *)
Lemma worker_runs_all q :
  forall s w pick,
    wpc s w = WLock \/ wpc s w = WWoken ->
    queue_mutex s = None ->
    tasks s = q ->
    NoDup (handles q) ->
    (forall t, In t q -> exists h f, t = Packaged h f /\
                                    nth_error (store s) h = Some Pending) ->
    exists s' ev,
      run (repeat (Step (Worker w) pick) (6 * length q)) s = Some (s', ev) /\
      pops ev = q /\ pushes ev = [] /\
      tasks s' = [] /\
      (forall h f, In (Packaged h f) q -> nth_error (store s') h = Some (Ready f)) /\
      (forall h, ~ In h (handles q) -> nth_error (store s') h = nth_error (store s) h) /\
      length (store s') = length (store s) /\
      (wpc s' w = WLock \/ wpc s' w = WWoken) /\
      (forall w', w' <> w -> wpc s' w' = wpc s w') /\
      queue_mutex s' = None /\ stop s' = stop s /\ cpc s' = cpc s /\
      cerr s' = cerr s /\ workers s' = workers s /\ spawned s' = spawned s.
Proof.
  induction q as [|t q IH]; intros s w pick Hw Hm Hq Hnd Hp.
  - exists s, []. cbn. split; [reflexivity|]. repeat split; auto; contradiction.
  - destruct (Hp t (or_introl eq_refl)) as (h & f & -> & Hh).
    rewrite handles_packaged in Hnd. apply NoDup_cons_iff in Hnd.
    destruct Hnd as [Hnotin Hnd].
    destruct (worker_runs_one_task s w pick h f q Hw Hm Hq Hh)
      as (s1 & e1 & R1 & Ht1 & Hst1 & Hw1 & Ho1 & Hm1 & Hs1 & Hc1 & He1 & Hws1 & Hsp1 & Hpop1 & Hpush1).
    destruct (IH s1 w pick (or_introl Hw1) Hm1 Ht1 Hnd)
      as (s2 & e2 & R2 & Hpop2 & Hpush2 & Ht2 & Hr2 & Hk2 & Hl2 & Hw2 & Ho2 & Hm2 & Hs2 & Hc2 & He2 & Hws2 & Hsp2).
    { intros t Ht. destruct (Hp t (or_intror Ht)) as (h' & f' & -> & Hh').
      exists h', f'. split; [reflexivity|]. rewrite Hst1.
      rewrite nth_error_set_nth_other; [exact Hh'|].
      intros ->. apply Hnotin. apply in_handles. eauto. }
    replace (6 * length (Packaged h f :: q)) with (6 + 6 * length q) by (cbn [length]; lia).
    rewrite repeat_add, run_app, R1, R2.
    eexists _, _. split; [reflexivity|].
    rewrite pops_app, pushes_app, Hpop1, Hpush1, Hpop2, Hpush2.
    split; [reflexivity|]. split; [reflexivity|]. split; [exact Ht2|].
    split; [|split; [|split]].
    + intros h' f' [[= -> ->]|Hin].
      * rewrite Hk2 by exact Hnotin. rewrite Hst1.
        eapply nth_error_set_nth_same; eauto.
      * now apply Hr2.
    + intros h' Hh'. rewrite handles_packaged in Hh'.
      rewrite Hk2 by (intros X; apply Hh'; now right).
      rewrite Hst1. apply nth_error_set_nth_other.
      intros ->. apply Hh'. now left.
    + rewrite Hl2, Hst1. apply length_set_nth.
    + split; [exact Hw2|].
      split; [intros w' Hne; rewrite Ho2, Ho1; auto|].
      split; [exact Hm2|]. repeat split; congruence.
Qed.

(** X14: one worker empties the queue.  Starting at the top of the loop
    with the mutex free, a worker facing a queue of tasks that have not
    been called pops them front to back, six statements per task, and makes
    every future ready with the outcome of its own callable; this is so
    whether or not [stop] is set.  With the queue empty it then returns
    (line 76) if [stop] is set, and blocks in [wait] (line 75) otherwise. *)
Theorem worker_drains_the_queue s w pick :
  wpc s w = WLock ->
  queue_mutex s = None ->
  NoDup (handles (tasks s)) ->
  (forall t, In t (tasks s) ->
     exists h f, t = Packaged h f /\ nth_error (store s) h = Some Pending) ->
  exists s' ev,
    run (repeat (Step (Worker w) pick) (6 * length (tasks s) + 3)) s = Some (s', ev) /\
    pops ev = tasks s /\
    tasks s' = [] /\
    (forall h f, In (Packaged h f) (tasks s) -> nth_error (store s') h = Some (Ready f)) /\
    (forall h, ~ In h (handles (tasks s)) ->
       nth_error (store s') h = nth_error (store s) h) /\
    wpc s' w = (if stop s then WReturned else WWaiting) /\
    (forall w', w' <> w -> wpc s' w' = wpc s w') /\
    queue_mutex s' = None /\ stop s' = stop s /\ cerr s' = cerr s /\
    workers s' = workers s /\ cpc s' = cpc s.
Proof.
  intros Hw Hm Hnd Hp.
  destruct (worker_runs_all (tasks s) s w pick (or_introl Hw) Hm eq_refl Hnd Hp)
    as (s1 & e1 & R1 & Hpop1 & Hpush1 & Ht1 & Hr1 & Hk1 & Hl1 & Hw1 & Ho1 & Hm1 & Hs1 & Hc1 & He1 & Hws1 & Hsp1).
  rewrite repeat_add, run_app, R1.
  destruct (stop s) eqn:Hs.
  - destruct (worker_exits s1 w pick Hw1 Hm1)
      as (s2 & e2 & R2 & Hw2 & Ho2 & Hm2 & Ht2 & Hs2 & Hws2 & Hst2 & Hc2 & He2 & Hsp2 & Hpop2 & Hpush2);
      [congruence|exact Ht1|].
    rewrite R2. eexists _, _. split; [reflexivity|].
    rewrite pops_app, Hpop1, Hpop2, app_nil_r.
    split; [reflexivity|]. split; [exact Ht2|].
    split; [intros h f Hin; rewrite Hst2; now apply Hr1|].
    split; [intros h Hh; rewrite Hst2; now apply Hk1|].
    split; [exact Hw2|].
    split; [intros w' Hne; rewrite Ho2, Ho1; auto|].
    split; [exact Hm2|]. repeat split; congruence.
  - destruct (idle_worker_sleeps s1 w pick Hw1 Hm1)
      as (s2 & e2 & R2 & Hw2 & Ho2 & Hm2 & Ht2 & Hs2 & Hws2 & Hst2 & Hc2 & He2 & Hpop2);
      [congruence|exact Ht1|].
    rewrite R2. eexists _, _. split; [reflexivity|].
    rewrite pops_app, Hpop1, Hpop2, app_nil_r.
    split; [reflexivity|]. split; [exact Ht2|].
    split; [intros h f Hin; rewrite Hst2; now apply Hr1|].
    split; [intros h Hh; rewrite Hst2; now apply Hk1|].
    split; [exact Hw2|].
    split; [intros w' Hne; rewrite Ho2, Ho1; auto|].
    split; [exact Hm2|]. repeat split; congruence.
Qed.

Lemma worker_drains_the_queue_witness :
  exists s' ev,
    run (repeat (Step (Worker 0) 0) 15) two_queued = Some (s', ev) /\
    pops ev = [Packaged 0 (Returns 1); Packaged 1 (Returns 2)] /\
    tasks s' = [] /\
    nth_error (store s') 1 = Some (Ready (Returns 2)) /\
    wpc s' 0 = WWaiting.
Proof.
  destruct (worker_drains_the_queue two_queued 0 0 eq_refl eq_refl)
    as (s' & ev & H1 & H2 & H3 & H4 & _ & H5 & _).
  - vm_compute. repeat constructor; cbn; intuition discriminate.
  - vm_compute. intros t [<-|[<-|[]]]; eauto.
  - exists s', ev. split; [exact H1|]. split; [exact H2|]. split; [exact H3|].
    split; [|exact H5]. apply H4. vm_compute. right. left. reflexivity.
Defined.

(** ** The destructor *)

Lemma dtor_set_stop_step s c pick :
  cpc s c = DtorSetStop ->
  step (Step (Caller c) pick) s =
  Some (set_cpc (upd (cpc s) c DtorNotifyAll) (set_stop true s),
        [EvAccess (Caller c) VStop Wr (holds (Caller c) s)]).
Proof. intros H. run_stmt. reflexivity. Qed.

Lemma dtor_notify_all_step s c pick :
  cpc s c = DtorNotifyAll ->
  step (Step (Caller c) pick) s =
  Some (set_cpc (upd (cpc s) c (DtorJoin 0))
          (set_wpc (fun w => if is_waiting (wpc s w) then WWoken else wpc s w) s), []).
Proof. intros H. run_stmt. reflexivity. Qed.

Lemma dtor_join_step s c i w pick :
  cpc s c = DtorJoin i ->
  nth_error (workers s) i = Some (Some w) ->
  wpc s w = WReturned ->
  step (Step (Caller c) pick) s =
  Some (set_cpc (upd (cpc s) c (DtorJoin (S i)))
          (set_workers (set_nth i None (workers s)) s), []).
Proof.
  intros H Hi Hw. unfold step. autounfold with stmt. cbv beta iota. rewrite H.
  cbv beta iota. rewrite Hi. cbv beta iota. rewrite Hw. reflexivity.
Qed.

Lemma dtor_end_step s c i pick :
  cpc s c = DtorJoin i ->
  nth_error (workers s) i = None ->
  tasks s = [] ->
  step (Step (Caller c) pick) s =
  Some (set_cpc (upd (cpc s) c Idle) (set_tasks [] s), [EvReturn c 105]).
Proof.
  intros H Hi Hq. unfold step. autounfold with stmt. cbv beta iota. rewrite H.
  cbv beta iota. rewrite Hi. cbv beta iota. rewrite Hq. reflexivity.
Qed.

(** Lines 97 and 99. *)
Lemma dtor_begin s c :
  cpc s c = Idle ->
  exists s' ev,
    run [Invoke c OpDestroy; Step (Caller c) 0; Step (Caller c) 0] s = Some (s', ev) /\
    cpc s' c = DtorJoin 0 /\
    (forall c', c' <> c -> cpc s' c' = cpc s c') /\
    (forall w, wpc s' w = if is_waiting (wpc s w) then WWoken else wpc s w) /\
    stop s' = true /\ tasks s' = tasks s /\ workers s' = workers s /\
    queue_mutex s' = queue_mutex s /\ store s' = store s /\ cerr s' = cerr s /\
    pops ev = [] /\ pushes ev = [].
Proof.
  intros Hc. cbn [run].
  assert (H0 : step (Invoke c OpDestroy) s =
               Some (set_cpc (upd (cpc s) c DtorSetStop) s, []))
    by (unfold step; now rewrite Hc).
  rewrite H0. clear H0.
  erewrite dtor_set_stop_step by side. norm.
  erewrite dtor_notify_all_step by side. norm.
  eexists _, _. split; [reflexivity|]. norm. rewrite !upd_same.
  split; [reflexivity|]. split; [intros c' Hne; now rewrite !upd_other|].
  do 8 (split; [reflexivity|]). reflexivity.
Qed.

(** Every worker in [ids], one after the other, takes the lock, sees
    [stop] set and the queue empty, and returns. *)
Lemma workers_exit ids :
  forall s,
    NoDup ids ->
    queue_mutex s = None ->
    stop s = true ->
    tasks s = [] ->
    (forall w, In w ids -> wpc s w = WLock \/ wpc s w = WWoken) ->
    exists s' ev,
      run (flat_map (fun w => repeat (Step (Worker w) 0) 3) ids) s = Some (s', ev) /\
      (forall w, In w ids -> wpc s' w = WReturned) /\
      (forall w, ~ In w ids -> wpc s' w = wpc s w) /\
      queue_mutex s' = None /\ tasks s' = [] /\ stop s' = true /\
      workers s' = workers s /\ store s' = store s /\ cpc s' = cpc s /\
      cerr s' = cerr s /\ pops ev = [] /\ pushes ev = [].
Proof.
  induction ids as [|w ids IH]; intros s Hnd Hm Hs Hq Hw.
  - exists s, []. cbn. repeat split; auto; contradiction.
  - apply NoDup_cons_iff in Hnd. destruct Hnd as [Hnotin Hnd].
    destruct (worker_exits s w 0 (Hw w (or_introl eq_refl)) Hm Hs Hq)
      as (s1 & e1 & R1 & Hw1 & Ho1 & Hm1 & Ht1 & Hs1 & Hws1 & Hst1 & Hc1 & He1 & _ & Hpop1 & Hpush1).
    destruct (IH s1 Hnd Hm1 Hs1 Ht1)
      as (s2 & e2 & R2 & Hw2 & Ho2 & Hm2 & Ht2 & Hs2 & Hws2 & Hst2 & Hc2 & He2 & Hpop2 & Hpush2).
    { intros w' Hin. rewrite Ho1; [apply Hw; now right|]. intros ->. contradiction. }
    cbn [flat_map]. rewrite run_app, R1, R2.
    eexists _, _. split; [reflexivity|].
    split; [|split].
    + intros w' [<-|Hin]; [|auto]. rewrite Ho2; auto.
    + intros w' Hn. rewrite Ho2, Ho1; auto.
      * intros ->. apply Hn. now left.
      * intros Hin. apply Hn. now right.
    + rewrite pops_app, pushes_app, Hpop1, Hpop2, Hpush1, Hpush2.
      split; [exact Hm2|]. split; [exact Ht2|]. split; [exact Hs2|].
      split; [congruence|]. split; [congruence|]. split; [congruence|].
      split; [congruence|]. split; reflexivity.
Qed.

Lemma nth_error_middle {A} (l : list A) x r : nth_error (l ++ x :: r) (length l) = Some x.
Proof. rewrite nth_error_app2, Nat.sub_diag by lia. reflexivity. Qed.

(** The join loop of lines 100-104 on workers that have all returned. *)
Lemma join_loop c rest :
  forall pre s,
    cpc s c = DtorJoin (length pre) ->
    workers s = pre ++ map Some rest ->
    (forall w, In w rest -> wpc s w = WReturned) ->
    tasks s = [] ->
    exists s' ev,
      run (repeat (Step (Caller c) 0) (S (length rest))) s = Some (s', ev) /\
      cpc s' c = Idle /\
      (forall c', c' <> c -> cpc s' c' = cpc s c') /\
      In (EvReturn c 105) ev /\
      workers s' = pre ++ map (fun _ => None) rest /\
      wpc s' = wpc s /\ tasks s' = [] /\ store s' = store s /\
      stop s' = stop s /\ queue_mutex s' = queue_mutex s /\ cerr s' = cerr s /\
      pops ev = [] /\ pushes ev = [].
Proof.
  induction rest as [|w rest IH]; intros pre s Hc Hws Hw Hq.
  - cbn [length repeat run].
    erewrite dtor_end_step; [ | exact Hc | | exact Hq ].
    + eexists _, _. split; [reflexivity|]. norm. rewrite upd_same.
      split; [reflexivity|]. split; [intros c' Hne; now rewrite upd_other|].
      split; [now left|]. cbn [map] in *. auto 10.
    + rewrite Hws. cbn [map]. rewrite app_nil_r. apply nth_error_None. lia.
  - cbn [length repeat run].
    erewrite dtor_join_step;
      [ | exact Hc | rewrite Hws; cbn [map]; apply nth_error_middle
        | apply Hw; now left ].
    destruct (IH (pre ++ [None])
                (set_cpc (upd (cpc s) c (DtorJoin (S (length pre))))
                   (set_workers (set_nth (length pre) None (workers s)) s)))
      as (s' & ev & R & Hc' & Ho' & Hret & Hws' & Hw' & Hq' & Hst' & Hs' & Hm' & He' & Hpop & Hpush).
    + norm. rewrite upd_same, length_app. cbn [length]. f_equal. lia.
    + norm. rewrite Hws. cbn [map]. rewrite set_nth_middle, <- app_assoc. reflexivity.
    + intros w' Hin. norm. apply Hw. now right.
    + exact Hq.
    + cbn [repeat run] in R. rewrite R.
      eexists _, _. split; [reflexivity|].
      split; [exact Hc'|].
      split; [intros c' Hne; rewrite Ho' by exact Hne; norm; now rewrite upd_other|].
      split; [exact Hret|].
      split; [rewrite Hws', <- app_assoc; reflexivity|].
      auto 10.
Qed.

(** X15: an idle pool can be destroyed.  This is a statement about one
    interleaving, [destroy_sched c ids], not about all of them.  From a
    state with the queue empty, the mutex free and every worker blocked in
    [wait] or about to take the lock, the run in which the caller executes
    lines 97 and 99 back to back, then each worker in turn takes the lock,
    finds [stop] set and the queue empty and returns (line 76), and then
    the caller runs the join loop (lines 100-104), is a run of the code and
    ends with the destructor returned.  Along it no task is popped and the
    shared states of the futures are untouched.  Nothing is said here about
    the other interleavings; the destructor writes [stop] without the
    mutex, and a worker that has tested the predicate of [wait] but not yet
    blocked sleeps through the [notify_all] of line 99. *)
Theorem destructor_of_idle_pool_returns s c ids :
  cpc s c = Idle ->
  queue_mutex s = None ->
  tasks s = [] ->
  workers s = map Some ids ->
  NoDup ids ->
  (forall w, In w ids -> wpc s w = WWaiting \/ wpc s w = WLock) ->
  exists s' ev,
    run (destroy_sched c ids) s = Some (s', ev) /\
    In (EvReturn c 105) ev /\
    cpc s' c = Idle /\
    (forall w, In w ids -> wpc s' w = WReturned) /\
    (forall w, ~ In w ids -> wpc s' w = if is_waiting (wpc s w) then WWoken else wpc s w) /\
    workers s' = map (fun _ => None) ids /\
    stop s' = true /\ tasks s' = [] /\ queue_mutex s' = None /\
    store s' = store s /\ cerr s' = cerr s /\
    pops ev = [] /\ pushes ev = [].
Proof.
  intros Hc Hm Hq Hws Hnd Hw. unfold destroy_sched.
  destruct (dtor_begin s c Hc)
    as (s1 & e1 & R1 & Hc1 & Ho1 & Hw1 & Hs1 & Ht1 & Hws1 & Hm1 & Hst1 & He1 & Hpop1 & Hpush1).
  destruct (workers_exit ids s1 Hnd)
    as (s2 & e2 & R2 & Hw2 & Ho2 & Hm2 & Ht2 & Hs2 & Hws2 & Hst2 & Hc2 & He2 & Hpop2 & Hpush2);
    [congruence|exact Hs1|congruence| |].
  { intros w Hin. rewrite Hw1. destruct (Hw w Hin) as [-> | ->]; cbn; auto. }
  destruct (join_loop c ids [] s2)
    as (s3 & e3 & R3 & Hc3 & Ho3 & Hret & Hws3 & Hw3 & Ht3 & Hst3 & Hs3 & Hm3 & He3 & Hpop3 & Hpush3);
    [cbn; congruence|cbn; congruence|exact Hw2|exact Ht2|].
  rewrite run_app, R1, run_app, R2, R3.
  eexists _, _. split; [reflexivity|].
  split; [apply in_or_app; right; apply in_or_app; now right|].
  split; [exact Hc3|].
  split; [intros w Hin; rewrite Hw3; auto|].
  split; [intros w Hn; rewrite Hw3, Ho2, Hw1; auto|].
  split; [exact Hws3|].
  rewrite !pops_app, !pushes_app, Hpop1, Hpop2, Hpop3, Hpush1, Hpush2, Hpush3.
  repeat split; congruence.
Qed.

Lemma destructor_of_idle_pool_returns_witness :
  let s := after (repeat (Step (Worker 0) 0) 3) (construct 2) in
  wpc s 0 = WWaiting /\ wpc s 1 = WLock /\
  exists s' ev,
    run (destroy_sched 0 [0; 1]) s = Some (s', ev) /\
    In (EvReturn 0 105) ev /\
    wpc s' 0 = WReturned /\ wpc s' 1 = WReturned /\
    workers s' = [None; None].
Proof.
  cbv zeta. split; [reflexivity|]. split; [reflexivity|].
  destruct (destructor_of_idle_pool_returns
              (after (repeat (Step (Worker 0) 0) 3) (construct 2)) 0 [0; 1]
              eq_refl eq_refl eq_refl eq_refl)
    as (s' & ev & H1 & H2 & _ & H3 & _ & H4 & _).
  - repeat constructor; cbn; intuition discriminate.
  - intros w [<-|[<-|[]]]; [left|right]; reflexivity.
  - exists s', ev. split; [exact H1|]. split; [exact H2|].
    split; [apply H3; now left|]. split; [apply H3; right; now left|exact H4].
Defined.

(** X16: a pool that still has work can be destroyed without losing it.
    This is a statement about one interleaving,
    [destroy_busy_sched c w ids n] with [n] the number of queued tasks, not
    about all of them.  From a state with the mutex free and every worker
    blocked in [wait] or about to take the lock, the run in which the
    caller executes lines 97 and 99 back to back, then worker [w] alone
    pops the queued tasks front to back and calls each of them, then each
    worker in turn finds [stop] set and the queue empty and returns
    (line 76), and then the caller runs the join loop (lines 100-104), is a
    run of the code.  It ends with the destructor returned, the tasks popped
    in queue order, and every future ready with the outcome of its own
    callable.  Nothing is said here about the other interleavings. *)
Theorem destructor_lets_the_workers_finish_the_queue s c w ids :
  cpc s c = Idle ->
  queue_mutex s = None ->
  workers s = map Some ids ->
  NoDup ids ->
  In w ids ->
  (forall w', In w' ids -> wpc s w' = WWaiting \/ wpc s w' = WLock) ->
  NoDup (handles (tasks s)) ->
  (forall t, In t (tasks s) ->
     exists h f, t = Packaged h f /\ nth_error (store s) h = Some Pending) ->
  exists s' ev,
    run (destroy_busy_sched c w ids (length (tasks s))) s = Some (s', ev) /\
    In (EvReturn c 105) ev /\
    pops ev = tasks s /\
    (forall h f, In (Packaged h f) (tasks s) -> nth_error (store s') h = Some (Ready f)) /\
    (forall h, ~ In h (handles (tasks s)) ->
       nth_error (store s') h = nth_error (store s) h) /\
    (forall w', In w' ids -> wpc s' w' = WReturned) /\
    workers s' = map (fun _ => None) ids /\
    tasks s' = [] /\ stop s' = true /\ queue_mutex s' = None /\
    cpc s' c = Idle /\ cerr s' = cerr s.
Proof.
  intros Hc Hm Hws Hnd Hin Hw Hndq Hp. unfold destroy_busy_sched.
  destruct (dtor_begin s c Hc)
    as (s1 & e1 & R1 & Hc1 & Ho1 & Hw1 & Hs1 & Ht1 & Hws1 & Hm1 & Hst1 & He1 & Hpop1 & Hpush1).
  assert (Hw1' : forall w', In w' ids -> wpc s1 w' = WLock \/ wpc s1 w' = WWoken).
  { intros w' Hin'. rewrite Hw1. destruct (Hw w' Hin') as [-> | ->]; cbn; auto. }
  destruct (worker_runs_all (tasks s) s1 w 0 (Hw1' w Hin))
    as (s2 & e2 & R2 & Hpop2 & Hpush2 & Ht2 & Hr2 & Hk2 & Hl2 & Hw2 & Ho2 & Hm2 & Hs2 & Hc2 & He2 & Hws2 & Hsp2);
    [congruence|exact Ht1|exact Hndq| |].
  { intros t Ht. rewrite Hst1. auto. }
  destruct (workers_exit ids s2 Hnd Hm2)
    as (s3 & e3 & R3 & Hw3 & Ho3 & Hm3 & Ht3 & Hs3 & Hws3 & Hst3 & Hc3 & He3 & Hpop3 & Hpush3);
    [congruence|exact Ht2| |].
  { intros w' Hin'. destruct (Nat.eq_dec w' w) as [->|Hne]; [exact Hw2|].
    rewrite Ho2 by exact Hne. auto. }
  destruct (join_loop c ids [] s3)
    as (s4 & e4 & R4 & Hc4 & Ho4 & Hret & Hws4 & Hw4 & Ht4 & Hst4 & Hs4 & Hm4 & He4 & Hpop4 & Hpush4);
    [cbn; congruence|cbn; congruence|exact Hw3|exact Ht3|].
  rewrite run_app, R1, run_app, R2, run_app, R3, R4.
  eexists _, _. split; [reflexivity|].
  split; [do 3 (apply in_or_app; right); exact Hret|].
  split; [rewrite !pops_app, Hpop1, Hpop2, Hpop3, Hpop4, app_nil_r; reflexivity|].
  split; [intros h f Hin'; rewrite Hst4, Hst3; now apply Hr2|].
  split; [intros h Hh; rewrite Hst4, Hst3, Hk2, Hst1; auto|].
  split; [intros w' Hin'; rewrite Hw4; auto|].
  split; [exact Hws4|]. split; [exact Ht4|].
  repeat split; congruence.
Qed.

Lemma destructor_lets_the_workers_finish_the_queue_witness :
  exists s' ev,
    run (destroy_busy_sched 1 0 [0] 2) two_queued = Some (s', ev) /\
    In (EvReturn 1 105) ev /\
    pops ev = [Packaged 0 (Returns 1); Packaged 1 (Returns 2)] /\
    nth_error (store s') 0 = Some (Ready (Returns 1)) /\
    nth_error (store s') 1 = Some (Ready (Returns 2)) /\
    wpc s' 0 = WReturned.
Proof.
  destruct (destructor_lets_the_workers_finish_the_queue two_queued 1 0 [0]
              eq_refl eq_refl eq_refl)
    as (s' & ev & H1 & H2 & H3 & H4 & _ & H5 & _).
  - repeat constructor. intros [].
  - left. reflexivity.
  - intros w' [<-|[]]. right. reflexivity.
  - vm_compute. repeat constructor; cbn; intuition discriminate.
  - vm_compute. intros t [<-|[<-|[]]]; eauto.
  - exists s', ev. split; [exact H1|]. split; [exact H2|]. split; [exact H3|].
    split; [apply H4; vm_compute; left; reflexivity|].
    split; [apply H4; vm_compute; right; left; reflexivity|].
    apply H5. left. reflexivity.
Defined.

(** * What one statement can change *)

Ltac crunch :=
  cbn in *; try (upd_cases; cbn in * ); rewrite_pcs; cbn in *;
  rewrite ?andb_true_r, ?andb_false_r, ?orb_true_r, ?orb_false_r in *;
  try discriminate; try congruence; eauto.

Lemma returned_stays a s s' e w :
  (forall c, in_resize_or_clear (cpc s c) = false) ->
  step a s = Some (s', e) -> wpc s w = WReturned -> wpc s' w = WReturned.
Proof.
  intros Hn H Hw. destruct a as [c o|[w0|c] pick|w0]; step_inv H; crunch.
  all: try (at_caller Hn; discriminate).
  all: try (destruct (is_waiting (wpc s w)) eqn:X; [rewrite Hw in X; discriminate|auto]).
Qed.

Lemma returned_step a s s' e w :
  step a s = Some (s', e) ->
  wpc s' w = WReturned ->
  wpc s w = WReturned \/ (wpc s w = WExitCheck /\ stop s = true /\ tasks s = []).
Proof.
  intros H Hw. destruct a as [c o|[w0|c] pick|w0]; step_inv H; crunch.
  all: try (destruct (wpc s w) eqn:X; cbn in Hw; auto; discriminate).
  all: try (right; repeat split; auto).
Qed.

Lemma stop_stays a s s' e :
  (forall c, in_resize_or_clear (cpc s c) = false) ->
  step a s = Some (s', e) -> stop s = true -> stop s' = true.
Proof.
  intros Hn H Hs. destruct a as [c o|[w0|c] pick|w0]; step_inv H; crunch.
  all: at_caller Hn; discriminate.
Qed.

Lemma unstarted_stays a s s' e w :
  (forall c, in_resize_or_clear (cpc s c) = false) ->
  step a s = Some (s', e) -> wpc s w = WNotStarted -> wpc s' w = WNotStarted.
Proof.
  intros Hn H Hw. destruct a as [c o|[w0|c] pick|w0]; step_inv H; crunch.
  all: try (at_caller Hn; discriminate).
  all: try (destruct (is_waiting (wpc s w)) eqn:X; [rewrite Hw in X; discriminate|auto]).
Qed.

Lemma no_rc_step a s s' e :
  is_resize_or_clear a = false ->
  (forall c, in_resize_or_clear (cpc s c) = false) ->
  step a s = Some (s', e) ->
  forall c, in_resize_or_clear (cpc s' c) = false.
Proof.
  intros Ha Hn H c0. pose proof (Hn c0) as X0.
  destruct a as [c o|[w0|c] pick|w0]; step_inv H; crunch.
  all: try (destruct o; cbn in *; try discriminate; auto).
  all: try (at_caller Hn; discriminate).
Qed.

Lemma workers_step a s s' e :
  (forall c, in_resize_or_clear (cpc s c) = false) ->
  step a s = Some (s', e) ->
  workers s' = workers s \/
  exists c i w, cpc s c = DtorJoin i /\ nth_error (workers s) i = Some (Some w) /\
                wpc s w = WReturned /\ workers s' = set_nth i None (workers s).
Proof.
  intros Hn H. destruct a as [c o|[w0|c] pick|w0]; step_inv H; crunch.
  all: try (at_caller Hn; discriminate).
  right. exists c, i, n. auto.
Qed.

Lemma join_position_step a s s' e c i :
  step a s = Some (s', e) ->
  cpc s' c = DtorJoin i ->
  cpc s c = DtorJoin i \/
  (i = 0 /\ cpc s c = DtorNotifyAll) \/
  exists i', i = S i' /\ cpc s c = DtorJoin i' /\
    (nth_error (workers s) i' = Some None \/
     exists w, nth_error (workers s) i' = Some (Some w) /\ wpc s w = WReturned).
Proof.
  intros H Hc. destruct a as [c0 o|[w0|c0] pick|w0]; step_inv H; crunch.
  all: try (destruct o; discriminate).
  all: injection Hc as <-; auto.
  all: right; right; eexists; split; [reflexivity|]; split; [reflexivity|]; eauto.
Qed.

Lemma return_105_step a s s' e c :
  step a s = Some (s', e) ->
  In (EvReturn c 105) e ->
  exists i, cpc s c = DtorJoin i /\ nth_error (workers s) i = None.
Proof.
  intros H Hin. destruct a as [c0 o|[w0|c0] pick|w0]; step_inv H; cbn in Hin.
  all: repeat (destruct Hin as [Hin|Hin]; try discriminate Hin); try contradiction.
  all: injection Hin as <-; eauto.
Qed.

Lemma past_worker_check_step a s s' e c :
  step a s = Some (s', e) ->
  past_worker_check (cpc s' c) = true ->
  past_worker_check (cpc s c) = true \/ length (workers s) <> 0.
Proof.
  intros H Hc. destruct a as [c0 o|[w0|c0] pick|w0]; step_inv H; crunch.
  all: try (destruct o; discriminate).
  all: right; rewrite E0; discriminate.
Qed.

Lemma push_needs_running a s s' e c t :
  step a s = Some (s', e) -> In (EvPush c t) e ->
  stop s = false /\ exists h f, cpc s c = EnqLocked h f.
Proof.
  intros H Hin. destruct a as [c0 o|[w0|c0] pick|w0]; step_inv H; cbn in Hin.
  all: repeat (destruct Hin as [Hin|Hin]; try discriminate Hin); try contradiction.
  injection Hin as <- <-. eauto.
Qed.

(** Where a queued task goes. *)
Lemma queued_task_step a s s' e t :
  step a s = Some (s', e) ->
  In t (tasks s) ->
  In t (tasks s') \/
  (exists w, w_task (wpc s' w) = Some t) \/
  (exists c, cpc s c = ClrSwap) \/
  (exists c i, cpc s c = DtorJoin i /\ nth_error (workers s) i = None).
Proof.
  intros H Hin. destruct a as [c0 o|[w0|c0] pick|w0]; step_inv H; norm.
  all: try (left; assumption).
  all: try contradiction.
  all: try (left; match goal with E : tasks _ = _ |- _ => rewrite E end; assumption).
  all: try (left; apply in_or_app; left; assumption).
  all: try (right; right; eauto 10; fail).
  destruct Hin as [<-|Hin]; [|auto].
  right. left. exists w0. now rewrite upd_same.
Qed.

(** Where the task in the hands of a worker goes. *)
Lemma held_task_step a s s' e w t :
  (forall c, in_resize_or_clear (cpc s c) = false) ->
  step a s = Some (s', e) ->
  w_task (wpc s w) = Some t ->
  w_task (wpc s' w) = Some t \/
  (wpc s w = WInvoke t /\
   forall h f, t = Packaged h f -> nth_error (store s) h = Some Pending ->
               nth_error (store s') h = Some (Ready f)).
Proof.
  intros Hn H Hw. destruct a as [c0 o|[w0|c0] pick|w0]; step_inv H; crunch.
  all: try (at_caller Hn; discriminate).
  all: try (destruct (wpc s w) eqn:X; cbn in Hw |- *; auto; discriminate).
  all: try (right; split; [congruence|]; intros h' f' Ht Hp; try discriminate;
            injection Hw as <-; try discriminate;
            injection Ht as <- <-; try congruence;
            eapply nth_error_set_nth_same; eauto).
  destruct (wpc s w0); discriminate.
Qed.

(** * The destructor waits for the queued tasks *)

Lemma push_step_stop a s s' e :
  step a s = Some (s', e) -> pushes e <> [] -> stop s = false.
Proof.
  intros H Hp. destruct (pushes e) as [|t l] eqn:E; [congruence|].
  assert (Hin : In t (pushes e)) by (rewrite E; now left).
  apply in_pushes in Hin. destruct Hin as [c Hin].
  exact (proj1 (push_needs_running _ _ _ _ _ _ H Hin)).
Qed.

Lemma orderly_construct threads : orderly threads (construct threads) [].
Proof.
  constructor; cbn [construct cpc workers tasks stop pushes flat_map]; try reflexivity;
    try discriminate; try contradiction.
  - now rewrite length_map, length_seq.
  - intros i Hi. left. rewrite nth_error_map, nth_error_seq.
    apply Nat.ltb_lt in Hi. now rewrite Hi.
  - intros w Hw. unfold construct. cbn [wpc]. apply Nat.ltb_ge in Hw. now rewrite Hw.
  - intros w. destruct (construct_wpc threads w) as [-> | ->]; discriminate.
Qed.

Lemma orderly_step threads a s ev s' e :
  is_resize_or_clear a = false ->
  mutex_ok s /\ owned_ok s /\ history_ok s ev /\ orderly threads s ev ->
  step a s = Some (s', e) ->
  mutex_ok s' /\ owned_ok s' /\ history_ok s' (ev ++ e) /\ orderly threads s' (ev ++ e).
Proof.
  intros Ha (Hm & Hown & Hhist & Hord) H.
  destruct (history_ok_step _ _ _ _ _ (conj Hown Hhist) H) as [Hown' Hhist'].
  split; [eapply mutex_ok_step; eauto|]. split; [exact Hown'|]. split; [exact Hhist'|].
  pose proof (ord_no_rc _ _ _ Hord) as Hn.
  assert (Hret : forall w, wpc s w = WReturned -> wpc s' w = WReturned)
    by (intros w; eapply returned_stays; eauto).
  assert (Hlen : length (workers s') = threads).
  { destruct (workers_step _ _ _ _ Hn H) as [->|(c & i & w & _ & _ & _ & ->)].
    - apply (ord_len _ _ _ Hord).
    - rewrite length_set_nth. apply (ord_len _ _ _ Hord). }
  assert (Hall : forall c i, cpc s c = DtorJoin i -> nth_error (workers s) i = None ->
                 tasks s = []).
  { intros c i Hc Hi. apply nth_error_None in Hi.
    rewrite (ord_len _ _ _ Hord) in Hi.
    destruct (tasks s) as [|t q] eqn:Hq; [reflexivity|].
    assert (Hne : threads <> 0) by (apply (ord_queue _ _ _ Hord); congruence).
    assert (Hw0 : wpc s 0 = WReturned)
      by (apply (ord_join _ _ _ Hord c i 0 Hc); lia).
    destruct (ord_returned _ _ _ Hord 0 Hw0) as [_ X]. congruence. }
  constructor.
  - eapply no_rc_step; eauto.
  - exact Hlen.
  - intros i Hi.
    destruct (workers_step _ _ _ _ Hn H) as [->|(c & i0 & w & Hc & Hi0 & Hw & ->)].
    + destruct (ord_slots _ _ _ Hord i Hi) as [X|[X Y]]; auto.
    + destruct (Nat.eq_dec i i0) as [->|Hne].
      * right. destruct (ord_slots _ _ _ Hord i0 Hi) as [X|[X Y]].
        -- split; [eapply nth_error_set_nth_same; eauto|].
           apply Hret. congruence.
        -- congruence.
      * rewrite nth_error_set_nth_other by (intros X; apply Hne; now symmetry).
        destruct (ord_slots _ _ _ Hord i Hi) as [X|[X Y]]; auto.
  - intros w Hw. eapply unstarted_stays; eauto. apply (ord_unstarted _ _ _ Hord w Hw).
  - intros w Hw.
    assert (Hs : stop s = true /\ tasks s = []).
    { destruct (returned_step _ _ _ _ _ H Hw) as [X|(_ & X & Y)]; auto.
      apply (ord_returned _ _ _ Hord w X). }
    destruct Hs as [Hs Hq]. split; [eapply stop_stays; eauto|].
    destruct (queue_step _ _ _ _ H) as [[_ [l Hl]]|(c & h & f & _ & Hp & _)].
    + rewrite Hq in Hl. symmetry in Hl. apply app_eq_nil in Hl. tauto.
    + assert (stop s = false) by (eapply push_step_stop; eauto; rewrite Hp; discriminate).
      congruence.
  - intros c Hc.
    destruct (past_worker_check_step _ _ _ _ _ H Hc) as [X|X].
    + apply (ord_enq _ _ _ Hord c X).
    + now rewrite (ord_len _ _ _ Hord) in X.
  - intros Hq.
    destruct (queue_step _ _ _ _ H) as [[_ [l Hl]]|(c & h & f & Hc & _)].
    + apply (ord_queue _ _ _ Hord). rewrite Hl. intros X.
      apply app_eq_nil in X. tauto.
    + apply (ord_enq _ _ _ Hord c). now rewrite Hc.
  - intros c i j Hc Hji Hj. apply Hret.
    destruct (join_position_step _ _ _ _ _ _ H Hc)
      as [X|[[-> _]|(i' & -> & X & Y)]].
    + apply (ord_join _ _ _ Hord c i j X Hji Hj).
    + lia.
    + destruct (Nat.eq_dec j i') as [->|Hne].
      * destruct (ord_slots _ _ _ Hord i' Hj) as [Z|[_ Z]]; [|exact Z].
        destruct Y as [Y|(w & Y & Yw)]; congruence.
      * apply (ord_join _ _ _ Hord c i' j X); lia.
  - intros c j Hin Hj. apply Hret. apply in_app_or in Hin. destruct Hin as [Hin|Hin].
    + apply (ord_done _ _ _ Hord c j Hin Hj).
    + destruct (return_105_step _ _ _ _ _ H Hin) as (i & Hc & Hi).
      apply (ord_join _ _ _ Hord c i j Hc); [|exact Hj].
      apply nth_error_None in Hi. rewrite (ord_len _ _ _ Hord) in Hi. lia.
  - intros t Ht. rewrite pushes_app in Ht. apply in_app_or in Ht.
    destruct Ht as [Ht|Ht].
    + destruct (ord_accounted _ _ _ Hord t Ht) as [Hq|[(w & Hw)|(h & f & -> & Hr)]].
      * destruct (queued_task_step _ _ _ _ _ H Hq)
          as [X|[X|[(c & X)|(c & i & X & Y)]]].
        -- now left.
        -- right. now left.
        -- pose proof (Hn c) as Z. rewrite X in Z. discriminate.
        -- rewrite (Hall c i X Y) in Hq. destruct Hq.
      * destruct (held_task_step _ _ _ _ _ _ Hn H Hw) as [X|[X Y]].
        -- right. left. eauto.
        -- destruct (own_w_packaged _ Hown w t Hw) as (h & f & ->).
           right. right. exists h, f. split; [reflexivity|].
           apply Y; [reflexivity|].
           apply (own_w_pending _ Hown w). unfold w_handle. now rewrite Hw.
      * right. right. exists h, f. split; [reflexivity|].
        assert (Hd : dropped h (Ready f) s)
          by (apply settled_is_dropped; auto; discriminate).
        exact (drop_store _ _ _ (dropped_step _ _ _ _ _ _ Hd H)).
    + left. destruct (queue_step _ _ _ _ H) as [[Hp _]|(c & h & f & _ & Hp & Hq & _)].
      * rewrite Hp in Ht. destruct Ht.
      * rewrite Hp in Ht. rewrite Hq. apply in_or_app. now right.
Qed.

Lemma orderly_run threads sched :
  forall s ev s' e,
    enqueue_and_destroy_only sched ->
    mutex_ok s /\ owned_ok s /\ history_ok s ev /\ orderly threads s ev ->
    run sched s = Some (s', e) ->
    mutex_ok s' /\ owned_ok s' /\ history_ok s' (ev ++ e) /\ orderly threads s' (ev ++ e).
Proof.
  induction sched as [|a rest IH]; cbn [run]; intros s ev s' e Hs Hinv H.
  - injection H as <- <-. now rewrite app_nil_r.
  - unfold enqueue_and_destroy_only in Hs. cbn in Hs. apply andb_true_iff in Hs.
    destruct Hs as [Ha Hs]. apply negb_true_iff in Ha.
    destruct (step a s) as [[s1 e1]|] eqn:E; try discriminate.
    destruct (run rest s1) as [[s2 e2]|] eqn:R; try discriminate.
    injection H as <- <-. rewrite app_assoc.
    eapply IH; [exact Hs| |exact R]. eapply orderly_step; eauto.
Qed.

(** X17: the destructor waits for the work.  In a run from the constructor
    in which callers only enqueue and destroy, the destructor returns
    (line 105) only when every worker thread has returned and the queue is
    empty, and by then every task that [enqueue] ever pushed has been
    popped and called: its future is ready with the outcome of its
    callable.  No queued task is lost at shutdown. *)
Theorem destructor_returns_after_all_tasks_ran threads sched s ev c :
  enqueue_and_destroy_only sched ->
  run sched (construct threads) = Some (s, ev) ->
  In (EvReturn c 105) ev ->
  (forall w, w < threads -> wpc s w = WReturned) /\
  tasks s = [] /\
  (forall c' t, In (EvPush c' t) ev ->
     exists h f, t = Packaged h f /\ nth_error (store s) h = Some (Ready f)).
Proof.
  intros Hs Hrun Hret.
  destruct (orderly_run threads sched (construct threads) [] s ev Hs) as (Hm & Hown & Hhist & Hord);
    [|exact Hrun|].
  { split; [apply mutex_ok_construct|].
    destruct (history_ok_run threads [] (construct threads) [] eq_refl) as [Ho Hh].
    split; [exact Ho|]. split; [exact Hh|]. apply orderly_construct. }
  cbn [app] in *.
  assert (Hall : forall w, w < threads -> wpc s w = WReturned)
    by (intros w Hw; apply (ord_done _ _ _ Hord c w Hret Hw)).
  assert (Hq : tasks s = []).
  { destruct (tasks s) as [|t q] eqn:E; [reflexivity|].
    assert (Hne : threads <> 0) by (apply (ord_queue _ _ _ Hord); congruence).
    destruct (ord_returned _ _ _ Hord 0 (Hall 0 ltac:(lia))) as [_ X]. congruence. }
  split; [exact Hall|]. split; [exact Hq|].
  intros c' t Hin.
  destruct (ord_accounted _ _ _ Hord t) as [X|[(w & X)|X]].
  - apply in_pushes. eauto.
  - rewrite Hq in X. destruct X.
  - exfalso. destruct (Nat.lt_ge_cases w threads) as [Hlt|Hge].
    + rewrite (Hall w Hlt) in X. discriminate.
    + rewrite (ord_unstarted _ _ _ Hord w Hge) in X. discriminate.
  - exact X.
Qed.

Lemma destructor_returns_after_all_tasks_ran_witness :
  let sched := shutdown_sched ++ repeat (Step (Worker 0) 0) 9 ++
               repeat (Step (Caller 1) 0) 2 in
  enqueue_and_destroy_only sched /\
  run sched (construct 1) = Some (after sched (construct 1), trace sched (construct 1)) /\
  In (EvReturn 1 105) (trace sched (construct 1)) /\
  In (EvPush 0 (Packaged 0 (Returns 7))) (trace sched (construct 1)) /\
  wpc (after sched (construct 1)) 0 = WReturned /\
  tasks (after sched (construct 1)) = [] /\
  exists h f, Packaged 0 (Returns 7) = Packaged h f /\
              nth_error (store (after sched (construct 1))) h = Some (Ready f).
Proof.
  cbv zeta.
  set (sched := shutdown_sched ++ repeat (Step (Worker 0) 0) 9 ++
                repeat (Step (Caller 1) 0) 2).
  assert (H0 : enqueue_and_destroy_only sched) by (vm_compute; reflexivity).
  assert (H1 : run sched (construct 1) =
               Some (after sched (construct 1), trace sched (construct 1)))
    by (vm_compute; reflexivity).
  assert (H2 : In (EvReturn 1 105) (trace sched (construct 1)))
    by (vm_compute; repeat ((left; reflexivity) || right)).
  assert (H3 : In (EvPush 0 (Packaged 0 (Returns 7))) (trace sched (construct 1)))
    by (vm_compute; repeat ((left; reflexivity) || right)).
  split; [exact H0|]. split; [exact H1|]. split; [exact H2|]. split; [exact H3|].
  destruct (destructor_returns_after_all_tasks_ran 1 sched _ _ 1 H0 H1 H2)
    as (Ha & Hb & Hc).
  split; [apply Ha; lia|]. split; [exact Hb|].
  exact (Hc 0 _ H3).
Defined.

(** * No task is left with every worker asleep *)

Lemma waiting_step a s s' e w :
  step a s = Some (s', e) ->
  is_waiting (wpc s' w) = true ->
  is_waiting (wpc s w) = true \/ wpc s w = WEnterWait.
Proof.
  intros H Hw. destruct a as [c o|[w0|c] pick|w0]; step_inv H; crunch.
  all: try (destruct (wpc s w); cbn in *; auto; discriminate).
Qed.

Lemma enter_wait_step a s s' e w :
  step a s = Some (s', e) ->
  wpc s' w = WEnterWait ->
  wpc s w = WEnterWait \/ (wpc s w = WPred /\ tasks s = [] /\ tasks s' = []).
Proof.
  intros H Hw. destruct a as [c o|[w0|c] pick|w0]; step_inv H; crunch.
  all: try (destruct (wpc s w); cbn in *; auto; discriminate).
Qed.

Lemma spawned_step a s s' e :
  step a s = Some (s', e) -> spawned s <= spawned s'.
Proof.
  intros H. destruct a as [c o|[w0|c] pick|w0]; step_inv H; crunch.
Qed.

Lemma started_step a s s' e :
  (forall w, w < spawned s <-> wpc s w <> WNotStarted) ->
  step a s = Some (s', e) ->
  forall w, w < spawned s' <-> wpc s' w <> WNotStarted.
Proof.
  intros Hs H w. pose proof (Hs w) as X.
  destruct a as [c o|[w0|c] pick|w0]; step_inv H; norm; auto.
  all: try (unfold upd; destruct (Nat.eqb_spec w w0) as [->|Hne]; [|exact X];
            split; [discriminate|]; intros _; apply (Hs w0); congruence).
  all: try (unfold upd; destruct (Nat.eqb_spec w w1) as [->|Hne]; [|exact X];
            split; [discriminate|]; intros _; apply (Hs w1); congruence).
  all: try (destruct (is_waiting (wpc s w)) eqn:Y; [|exact X];
            split; [discriminate|]; intros _; apply (Hs w);
            destruct (wpc s w); discriminate).
  - unfold upd. destruct (Nat.eqb_spec w (spawned s)) as [->|Hne].
    + split; [discriminate|lia].
    + rewrite <- X. lia.
  - unfold upd. destruct (Nat.eqb_spec w w0) as [->|Hne]; [|exact X].
    split; [discriminate|]. intros _. apply (Hs w0).
    destruct (wpc s w0); discriminate.
Qed.

Lemma about_to_notify_step a s s' e c :
  step a s = Some (s', e) ->
  about_to_notify (cpc s c) = true ->
  about_to_notify (cpc s' c) = true \/
  exists h pick, a = Step (Caller c) pick /\ cpc s c = EnqNotify h.
Proof.
  intros H Hc. destruct a as [c0 o|[w0|c0] pick|w0]; step_inv H; crunch.
Qed.

Lemma about_to_notify_back a s s' e c :
  step a s = Some (s', e) ->
  about_to_notify (cpc s' c) = true ->
  about_to_notify (cpc s c) = true \/ exists h f, cpc s c = EnqLocked h f.
Proof.
  intros H Hc. destruct a as [c0 o|[w0|c0] pick|w0]; step_inv H; crunch.
  all: try (destruct o; discriminate).
Qed.

(** The [notify_one] of line 54 wakes a waiting worker, or finds that no
    worker thread is waiting. *)
Lemma enq_notify_effect s c h pick s' e :
  cpc s c = EnqNotify h ->
  step (Step (Caller c) pick) s = Some (s', e) ->
  tasks s' = tasks s /\ spawned s' = spawned s /\
  ((exists w, wpc s w = WWaiting /\ wpc s' = upd (wpc s) w WWoken) \/
   (wpc s' = wpc s /\ forall w, w < spawned s -> is_waiting (wpc s w) = false)).
Proof.
  intros Hc H. unfold step in H. autounfold with stmt in H. cbv beta iota in H.
  rewrite Hc in H. cbv beta iota in H. unfold notify_one in H.
  destruct (is_waiting (wpc s pick)) eqn:Ep.
  - cbn in H. injection H as <- <-. cbn. split; [reflexivity|]. split; [reflexivity|].
    left. exists pick. split; [|reflexivity].
    destruct (wpc s pick); try discriminate; reflexivity.
  - destruct (find _ _) as [w|] eqn:F.
    + cbn in H. injection H as <- <-. cbn. split; [reflexivity|]. split; [reflexivity|].
      left. exists w. split; [|reflexivity].
      apply find_some in F. destruct F as [_ F].
      destruct (wpc s w); try discriminate; reflexivity.
    + cbn in H. injection H as <- <-. cbn. split; [reflexivity|]. split; [reflexivity|].
      right. split; [reflexivity|]. intros w Hw.
      apply (find_none _ _ F w). apply in_seq. lia.
Qed.

Ltac norm_in H :=
  cbn [set_workers set_tasks set_stop set_mutex set_wpc set_spawned set_cpc
       set_store set_cerr workers tasks stop queue_mutex wpc spawned cpc store cerr] in H.

Lemma ids_step a s s' e :
  (forall i w, nth_error (workers s) i = Some (Some w) -> w < spawned s) ->
  step a s = Some (s', e) ->
  forall i w, nth_error (workers s') i = Some (Some w) -> w < spawned s'.
Proof.
  intros Hi H i0 w0 Hw.
  destruct a as [c o|[w1|c] pick|w1]; step_inv H; norm; norm_in Hw; eauto.
  all: try (apply nth_error_set_nth_cases in Hw;
            destruct Hw as [[_ Hw]|[_ Hw]]; [discriminate|eauto]).
  - apply (Hi i0). destruct (Nat.lt_ge_cases i0 n) as [Hlt|Hge].
    + now rewrite nth_error_firstn, (proj2 (Nat.ltb_lt i0 n) Hlt) in Hw.
    + rewrite nth_error_firstn, (proj2 (Nat.ltb_ge i0 n) Hge) in Hw. discriminate.
  - apply (Hi i0). destruct (Nat.lt_ge_cases i0 (length (workers s))) as [Hlt|Hge].
    + now rewrite nth_error_app1 in Hw.
    + rewrite nth_error_app2 in Hw by exact Hge.
      apply nth_error_In, repeat_spec in Hw. discriminate.
  - apply nth_error_set_nth_cases in Hw. destruct Hw as [[_ Hw]|[_ Hw]].
    + injection Hw as <-. lia.
    + apply Hi in Hw. lia.
Qed.



Lemma awake_ok_construct threads : awake_ok (construct threads).
Proof.
  constructor; cbn [construct tasks cpc workers spawned about_to_notify past_worker_check].
  - congruence.
  - intros w. destruct (construct_wpc threads w) as [-> | ->]; discriminate.
  - intros w. unfold construct. cbn [wpc].
    destruct (Nat.ltb_spec w threads); split; auto; try discriminate; try lia; congruence.
  - intros [X|[c X]]; [congruence|discriminate].
  - discriminate.
  - intros i w Hw. rewrite nth_error_map, nth_error_seq in Hw.
    destruct (Nat.ltb_spec i threads); [|discriminate].
    cbn in Hw. injection Hw as <-. exact H.
Qed.

(** A caller that has pushed did so on a pool with a running worker. *)
Lemma locked_enqueue_has_workers s c h f :
  alive s -> awake_ok s -> cpc s c = EnqLocked h f -> 0 < spawned s.
Proof.
  intros Hal Haw Hc.
  assert (Hlen : 0 < length (workers s))
    by (apply (aw_enq _ Haw c); now rewrite Hc).
  destruct (nth_error (workers s) 0) as [[w|]|] eqn:E.
  - pose proof (aw_ids _ Haw 0 w E). lia.
  - exfalso.
    pose proof (spawner_is_owner s c 0 _ (alive_mutex _ Hal) (alive_joinable _ Hal) E Hc
                  eq_refl) as X.
    exact X.
  - apply nth_error_None in E. lia.
Qed.

Lemma awake_ok_step a s s' e :
  alive s -> awake_ok s -> step a s = Some (s', e) -> awake_ok s'.
Proof.
  intros Hal Haw H. pose proof (alive_mutex _ Hal) as Hm.
  pose proof (spawned_step _ _ _ _ H) as Hsp.
  assert (Hst : forall w, w < spawned s' <-> wpc s' w <> WNotStarted)
    by (eapply started_step; eauto; apply (aw_started _ Haw)).
  constructor.
  - intros Hq.
    destruct (queue_step _ _ _ _ H) as [[_ [l Hl]]|(c & h & f & _ & _ & _ & Hc & _)].
    + assert (Hq0 : tasks s <> [])
        by (rewrite Hl; intros X; apply app_eq_nil in X; tauto).
      destruct (aw_some _ Haw Hq0) as [(w & Hw & Hnw)|(c & Hc)].
      * left. exists w. split; [lia|].
        destruct (is_waiting (wpc s' w)) eqn:X; [|reflexivity].
        destruct (waiting_step _ _ _ _ _ H X) as [Y|Y]; [congruence|].
        destruct Hq0. apply (aw_enter _ Haw w Y).
      * destruct (about_to_notify_step _ _ _ _ _ H Hc) as [X|(h & pick & -> & X)];
          [right; eauto|].
        destruct (enq_notify_effect _ _ _ _ _ _ X H) as (_ & Hs & [(w & Hw & Hw')|[Hw' Hno]]).
        -- left. exists w. split.
           ++ rewrite Hs. apply (aw_started _ Haw). congruence.
           ++ rewrite Hw', upd_same. reflexivity.
        -- left. exists 0. rewrite Hs, Hw'.
           assert (0 < spawned s) by (apply (aw_spawned _ Haw); right; eauto).
           split; [assumption|]. now apply Hno.
    + right. exists c. rewrite Hc, upd_same. reflexivity.
  - intros w Hw.
    destruct (enter_wait_step _ _ _ _ _ H Hw) as [X|(_ & _ & X)]; [|exact X].
    pose proof (aw_enter _ Haw w X) as Hq.
    destruct (queue_step _ _ _ _ H) as [[_ [l Hl]]|(c & h & f & Hc & _)].
    + rewrite Hq in Hl. symmetry in Hl. apply app_eq_nil in Hl. tauto.
    + exfalso. assert (Y : Worker w = Caller c); [|discriminate Y].
      apply (locked_unique s); auto; cbn; [now rewrite X|now rewrite Hc].
  - exact Hst.
  - intros [Hq|(c & Hc)].
    + destruct (queue_step _ _ _ _ H) as [[_ [l Hl]]|(c & h & f & Hc & _)].
      * assert (0 < spawned s); [|lia]. apply (aw_spawned _ Haw). left.
        rewrite Hl. intros X. apply app_eq_nil in X. tauto.
      * pose proof (locked_enqueue_has_workers _ _ _ _ Hal Haw Hc). lia.
    + destruct (about_to_notify_back _ _ _ _ _ H Hc) as [X|(h & f & X)].
      * assert (0 < spawned s); [|lia]. apply (aw_spawned _ Haw). right. eauto.
      * pose proof (locked_enqueue_has_workers _ _ _ _ Hal Haw X). lia.
  - intros c Hc. pose proof (alive_step_length _ _ _ _ Hal H) as Hl.
    destruct (past_worker_check_step _ _ _ _ _ H Hc) as [X|X].
    + pose proof (aw_enq _ Haw c X). lia.
    + lia.
  - eapply ids_step; eauto. apply (aw_ids _ Haw).
Qed.

Lemma awake_ok_run sched :
  forall s s' ev,
    alive s -> awake_ok s -> no_destroy sched -> run sched s = Some (s', ev) ->
    alive s' /\ awake_ok s'.
Proof.
  induction sched as [|a rest IH]; cbn [run]; intros s s' ev Hal Haw Hnd H.
  - injection H as <- <-. auto.
  - unfold no_destroy in Hnd. cbn in Hnd. apply andb_true_iff in Hnd.
    destruct Hnd as [Ha Hnd]. apply negb_true_iff in Ha.
    destruct (step a s) as [[s1 e1]|] eqn:E; try discriminate.
    destruct (run rest s1) as [[s2 e2]|] eqn:R; try discriminate.
    injection H as <- <-.
    eapply (IH s1); [eapply alive_step; eauto|eapply awake_ok_step; eauto|exact Hnd|exact R].
Qed.

(** X18: no lost wake-up.  As long as the destructor has not been entered,
    a non-empty queue is never left with every worker blocked in [wait]:
    either the caller that pushed has still to reach its [notify_one]
    (line 54), or some worker thread is awake and will test the queue
    before it can block (line 75).  With the mutex free, that worker is
    about to take the lock (line 72 or leaving [wait]) or is calling a task
    (line 83). *)
Theorem queued_task_finds_a_worker_awake threads sched s ev :
  no_destroy sched ->
  run sched (construct threads) = Some (s, ev) ->
  tasks s <> [] ->
  (forall c, about_to_notify (cpc s c) = false) ->
  exists w,
    w < spawned s /\
    wpc s w <> WWaiting /\ wpc s w <> WNotStarted /\ wpc s w <> WReturned /\
    wpc s w <> WEnterWait /\
    (queue_mutex s = None ->
       wpc s w = WLock \/ wpc s w = WWoken \/ exists t, wpc s w = WInvoke t).
Proof.
  intros Hnd Hrun Hq Hno.
  destruct (awake_ok_run sched (construct threads) s ev
              (alive_construct threads) (awake_ok_construct threads) Hnd Hrun)
    as [Hal Haw].
  destruct (aw_some _ Haw Hq) as [(w & Hw & Hnw)|(c & Hc)];
    [|rewrite Hno in Hc; discriminate].
  exists w. split; [exact Hw|].
  split; [intros X; rewrite X in Hnw; discriminate|].
  split; [now apply (aw_started _ Haw)|].
  split; [apply (alive_running _ Hal)|].
  split; [intros X; apply Hq, (aw_enter _ Haw w X)|].
  intros Hmx.
  pose proof (proj2 (alive_mutex _ Hal (Worker w))) as Hl. cbn in Hl.
  pose proof (proj1 (aw_started _ Haw w) Hw) as Hns.
  pose proof (alive_running _ Hal w) as Hnr.
  destruct (wpc s w) eqn:E; cbn in Hl, Hnw;
    try (specialize (Hl eq_refl); congruence); try congruence; eauto.
Qed.

Lemma queued_task_finds_a_worker_awake_witness :
  no_destroy (two_queued_sched ++ repeat (Step (Worker 0) 0) 6) /\
  run (two_queued_sched ++ repeat (Step (Worker 0) 0) 6) (construct 1) =
    Some (after (two_queued_sched ++ repeat (Step (Worker 0) 0) 6) (construct 1),
          trace (two_queued_sched ++ repeat (Step (Worker 0) 0) 6) (construct 1)) /\
  tasks (after (two_queued_sched ++ repeat (Step (Worker 0) 0) 6) (construct 1)) =
    [Packaged 1 (Returns 2)] /\
  exists w,
    w < 1 /\
    wpc (after (two_queued_sched ++ repeat (Step (Worker 0) 0) 6) (construct 1)) w
      <> WWaiting.
Proof.
  set (sched := two_queued_sched ++ repeat (Step (Worker 0) 0) 6).
  assert (H0 : no_destroy sched) by (vm_compute; reflexivity).
  assert (H1 : run sched (construct 1) =
               Some (after sched (construct 1), trace sched (construct 1)))
    by (vm_compute; reflexivity).
  assert (H2 : tasks (after sched (construct 1)) = [Packaged 1 (Returns 2)])
    by (vm_compute; reflexivity).
  split; [exact H0|]. split; [exact H1|]. split; [exact H2|].
  destruct (queued_task_finds_a_worker_awake 1 sched _ _ H0 H1) as (w & Hw & Hn & _).
  - rewrite H2. discriminate.
  - intros c. vm_compute. destruct c; reflexivity.
  - exists w. split; [exact Hw|exact Hn].
Defined.

(** * What a future delivers *)

Lemma held_is_popped_step a s s' e w t :
  step a s = Some (s', e) ->
  w_task (wpc s' w) = Some t ->
  w_task (wpc s w) = Some t \/ In t (pops e).
Proof.
  intros H Hw.
  destruct a as [c o|[w0|c] pick|w0]; step_inv H; cbn in Hw; auto.
  all: try (upd_cases; cbn in Hw; try discriminate; auto;
            try (rewrite_pcs; cbn; auto; fail)).
  all: try (destruct (wpc s w); cbn in Hw |- *; auto; discriminate).
  injection Hw as <-. right. cbn. auto.
Qed.

(** Where the task in the hands of a worker goes, in any run. *)
Lemma held_task_goes a s s' e w t :
  (forall w, w < spawned s <-> wpc s w <> WNotStarted) ->
  step a s = Some (s', e) ->
  w_task (wpc s w) = Some t ->
  w_task (wpc s' w) = Some t \/
  (wpc s w = WInvoke t /\
   forall h f, t = Packaged h f -> nth_error (store s) h = Some Pending ->
               nth_error (store s') h = Some (Ready f)).
Proof.
  intros Hst H Hw.
  assert (Hlt : w < spawned s)
    by (apply Hst; intros X; rewrite X in Hw; discriminate).
  destruct a as [c0 o|[w0|c0] pick|w0]; step_inv H; crunch.
  all: try lia.
  all: try (destruct (wpc s w) eqn:X; cbn in Hw |- *; auto; discriminate).
  all: try (right; split; [congruence|]; intros h' f' Ht Hp; try discriminate;
            injection Hw as <-; try discriminate;
            injection Ht as <- <-; try congruence;
            eapply nth_error_set_nth_same; eauto).
  destruct (wpc s w0); discriminate.
Qed.

Lemma started_construct threads :
  forall w, w < spawned (construct threads) <-> wpc (construct threads) w <> WNotStarted.
Proof.
  intros w. unfold construct. cbn [wpc spawned].
  destruct (Nat.ltb_spec w threads); split; auto; try discriminate; try lia; congruence.
Qed.

Lemma delivery_step a s ev s' e :
  owned_ok s /\ history_ok s ev /\
    (forall w, w < spawned s <-> wpc s w <> WNotStarted) /\
    (forall w t, w_task (wpc s w) = Some t -> In t (pushes ev) /\ In t (pops ev)) /\
    (forall h r, nth_error (store s) h = Some (Ready r) ->
       In (Packaged h r) (pushes ev) /\ In (Packaged h r) (pops ev)) /\
    (forall h, In h (handles (pops ev)) ->
       (exists w, w_handle (wpc s w) = Some h) \/
       (exists r, nth_error (store s) h = Some (Ready r))) ->
  step a s = Some (s', e) ->
  owned_ok s' /\ history_ok s' (ev ++ e) /\
    (forall w, w < spawned s' <-> wpc s' w <> WNotStarted) /\
    (forall w t, w_task (wpc s' w) = Some t ->
       In t (pushes (ev ++ e)) /\ In t (pops (ev ++ e))) /\
    (forall h r, nth_error (store s') h = Some (Ready r) ->
       In (Packaged h r) (pushes (ev ++ e)) /\ In (Packaged h r) (pops (ev ++ e))) /\
    (forall h, In h (handles (pops (ev ++ e))) ->
       (exists w, w_handle (wpc s' w) = Some h) \/
       (exists r, nth_error (store s') h = Some (Ready r))).
Proof.
  intros (Hown & Hhist & Hst & Hw & Hr & Hp) H.
  destruct (history_ok_step _ _ _ _ _ (conj Hown Hhist) H) as [Hown' Hhist'].
  split; [exact Hown'|]. split; [exact Hhist'|].
  split; [eapply started_step; eauto|].
  rewrite pushes_app, pops_app.
  assert (Hw' : forall w t, w_task (wpc s' w) = Some t ->
                  In t (pushes ev) /\ In t (pops ev ++ pops e)).
  { intros w t Ht.
    destruct (held_is_popped_step _ _ _ _ _ _ H Ht) as [X|X].
    - destruct (Hw w t X). split; [assumption|apply in_or_app; now left].
    - split; [|apply in_or_app; now right].
      destruct (w_task_step _ _ _ _ _ _ H Ht) as [Y|[q Hq]]; [apply (Hw w t Y)|].
      destruct (hist_suffix _ _ Hhist) as [gone Hg]. rewrite Hg, Hq.
      apply in_or_app. right. now left. }
  split; [|split].
  - intros w t Ht. destruct (Hw' w t Ht). split; [apply in_or_app; now left|assumption].
  - intros h r Hh.
    destruct (ready_step _ _ _ _ _ _ H Hh) as [X|[w X]].
    + destruct (Hr h r X). split; apply in_or_app; now left.
    + destruct (Hw w (Packaged h r)) as [Y Z]; [now rewrite X|].
      split; apply in_or_app; now left.
  - intros h Hh. rewrite handles_app in Hh. apply in_app_or in Hh.
    destruct Hh as [Hh|Hh].
    + destruct (Hp h Hh) as [(w & Hwh)|(r & Hrh)].
      * unfold w_handle in Hwh.
        destruct (w_task (wpc s w)) as [[h0 f0|]|] eqn:Et; try discriminate.
        injection Hwh as ->.
        destruct (held_task_goes _ _ _ _ _ _ Hst H Et) as [X|[_ X]].
        -- left. exists w. unfold w_handle. now rewrite X.
        -- right. exists f0. apply X; [reflexivity|].
           apply (own_w_pending _ Hown w). unfold w_handle. now rewrite Et.
      * right. exists r.
        assert (Hd : dropped h (Ready r) s)
          by (apply settled_is_dropped; auto; discriminate).
        exact (drop_store _ _ _ (dropped_step _ _ _ _ _ _ Hd H)).
    + destruct (pops_step _ _ _ _ H) as [X|(w & t & X & _ & Hwt & _)];
        rewrite X in Hh.
      * destruct Hh.
      * left. exists w. unfold w_handle. rewrite Hwt. cbn.
        destruct t as [h0 f0|r0].
        -- rewrite handles_packaged in Hh. destruct Hh as [<-|[]]. reflexivity.
        -- rewrite handles_plain in Hh. destruct Hh.
Qed.

(** X12: what a future can deliver.  In every run from the constructor a
    future is in one of three states.  It still blocks.  Or [get] delivers
    the value or the exception of the callable that [enqueue] bound into
    the task of this very future, never that of another task; this happens
    only after a worker has popped the task.  Or [get] throws
    [broken_promise]; then the task was destroyed without having been
    called (by [clear], by the destructor or by the throw of line 47), and
    no worker has ever popped it. *)
Theorem future_delivers_its_own_outcome_or_broken_promise threads sched s ev h v :
  run sched (construct threads) = Some (s, ev) ->
  nth_error (store s) h = Some v ->
  match future_get v with
  | Blocks => v = Pending
  | Gets r =>
      (exists c, In (EvPush c (Packaged h r)) ev) /\
      (forall c f, In (EvPush c (Packaged h f)) ev -> f = r) /\
      (exists w, In (EvPop w (Packaged h r)) ev)
  | BrokenPromise =>
      forall w f, ~ In (EvPop w (Packaged h f)) ev
  end.
Proof.
  intros Hrun Hv.
  pose proof (run_invariant_trace
    (fun s ev => owned_ok s /\ history_ok s ev /\
       (forall w, w < spawned s <-> wpc s w <> WNotStarted) /\
       (forall w t, w_task (wpc s w) = Some t -> In t (pushes ev) /\ In t (pops ev)) /\
       (forall h r, nth_error (store s) h = Some (Ready r) ->
          In (Packaged h r) (pushes ev) /\ In (Packaged h r) (pops ev)) /\
       (forall h, In h (handles (pops ev)) ->
          (exists w, w_handle (wpc s w) = Some h) \/
          (exists r, nth_error (store s) h = Some (Ready r))))
    delivery_step sched (construct threads) [] s ev) as X.
  cbn [app] in X. destruct X as (Hown & Hhist & _ & _ & Hr & Hp); auto.
  { destruct (history_ok_run threads [] (construct threads) [] eq_refl) as [Ho Hh].
    split; [exact Ho|]. split; [exact Hh|]. split; [apply started_construct|].
    split; [|split].
    - intros w t. destruct (construct_wpc threads w) as [-> | ->]; discriminate.
    - intros h0 r0. cbn. destruct h0; discriminate.
    - intros h0 []. }
  destruct v as [|r|]; cbn [future_get].
  - reflexivity.
  - destruct (Hr h r Hv) as [Hpush Hpop].
    split; [now apply in_pushes|]. split; [|now apply in_pops].
    intros c f Hf. eapply packaged_inj; [exact (hist_nodup _ _ Hhist)| |exact Hpush].
    apply in_pushes. eauto.
  - intros w f Hin.
    assert (Hh : In h (handles (pops ev)))
      by (apply in_handles; exists f; apply in_pops; eauto).
    destruct (Hp h Hh) as [(w' & Hw')|(r & Hr')]; [|congruence].
    pose proof (own_w_pending _ Hown w' h Hw'). congruence.
Qed.

Lemma future_delivers_its_own_outcome_or_broken_promise_witness :
  let sched := one_popped_sched ++ clear_sched ++ after_clear_sched in
  run sched (construct 1) = Some (after sched (construct 1), trace sched (construct 1)) /\
  map future_get (store (after sched (construct 1))) = [Gets (Returns 1); BrokenPromise] /\
  (exists w, In (EvPop w (Packaged 0 (Returns 1))) (trace sched (construct 1))) /\
  (forall c f, In (EvPush c (Packaged 0 f)) (trace sched (construct 1)) -> f = Returns 1) /\
  (forall w f, ~ In (EvPop w (Packaged 1 f)) (trace sched (construct 1))).
Proof.
  cbv zeta.
  set (sched := one_popped_sched ++ clear_sched ++ after_clear_sched).
  assert (H : run sched (construct 1) =
              Some (after sched (construct 1), trace sched (construct 1)))
    by (vm_compute; reflexivity).
  assert (H0 : nth_error (store (after sched (construct 1))) 0 = Some (Ready (Returns 1)))
    by (vm_compute; reflexivity).
  assert (H1 : nth_error (store (after sched (construct 1))) 1 = Some Abandoned)
    by (vm_compute; reflexivity).
  split; [exact H|]. split; [vm_compute; reflexivity|].
  pose proof (future_delivers_its_own_outcome_or_broken_promise 1 sched _ _ 0 _ H H0) as A.
  pose proof (future_delivers_its_own_outcome_or_broken_promise 1 sched _ _ 1 _ H H1) as B.
  cbn [future_get] in A, B. destruct A as (_ & A2 & A3).
  split; [exact A3|]. split; [exact A2|exact B].
Defined.

(** * resize without shrinking *)

Lemma resize_to_same_size_witness :
  exists s' ev,
    call 3 0 (OpResize 2) (construct 2) = Some (s', ev) /\
    workers s' = [Some 0; Some 1] /\ tasks s' = [] /\ queue_mutex s' = None.
Proof.
  destruct (resize_to_same_size (construct 2) 0 0 eq_refl eq_refl)
    as (s' & ev & H1 & _ & H2 & H3 & _ & _ & _ & H4).
  exists s', ev. split; [exact H1|]. split; [exact H2|]. split; [exact H3|exact H4].
Defined.

(** ** Growing within the limits of the implementation *)

Lemma finish_within_idle lim n c s :
  cpc s c = Idle -> finish_within lim n c s = Completes s [].
Proof. intros H. destruct n; simpl; auto. now rewrite H. Qed.

Lemma finish_within_step lim n c s s1 e1 :
  cpc s c <> Idle ->
  throws lim c s = false ->
  step (Step (Caller c) 0) s = Some (s1, e1) ->
  finish_within lim (S n) c s =
  match finish_within lim n c s1 with
  | Completes s2 e2 => Completes s2 (e1 ++ e2)
  | r => r
  end.
Proof.
  intros Hc Ht H. cbn [finish_within]. rewrite Ht, H.
  destruct (cpc s c); try congruence; reflexivity.
Qed.

Lemma finish_within_throw lim n c s :
  cpc s c <> Idle ->
  throws lim c s = true ->
  finish_within lim (S n) c s = Terminates.
Proof.
  intros Hc Ht. cbn [finish_within]. rewrite Ht.
  destruct (cpc s c); try congruence; reflexivity.
Qed.

(** The loop of lines 135-159 when every thread can be started: nothing
    throws, and the caller does what [finish] says. *)
Lemma spawn_loop_within lim m :
  forall s c n i k,
    cpc s c = RszSpawn n i ->
    length (workers s) = n ->
    i + m = n ->
    spawned s + m <= max_threads lim ->
    finish_within lim (m + 2 + k) c s =
    match finish (m + 2 + k) c s with
    | Some (s', ev) => Completes s' ev
    | None => Blocked
    end.
Proof.
  induction m as [|m IH]; intros s c n i k Hc Hlen Him Hmax.
  - assert (Hlt : Nat.ltb i (length (workers s)) = false) by (apply Nat.ltb_ge; lia).
    change (0 + 2 + k) with (S (S k)).
    assert (H1 : step (Step (Caller c) 0) s =
                 Some (set_cpc (upd (cpc s) c (RszReturn n)) s, []))
      by (rewrite (resize_spawn_step _ _ _ _ _ Hc), Hlt; reflexivity).
    erewrite finish_within_step;
      [ | rewrite Hc; discriminate | unfold throws; now rewrite Hc, Hlt | exact H1 ].
    erewrite finish_step; [ | rewrite Hc; discriminate | exact H1 ].
    assert (H2 : step (Step (Caller c) 0) (set_cpc (upd (cpc s) c (RszReturn n)) s) =
                 Some (set_cpc (upd (upd (cpc s) c (RszReturn n)) c Idle)
                         (set_mutex None (set_cpc (upd (cpc s) c (RszReturn n)) s)),
                       [EvReturn c 161]))
      by (run_stmt; reflexivity).
    erewrite finish_within_step;
      [ | norm; rewrite upd_same; discriminate
        | unfold throws; norm; now rewrite upd_same | exact H2 ].
    erewrite finish_step; [ | norm; rewrite upd_same; discriminate | exact H2 ].
    rewrite finish_within_idle, finish_idle by (norm; now rewrite upd_same).
    reflexivity.
  - assert (Hlt : Nat.ltb i (length (workers s)) = true) by (apply Nat.ltb_lt; lia).
    change (S m + 2 + k) with (S (m + 2 + k)).
    set (s1 := set_cpc (upd (cpc s) c (RszSpawn n (S i)))
                 (set_workers (set_nth i (Some (spawned s)) (workers s))
                    (set_wpc (upd (wpc s) (spawned s) WLock)
                       (set_spawned (S (spawned s)) s)))).
    assert (H1 : step (Step (Caller c) 0) s = Some (s1, [])).
    { rewrite (resize_spawn_step _ _ _ _ _ Hc), Hlt. reflexivity. }
    erewrite finish_within_step; [ | rewrite Hc; discriminate | | exact H1 ].
    + erewrite finish_step; [ | rewrite Hc; discriminate | exact H1 ].
      rewrite (IH s1 c n (S i) k).
      * destruct (finish (m + 2 + k) c s1) as [[s2 e2]|]; reflexivity.
      * subst s1. norm. now rewrite upd_same.
      * subst s1. norm. now rewrite length_set_nth.
      * lia.
      * subst s1. norm. lia.
    + unfold throws. rewrite Hc, Hlt.
      now rewrite (proj2 (Nat.ltb_lt (spawned s) (max_threads lim))) by lia.
Qed.

(** The loop of lines 135-159 when the system refuses one of the threads. *)
Lemma spawn_loop_fails lim m :
  forall s c n i k,
    cpc s c = RszSpawn n i ->
    length (workers s) = n ->
    i + m = n ->
    spawned s <= max_threads lim ->
    max_threads lim < spawned s + m ->
    finish_within lim (m + k) c s = Terminates.
Proof.
  induction m as [|m IH]; intros s c n i k Hc Hlen Him Hle Hlt; [lia|].
  assert (Hi : Nat.ltb i (length (workers s)) = true) by (apply Nat.ltb_lt; lia).
  change (S m + k) with (S (m + k)).
  destruct (Nat.ltb_spec (spawned s) (max_threads lim)) as [Hs|Hs].
  - set (s1 := set_cpc (upd (cpc s) c (RszSpawn n (S i)))
                 (set_workers (set_nth i (Some (spawned s)) (workers s))
                    (set_wpc (upd (wpc s) (spawned s) WLock)
                       (set_spawned (S (spawned s)) s)))).
    assert (H1 : step (Step (Caller c) 0) s = Some (s1, [])).
    { rewrite (resize_spawn_step _ _ _ _ _ Hc), Hi. reflexivity. }
    erewrite finish_within_step; [ | rewrite Hc; discriminate | | exact H1 ].
    + rewrite (IH s1 c n (S i) k); [reflexivity| | | | |]; subst s1; norm;
        rewrite ?upd_same, ?length_set_nth; auto; lia.
    + unfold throws. rewrite Hc, Hi.
      now rewrite (proj2 (Nat.ltb_lt (spawned s) (max_threads lim))) by lia.
  - apply finish_within_throw; [rewrite Hc; discriminate|].
    unfold throws. rewrite Hc, Hi.
    now rewrite (proj2 (Nat.ltb_ge (spawned s) (max_threads lim))) by lia.
Qed.

(** Lines 109-132 of a growing [resize]: the caller arrives at line 134
    with the mutex, having changed nothing else. *)
Lemma grow_prefix lim s c n fuel :
  cpc s c = Idle ->
  queue_mutex s = None ->
  length (workers s) < n ->
  exists s3,
    cpc s3 c = RszGrow n (length (workers s)) /\
    workers s3 = workers s /\ spawned s3 = spawned s /\
    call_within lim (S (S fuel)) c (OpResize n) s = finish_within lim fuel c s3 /\
    call (S (S fuel)) c (OpResize n) s = finish fuel c s3.
Proof.
  intros Hc Hm Hlt. unfold call_within, call.
  set (s1 := set_cpc (upd (cpc s) c (RszLock n)) s).
  assert (H0 : step (Invoke c (OpResize n)) s = Some (s1, []))
    by (unfold step; now rewrite Hc).
  rewrite H0. clear H0.
  set (s2 := set_cpc (upd (cpc s1) c (RszBranch n)) (set_mutex (Some (Caller c)) s1)).
  assert (H1 : step (Step (Caller c) 0) s1 = Some (s2, []))
    by (subst s2 s1; run_stmt; reflexivity).
  assert (Hl1 : Nat.ltb n (length (workers s)) = false) by (apply Nat.ltb_ge; lia).
  assert (Hl2 : Nat.ltb (length (workers s)) n = true) by (apply Nat.ltb_lt; lia).
  set (s3 := set_cpc (upd (cpc s2) c (RszGrow n (length (workers s)))) s2).
  assert (H2 : step (Step (Caller c) 0) s2 = Some (s3, [])).
  { erewrite resize_branch_step by (subst s2; norm; now rewrite upd_same).
    subst s3 s2 s1. norm. rewrite Hl1, Hl2. reflexivity. }
  assert (N1 : cpc s1 c <> Idle) by (subst s1; norm; rewrite upd_same; discriminate).
  assert (N2 : cpc s2 c <> Idle) by (subst s2; norm; rewrite upd_same; discriminate).
  assert (T1 : throws lim c s1 = false)
    by (unfold throws; subst s1; norm; now rewrite upd_same).
  assert (T2 : throws lim c s2 = false)
    by (unfold throws; subst s2; norm; now rewrite upd_same).
  exists s3.
  split; [subst s3; norm; now rewrite upd_same|].
  split; [reflexivity|]. split; [reflexivity|].
  rewrite (finish_within_step lim (S fuel) c s1 s2 [] N1 T1 H1).
  rewrite (finish_within_step lim fuel c s2 s3 [] N2 T2 H2).
  rewrite (finish_step (S fuel) c s1 s2 [] N1 H1).
  rewrite (finish_step fuel c s2 s3 [] N2 H2).
  cbn [app]. split.
  - destruct (finish_within lim fuel c s3); reflexivity.
  - destruct (finish fuel c s3) as [[s5 e5]|]; reflexivity.
Qed.

(** X2: [resize] to a larger size, called while the mutex is free.  When
    the vector can be given [n] slots and the system starts the missing
    threads, [resize] returns with exactly [n] workers: the old slots are as
    they were, every new slot holds a thread of its own at the top of the
    consume-loop, and the old workers, the queue and [stop] are untouched.
    When [workers.resize] throws (line 134), or the system refuses a thread
    (line 137), the exception leaves the [noexcept] function and the program
    is terminated. *)
Theorem resize_grows_within_the_limits lim s c n k :
  cpc s c = Idle ->
  queue_mutex s = None ->
  length (workers s) < n ->
  (n <= max_slots lim ->
   spawned s + (n - length (workers s)) <= max_threads lim ->
   exists s' ev,
     call_within lim (n - length (workers s) + 5 + k) c (OpResize n) s = Completes s' ev /\
     cpc s' c = Idle /\
     length (workers s') = n /\
     (forall j, j < length (workers s) -> nth_error (workers s') j = nth_error (workers s) j) /\
     (forall j, length (workers s) <= j < n ->
        nth_error (workers s') j = Some (Some (spawned s + (j - length (workers s)))) /\
        wpc s' (spawned s + (j - length (workers s))) = WLock) /\
     (forall w, w < spawned s -> wpc s' w = wpc s w) /\
     tasks s' = tasks s /\ stop s' = stop s /\ queue_mutex s' = None) /\
  (max_slots lim < n ->
   call_within lim (3 + k) c (OpResize n) s = Terminates) /\
  (n <= max_slots lim ->
   spawned s <= max_threads lim ->
   max_threads lim < spawned s + (n - length (workers s)) ->
   call_within lim (n - length (workers s) + 5 + k) c (OpResize n) s = Terminates).
Proof.
  intros Hc Hm Hlt.
  assert (Hgrow : forall s3, cpc s3 c = RszGrow n (length (workers s)) ->
            n <= max_slots lim ->
            step (Step (Caller c) 0) s3 =
              Some (set_cpc (upd (cpc s3) c (RszSpawn n (length (workers s))))
                      (set_workers (workers s3 ++ repeat None (n - length (workers s))) s3),
                    []) /\
            throws lim c s3 = false).
  { intros s3 H3 Hle. split; [run_stmt; reflexivity|].
    unfold throws. rewrite H3.
    now rewrite (proj2 (Nat.leb_le n (max_slots lim)) Hle). }
  split; [|split].
  - intros Hslots Hthreads.
    destruct (resize_grows s c n k Hc Hm Hlt)
      as (s' & ev & Hcall & Hidle & Hl & Hold & Hnew & Hw & Ht & Hs & Hmx).
    exists s', ev.
    replace (n - length (workers s) + 5 + k)
      with (S (S (S (n - length (workers s) + 2 + k)))) in * by lia.
    destruct (grow_prefix lim s c n (S (n - length (workers s) + 2 + k)) Hc Hm Hlt)
      as (s3 & H3 & Hws3 & Hsp3 & Hcw & Hcf).
    destruct (Hgrow s3 H3 Hslots) as [Hstep Hthr].
    assert (Hfin : finish_within lim (S (n - length (workers s) + 2 + k)) c s3 =
                   match finish (S (n - length (workers s) + 2 + k)) c s3 with
                   | Some (s', ev) => Completes s' ev
                   | None => Blocked
                   end).
    { clear Hcw Hcf Hcall.
      erewrite finish_within_step; [ | rewrite H3; discriminate | exact Hthr | exact Hstep ].
      erewrite finish_step; [ | rewrite H3; discriminate | exact Hstep ].
      rewrite (spawn_loop_within lim (n - length (workers s)) _ c n (length (workers s)) k).
      - cbn [app].
        match goal with
        | |- context [finish ?f c ?x] => destruct (finish f c x) as [[s5 e5]|]
        end; reflexivity.
      - norm. now rewrite upd_same.
      - norm. rewrite Hws3, length_app, repeat_length. lia.
      - lia.
      - norm. lia. }
    rewrite Hcw, Hfin, <- Hcf, Hcall.
    split; [reflexivity|]. auto 10.
  - intros Hover.
    change (3 + k) with (S (S (S k))).
    destruct (grow_prefix lim s c n (S k) Hc Hm Hlt) as (s3 & H3 & _ & _ & Hcw & _).
    rewrite Hcw. apply finish_within_throw; [rewrite H3; discriminate|].
    unfold throws. rewrite H3.
    now rewrite (proj2 (Nat.leb_gt n (max_slots lim))) by lia.
  - intros Hslots Hle Hover.
    replace (n - length (workers s) + 5 + k)
      with (S (S (S (n - length (workers s) + (2 + k))))) by lia.
    destruct (grow_prefix lim s c n (S (n - length (workers s) + (2 + k))) Hc Hm Hlt)
      as (s3 & H3 & Hws3 & Hsp3 & Hcw & _).
    destruct (Hgrow s3 H3 Hslots) as [Hstep Hthr].
    rewrite Hcw.
    erewrite finish_within_step; [ | rewrite H3; discriminate | exact Hthr | exact Hstep ].
    rewrite (spawn_loop_fails lim (n - length (workers s)) _ c n (length (workers s)) (2 + k));
      [reflexivity| | | | |]; norm;
      rewrite ?upd_same, ?Hws3, ?length_app, ?repeat_length; auto; lia.
Qed.

Lemma resize_grows_within_the_limits_witness :
  (exists s' ev,
     call_within {| max_slots := 8; max_threads := 3 |} 7 0 (OpResize 3) (construct 1) =
       Completes s' ev /\
     length (workers s') = 3 /\
     nth_error (workers s') 0 = Some (Some 0) /\
     nth_error (workers s') 2 = Some (Some 2) /\ wpc s' 2 = WLock /\
     queue_mutex s' = None) /\
  call_within {| max_slots := 2; max_threads := 3 |} 3 0 (OpResize 3) (construct 1) =
    Terminates /\
  call_within {| max_slots := 8; max_threads := 2 |} 7 0 (OpResize 3) (construct 1) =
    Terminates.
Proof.
  split; [|split].
  - destruct (proj1 (resize_grows_within_the_limits
                       {| max_slots := 8; max_threads := 3 |} (construct 1) 0 3 0
                       eq_refl eq_refl ltac:(cbn; lia)))
      as (s' & ev & H1 & _ & H2 & H3 & H4 & _ & _ & _ & H5); [cbn; lia|cbn; lia|].
    exists s', ev. split; [exact H1|]. split; [exact H2|].
    split; [apply (H3 0); cbn; lia|].
    destruct (H4 2) as [Ha Hb]; [cbn; lia|].
    split; [exact Ha|]. split; [exact Hb|exact H5].
  - apply (proj1 (proj2 (resize_grows_within_the_limits
                    {| max_slots := 2; max_threads := 3 |} (construct 1) 0 3 0
                    eq_refl eq_refl ltac:(cbn; lia)))).
    cbn. lia.
  - apply (proj2 (proj2 (resize_grows_within_the_limits
                    {| max_slots := 8; max_threads := 2 |} (construct 1) 0 3 0
                    eq_refl eq_refl ltac:(cbn; lia)))); cbn; lia.
Defined.

(** * Shutdown under every interleaving *)

Lemma total_rank_upd f w p n :
  w < n -> total_rank (upd f w p) n + wrank (f w) = total_rank f n + wrank p.
Proof.
  induction n as [|n IH]; [lia|]. intros Hw. cbn [total_rank].
  destruct (Nat.eq_dec w n) as [->|Hne].
  - rewrite upd_same.
    assert (X : total_rank (upd f n p) n = total_rank f n).
    { clear. generalize (Nat.le_refl n). generalize n at 1 4 5 as m.
      induction m as [|m IHm]; intros Hm; [reflexivity|]. cbn [total_rank].
      rewrite IHm by lia. rewrite upd_other by lia. reflexivity. }
    lia.
  - rewrite upd_other by (intros X; apply Hne; now symmetry). specialize (IH ltac:(lia)). lia.
Qed.

Lemma total_rank_bound f n : total_rank f n <= 6 * n.
Proof.
  induction n as [|n IH]; cbn [total_rank]; [lia|].
  assert (wrank (f n) <= 6) by (destruct (f n); cbn; lia). lia.
Qed.

Ltac two_workers Hm :=
  match goal with
  | E1 : wpc ?s ?w1 = _, E2 : wpc ?s ?w2 = _, Hne : ?w2 <> ?w1 |- _ =>
      assert (Worker w1 = Worker w2)
        by (apply (locked_unique s);
            [exact Hm | cbn; rewrite E1; reflexivity | cbn; rewrite E2; reflexivity]);
      congruence
  end.

Lemma front_ok_step threads a s ev s' e :
  is_resize_or_clear a = false ->
  mutex_ok s -> orderly threads s ev -> front_ok s ->
  step a s = Some (s', e) -> front_ok s'.
Proof.
  intros Ha Hm Hord Hf H w.
  pose proof (ord_no_rc _ _ _ Hord) as Hn.
  destruct a as [c0 o|[w0|c0] pick|w0]; step_inv H; norm.
  all: try (at_caller Hn; discriminate).
  all: pose proof (Hf w) as (Hu & Hfr & Hex).
  all: try (split; [try assumption|split]).
  all: try assumption.
  all: try (unfold upd; destruct (Nat.eqb_spec w w0) as [->|Hne];
            [try discriminate|try assumption]).
  all: try (intros _; congruence).
  all: try (intros Hw; exfalso; two_workers Hm).
  all: try (destruct (is_waiting (wpc s w)) eqn:Ew; [discriminate|assumption]).
  all: rewrite ?orb_false_r, ?andb_true_r in *.
  all: try (intros _; auto; right; congruence).
  all: try (intros _; destruct (Hex E) as [X|X]; congruence).
  all: try (intros _; apply Hfr in E; congruence).
  all: try (intros _; try right; intros X; apply app_eq_nil in X; destruct X; discriminate).
  all: intros Hw; exfalso.
  all: match goal with
       | Ec : cpc _ ?c = DtorJoin ?i, En : nth_error (workers _) ?i = None |- _ =>
           apply nth_error_None in En; rewrite (ord_len _ _ _ Hord) in En;
           destruct (Nat.lt_ge_cases w threads) as [Hlt|Hge];
           [rewrite (ord_join _ _ _ Hord c i w Ec) in Hw by lia; discriminate
           |rewrite (ord_unstarted _ _ _ Hord w Hge) in Hw; discriminate]
       end.
Qed.

Lemma front_ok_construct threads : front_ok (construct threads).
Proof.
  intros w. destruct (construct_wpc threads w) as [-> | ->];
    repeat split; discriminate.
Qed.

Lemma closing_step threads c a s ev s' e :
  is_invoke a = false ->
  mutex_ok s -> orderly threads s ev -> front_ok s -> closing threads c s ->
  step a s = Some (s', e) ->
  closing threads c s' /\
  shutdown_budget threads c s' < shutdown_budget threads c s.
Proof.
  intros Ha Hm Hord Hf Hcl H.
  destruct Hcl as [Hstop Hcaller Hothers Hawake Hstarted].
  assert (Hlt : forall w, wpc s w <> WNotStarted -> w < threads).
  { intros w Hw. destruct (Nat.lt_ge_cases w threads) as [|Hge]; [assumption|].
    destruct Hw. apply (ord_unstarted _ _ _ Hord w Hge). }
  assert (Hcc : forall c0 p, cpc s c0 = p -> p <> Idle ->
            c0 = c /\ exists i, p = DtorJoin i).
  { intros c0 p Hp Hni. destruct (Nat.eq_dec c0 c) as [->|Hne].
    - split; [reflexivity|]. destruct Hcaller as [[i Hi]|Hi]; [exists i|]; congruence.
    - rewrite (Hothers c0 Hne) in Hp. congruence. }
  destruct a as [c0 o|[w0|c0] pick|w0]; [discriminate| | |].
  - (* a worker *)
    step_inv H; rewrite ?orb_false_r, ?andb_true_r in *; try congruence.
    all: try (destruct (Hawake w0) as [? ?]; congruence).
    all: assert (Hw0 : w0 < threads) by (apply Hlt; congruence).
    all: match goal with
         | |- context [upd (wpc _) _ ?p] =>
             pose proof (total_rank_upd (wpc s) w0 p threads Hw0) as Hrank
         end.
    all: rewrite E in Hrank; cbn [wrank] in Hrank.
    all: split; [constructor; norm; try assumption|unfold shutdown_budget; norm].
    all: try lia.
    all: try (intros w; specialize (Hawake w); specialize (Hstarted w); unfold upd;
              destruct (Nat.eqb_spec w w0) as [->|Hne];
              [repeat split; try discriminate; intros _; discriminate|assumption]).
    all: try (destruct (Hf w0) as (_ & Hfr & _); apply Hfr in E; congruence).
    all: try (match goal with E0 : tasks _ = _ :: _ |- _ => rewrite E0 end;
              cbn [length]; lia).
  - (* the caller of the destructor *)
    step_inv H.
    all: match goal with
         | E : cpc _ _ = _ |- _ =>
             destruct (Hcc _ _ E ltac:(discriminate)) as (-> & i' & Hi');
             try discriminate Hi'
         end.
    all: try (assert (Hi : i < threads)
                by (rewrite <- (ord_len _ _ _ Hord); apply nth_error_Some; congruence)).
    all: split;
      [constructor; norm; rewrite ?upd_same; try assumption; eauto;
       intros c' Hc'; rewrite upd_other by assumption; auto
      |unfold shutdown_budget; norm; rewrite upd_same, E; cbn [crank length]; lia].
  - (* no worker is blocked in [wait] *)
    step_inv H. destruct (Hawake w0) as [? ?].
    destruct (wpc s w0); try discriminate; congruence.
Qed.

Ltac enabled E :=
  unfold step; autounfold with stmt; cbv beta iota; rewrite E; cbv beta iota;
  repeat match goal with
  | H : _ = _ |- _ => rewrite H; cbv beta iota
  end;
  repeat match goal with
  | |- context [match ?x with _ => _ end] =>
      lazymatch x with
      | context [match _ with _ => _ end] => fail
      | _ => destruct x; cbn
      end
  end;
  discriminate.

(** A worker that holds the lock, or has a task to call, can always take its
    next step; one that wants the lock can when the mutex is free. *)
Lemma worker_can_step s w :
  match wpc s w with
  | WPred | WExitCheck | WFront | WPopped _ | WInvoke _ => True
  | WLock | WWoken => queue_mutex s = None
  | _ => False
  end ->
  step (Step (Worker w) 0) s <> None.
Proof.
  destruct (wpc s w) eqn:E; intros H; try contradiction; enabled E.
Qed.

Lemma some_worker_runs s n :
  (forall w, w < n -> wpc s w = WReturned) \/
  (exists w, w < n /\ wpc s w <> WReturned).
Proof.
  induction n as [|n [IH|(w & Hw & Hne)]].
  - left. intros w Hw. lia.
  - destruct (wpc s n) eqn:E;
      try (right; exists n; split; [lia|rewrite E; discriminate]).
    left. intros w Hw. destruct (Nat.eq_dec w n) as [->|]; [exact E|apply IH; lia].
  - right. exists w. split; [lia|exact Hne].
Qed.

Lemma closing_progress threads c s ev :
  mutex_ok s -> orderly threads s ev -> front_ok s -> closing threads c s ->
  cpc s c <> Idle ->
  exists t, step (Step t 0) s <> None.
Proof.
  intros Hm Hord Hf [Hstop Hcaller Hothers Hawake Hstarted] Hni.
  destruct Hcaller as [[i Hi]|Hi]; [|contradiction].
  assert (Hcl : forall c', c_locked (cpc s c') = false).
  { intros c'. destruct (Nat.eq_dec c' c) as [->|Hne];
      [rewrite Hi|rewrite (Hothers c' Hne)]; reflexivity. }
  assert (Hlocked : forall w, w_locked (wpc s w) = true ->
            step (Step (Worker w) 0) s <> None).
  { intros w Hw. apply worker_can_step.
    destruct (Hawake w) as [_ Hb]. destruct (Hf w) as (Hu & _ & _).
    destruct (wpc s w); try discriminate; try exact I; congruence. }
  destruct (some_worker_runs s threads) as [Hall|(w & Hw & Hne)].
  - exists (Caller c).
    destruct (nth_error (workers s) i) as [[n|]|] eqn:En.
    + assert (Hlt : i < threads)
        by (rewrite <- (ord_len _ _ _ Hord); apply nth_error_Some; congruence).
      destruct (ord_slots _ _ _ Hord i Hlt) as [X|[X _]]; [|congruence].
      assert (n = i) by congruence. subst n.
      rewrite (dtor_join_step s c i i 0 Hi En (Hall i Hlt)). discriminate.
    + enabled Hi.
    + enabled Hi.
  - destruct (queue_mutex s) as [[w'|c']|] eqn:Eq.
    + exists (Worker w'). apply Hlocked. apply (Hm (Worker w')). exact Eq.
    + apply (Hm (Caller c')) in Eq. cbn in Eq. rewrite Hcl in Eq. discriminate.
    + exists (Worker w). apply worker_can_step.
      destruct (Hawake w) as [Ha Hb]. destruct (Hf w) as (Hu & _ & _).
      specialize (Hstarted w Hw).
      destruct (wpc s w); try exact I; try exact Eq; congruence.
Qed.

Lemma invoke_is_not_resize a : is_invoke a = false -> is_resize_or_clear a = false.
Proof. destruct a; [discriminate|reflexivity|reflexivity]. Qed.

Lemma dtor_return_step a s s' e c i :
  step a s = Some (s', e) ->
  cpc s c = DtorJoin i -> cpc s' c = Idle -> In (EvReturn c 105) e.
Proof.
  intros H Hc Hi. destruct a as [c0 o|[w0|c0] pick|w0]; step_inv H; crunch.
Qed.

Lemma started_stays a s s' e w :
  step a s = Some (s', e) -> wpc s w <> WNotStarted -> wpc s' w <> WNotStarted.
Proof.
  intros H Hw. destruct a as [c0 o|[w0|c0] pick|w0]; step_inv H; crunch.
  all: try (destruct (is_waiting (wpc s w)) eqn:X; [discriminate|auto]).
Qed.

Lemma stop_is_set_step a s s' e c :
  step a s = Some (s', e) ->
  cpc s' c = DtorNotifyAll -> cpc s c = DtorNotifyAll \/ stop s' = true.
Proof.
  intros H Hc. destruct a as [c0 o|[w0|c0] pick|w0]; step_inv H; crunch.
  destruct o; discriminate.
Qed.

Lemma steady_step threads a s ev s' e :
  is_resize_or_clear a = false ->
  steady threads s ev -> step a s = Some (s', e) -> steady threads s' (ev ++ e).
Proof.
  intros Ha (Hinv & Hf & Hst & Hno) H.
  pose proof Hinv as (Hm & _ & _ & Hord).
  split; [eapply orderly_step; eauto|].
  split; [eapply front_ok_step; eauto|].
  split; [intros w Hw; eapply started_stays; eauto|].
  intros c Hc. destruct (stop_is_set_step _ _ _ _ _ H Hc) as [X|X]; [|exact X].
  eapply stop_stays; eauto. apply (ord_no_rc _ _ _ Hord).
Qed.

Lemma steady_construct threads : steady threads (construct threads) [].
Proof.
  split; [|split; [apply front_ok_construct|split]].
  - split; [apply mutex_ok_construct|].
    destruct (history_ok_run threads [] (construct threads) [] eq_refl) as [Ho Hh].
    split; [exact Ho|]. split; [exact Hh|]. apply orderly_construct.
  - intros w Hw. apply (started_construct threads w). exact Hw.
  - intros c Hc. discriminate Hc.
Qed.

Lemma steady_run threads sched :
  forall s0 ev0 s ev,
    enqueue_and_destroy_only sched ->
    steady threads s0 ev0 ->
    run sched s0 = Some (s, ev) -> steady threads s (ev0 ++ ev).
Proof.
  induction sched as [|a rest IH]; cbn [run]; intros s0 ev0 s ev Hs H0 Hrun.
  - injection Hrun as <- <-. now rewrite app_nil_r.
  - unfold enqueue_and_destroy_only in Hs. cbn in Hs. apply andb_true_iff in Hs.
    destruct Hs as [Ha Hs]. apply negb_true_iff in Ha.
    destruct (step a s0) as [[s1 e1]|] eqn:E; try discriminate.
    destruct (run rest s1) as [[s2 e2]|] eqn:R; try discriminate.
    injection Hrun as <- <-. rewrite app_assoc.
    eapply IH; [exact Hs| |exact R]. eapply steady_step; eauto.
Qed.

Lemma closing_run threads c sched :
  forall s ev s' e,
    no_new_calls sched ->
    mutex_ok s /\ owned_ok s /\ history_ok s ev /\ orderly threads s ev ->
    front_ok s -> closing threads c s ->
    run sched s = Some (s', e) ->
    (mutex_ok s' /\ owned_ok s' /\ history_ok s' (ev ++ e) /\ orderly threads s' (ev ++ e)) /\
    front_ok s' /\ closing threads c s' /\
    length sched + shutdown_budget threads c s' <= shutdown_budget threads c s /\
    (cpc s c <> Idle -> cpc s' c = Idle -> In (EvReturn c 105) e).
Proof.
  induction sched as [|a rest IH]; cbn [run]; intros s ev s' e Hs Hinv Hf Hcl H.
  - injection H as <- <-. rewrite app_nil_r. cbn [length].
    split; [exact Hinv|]. split; [exact Hf|]. split; [exact Hcl|].
    split; [lia|]. intros X Y. contradiction.
  - unfold no_new_calls in Hs. cbn in Hs. apply andb_true_iff in Hs.
    destruct Hs as [Ha Hs]. apply negb_true_iff in Ha.
    destruct (step a s) as [[s1 e1]|] eqn:E; try discriminate.
    destruct (run rest s1) as [[s2 e2]|] eqn:R; try discriminate.
    injection H as <- <-.
    pose proof Hinv as (Hm & _ & _ & Hord).
    destruct (closing_step threads c a s ev s1 e1 Ha Hm Hord Hf Hcl E) as [Hcl1 Hlt].
    assert (Hinv1 := orderly_step threads a s ev s1 e1 (invoke_is_not_resize a Ha) Hinv E).
    assert (Hf1 := front_ok_step threads a s ev s1 e1 (invoke_is_not_resize a Ha) Hm Hord Hf E).
    destruct (IH s1 (ev ++ e1) s2 e2 Hs Hinv1 Hf1 Hcl1 R) as (Hinv2 & Hf2 & Hcl2 & Hlen & Hret).
    rewrite <- app_assoc in Hinv2.
    split; [exact Hinv2|]. split; [exact Hf2|]. split; [exact Hcl2|].
    split; [cbn [length]; lia|].
    intros Hni Hi. apply in_or_app.
    destruct (cl_caller _ _ _ Hcl1) as [[i1 Hi1]|Hi1].
    + right. apply Hret; [congruence|exact Hi].
    + left. destruct (cl_caller _ _ _ Hcl) as [[i0 Hi0]|Hi0]; [|contradiction].
      eapply dtor_return_step; eauto.
Qed.

(** X19: the destructor returns under every interleaving, unless a worker
    is about to block.  Take any state of a run from the constructor in
    which callers only enqueue and destroy, where caller [c] has set [stop]
    (line 97) and is about to call [notify_all] (line 99), the other callers
    are in no member function, and no worker thread is between the test of
    the wait predicate and blocking (line 75).  Line 99 can be executed, and
    from then on, however the threads are interleaved and as long as no
    member function is entered: a run has at most
    [6 * tasks.size() + 7 * threads + 1] steps; as long as the destructor has
    not returned, some thread can take a step; and when the destructor has
    returned (line 105), every worker thread has returned and the queue is
    empty.  So every interleaving carried on for as long as a thread can
    step ends with the destructor returned. *)
Theorem destructor_returns_on_every_interleaving threads sched0 s ev0 c :
  enqueue_and_destroy_only sched0 ->
  run sched0 (construct threads) = Some (s, ev0) ->
  cpc s c = DtorNotifyAll ->
  (forall c', c' <> c -> cpc s c' = Idle) ->
  (forall w, wpc s w <> WEnterWait) ->
  exists s1,
    step (Step (Caller c) 0) s = Some (s1, []) /\
    forall sched s2 ev2,
      no_new_calls sched ->
      run sched s1 = Some (s2, ev2) ->
      length sched <= 6 * length (tasks s) + 7 * threads + 1 /\
      (cpc s2 c <> Idle -> exists t, step (Step t 0) s2 <> None) /\
      (cpc s2 c = Idle ->
         In (EvReturn c 105) ev2 /\
         (forall w, w < threads -> wpc s2 w = WReturned) /\
         tasks s2 = []).
Proof.
  intros Hs Hrun Hc Hothers Hwait.
  pose proof (steady_run threads sched0 (construct threads) [] s ev0 Hs
                (steady_construct threads) Hrun) as Hst.
  cbn [app] in Hst. destruct Hst as (Hinv & Hf & Hstarted & Hstop).
  pose proof (dtor_notify_all_step s c 0 Hc) as Hstep.
  set (s1 := set_cpc (upd (cpc s) c (DtorJoin 0))
               (set_wpc (fun w => if is_waiting (wpc s w) then WWoken else wpc s w) s)) in *.
  exists s1. split; [exact Hstep|].
  assert (Hinv1 := orderly_step threads (Step (Caller c) 0) s ev0 s1 [] eq_refl Hinv Hstep).
  pose proof Hinv as (Hm & _ & _ & Hord).
  assert (Hf1 := front_ok_step threads (Step (Caller c) 0) s ev0 s1 [] eq_refl Hm Hord Hf Hstep).
  assert (Hcl1 : closing threads c s1).
  { constructor; unfold s1; norm.
    - apply (Hstop c Hc).
    - left. exists 0. apply upd_same.
    - intros c' Hne. rewrite upd_other by exact Hne. apply Hothers. exact Hne.
    - intros w. specialize (Hwait w).
      destruct (wpc s w); cbn [is_waiting]; split; try discriminate; assumption.
    - intros w Hw. specialize (Hstarted w Hw).
      destruct (wpc s w); cbn [is_waiting]; try discriminate; assumption. }
  assert (Hb1 : shutdown_budget threads c s1 <= 6 * length (tasks s) + 7 * threads + 1).
  { unfold shutdown_budget, s1. norm. rewrite upd_same. cbn [crank].
    pose proof (total_rank_bound
                  (fun w => if is_waiting (wpc s w) then WWoken else wpc s w) threads).
    lia. }
  intros sched s2 ev2 Hnn Hrun2.
  destruct (closing_run threads c sched s1 (ev0 ++ []) s2 ev2 Hnn Hinv1 Hf1 Hcl1 Hrun2)
    as (Hinv2 & Hf2 & Hcl2 & Hlen & Hret).
  pose proof Hinv2 as (Hm2 & _ & _ & Hord2).
  split; [lia|].
  split; [intros Hni; eapply closing_progress; eauto|].
  intros Hi.
  assert (Hin : In (EvReturn c 105) ev2).
  { apply Hret; [|exact Hi]. unfold s1. norm. rewrite upd_same. discriminate. }
  assert (Hall : forall w, w < threads -> wpc s2 w = WReturned).
  { intros w Hw. apply (ord_done _ _ _ Hord2 c w); [|exact Hw].
    apply in_or_app. right. exact Hin. }
  split; [exact Hin|]. split; [exact Hall|].
  destruct (tasks s2) as [|t q] eqn:E; [reflexivity|].
  assert (Hne : threads <> 0) by (apply (ord_queue _ _ _ Hord2); congruence).
  destruct (ord_returned _ _ _ Hord2 0 (Hall 0 ltac:(lia))) as [_ X]. congruence.
Qed.

Lemma destructor_returns_on_every_interleaving_witness :
  let sched0 := enqueue_sched (Returns 7) ++ [Invoke 1 OpDestroy; Step (Caller 1) 0] in
  let sched := repeat (Step (Worker 0) 0) 9 ++ repeat (Step (Caller 1) 0) 2 in
  step (Step (Caller 1) 0) (after sched0 (construct 1)) = Some (shutdown_begun, []) /\
  length (tasks (after sched0 (construct 1))) = 1 /\
  cpc (after sched shutdown_begun) 1 = Idle /\
  length sched <= 14 /\
  In (EvReturn 1 105) (trace sched shutdown_begun) /\
  wpc (after sched shutdown_begun) 0 = WReturned /\
  tasks (after sched shutdown_begun) = [].
Proof.
  cbv zeta.
  set (sched0 := enqueue_sched (Returns 7) ++ [Invoke 1 OpDestroy; Step (Caller 1) 0]).
  set (sched := repeat (Step (Worker 0) 0) 9 ++ repeat (Step (Caller 1) 0) 2).
  assert (H0 : enqueue_and_destroy_only sched0) by (vm_compute; reflexivity).
  assert (H1 : run sched0 (construct 1) =
               Some (after sched0 (construct 1), trace sched0 (construct 1)))
    by (vm_compute; reflexivity).
  assert (H2 : cpc (after sched0 (construct 1)) 1 = DtorNotifyAll)
    by (vm_compute; reflexivity).
  assert (H3 : forall c', c' <> 1 -> cpc (after sched0 (construct 1)) c' = Idle).
  { intros [|[|c']] Hne; [vm_compute; reflexivity|contradiction|vm_compute; reflexivity]. }
  assert (H4 : forall w, wpc (after sched0 (construct 1)) w <> WEnterWait).
  { intros [|w]; vm_compute; discriminate. }
  assert (H5 : step (Step (Caller 1) 0) (after sched0 (construct 1)) =
               Some (shutdown_begun, []))
    by (vm_compute; reflexivity).
  assert (H6 : length (tasks (after sched0 (construct 1))) = 1)
    by (vm_compute; reflexivity).
  assert (H7 : no_new_calls sched) by (vm_compute; reflexivity).
  assert (H8 : run sched shutdown_begun =
               Some (after sched shutdown_begun, trace sched shutdown_begun))
    by (vm_compute; reflexivity).
  assert (H9 : cpc (after sched shutdown_begun) 1 = Idle) by (vm_compute; reflexivity).
  destruct (destructor_returns_on_every_interleaving 1 sched0 _ _ 1 H0 H1 H2 H3 H4)
    as (s1 & Hstep & Hall).
  rewrite H5 in Hstep. injection Hstep as <-.
  destruct (Hall sched _ _ H7 H8) as (Hlen & _ & Hret).
  destruct (Hret H9) as (Ha & Hb & Hc).
  rewrite H6 in Hlen.
  split; [exact H5|]. split; [exact H6|]. split; [exact H9|].
  split; [exact Hlen|]. split; [exact Ha|]. split; [apply Hb; lia|exact Hc].
Defined.

